(** * Asteroids game: a shallow embedding of the simulation core

    The development follows [public/game.js] (Vector2D, GameObject, Ship,
    Bullet, Asteroid, Game), the UIManager class (the message queue) and
    [src/ui/Minimap.js] (the coordinate conversions).

    Modelling conventions.
    - A JavaScript number is a real number ([R]); arithmetic is exact, so
      binary64 rounding, NaN and the infinities are outside the model.
      Where a property compares a computed number with an exact value, the
      rounding matters: module [Binary64] repeats those functions with the
      operations of binary64, and module [Rounding] shows where the code
      departs from the exact result.
      Counters that only ever hold integers ([score], [lives]) are [Z].
    - [Math.random()] is a stream of numbers, [RNG := nat -> R], threaded
      explicitly through every function that draws from it.
    - The canvas has unsigned integer dimensions (the DOM's [unsigned long]),
      a [Canvas] record of two [N].
    - JS arrays are lists; [splice(i, 1)] is [removeAt i], [push] appends.
    - The asteroid size strings ['large'], ['medium'], ['small'] are the
      constructors of [Size].
    - Drawing code has no effect on the simulation state and is left out. *)

From Stdlib Require Import Reals Lra Lia ZArith NArith List Bool String Ascii.
From Stdlib Require Import DecimalString Sorting Permutation.
From Stdlib Require Floats.
Import ListNotations.

Open Scope R_scope.

(** * Part I: the embedding *)

(** ** Comparisons returning JS booleans *)

Definition Rltb (a b : R) : bool := if Rlt_dec a b then true else false.
Definition Rgtb (a b : R) : bool := Rltb b a.
Definition Rleb (a b : R) : bool := if Rle_dec a b then true else false.

(** ** Math.random(), Math.floor() *)

Definition RNG := nat -> R.

(** The stream after [k] calls of [Math.random()]. *)
Definition skip (k : nat) (rng : RNG) : RNG := fun n => rng (k + n)%nat.

(** One call of [Math.random()]: the value and the rest of the stream. *)
Definition Math_random (rng : RNG) : R * RNG := (rng 0%nat, skip 1 rng).

Definition Math_floor (x : R) : Z := Int_part x.

(** ** Arrays *)

(** [arr.splice(i, 1)] *)
Definition removeAt {A : Type} (i : nat) (l : list A) : list A :=
  firstn i l ++ skipn (S i) l.

(** ** The canvas *)

Record Canvas := mkCanvas { width : N; height : N }.

Definition canvas_width (c : Canvas) : R := IZR (Z.of_N (width c)).
Definition canvas_height (c : Canvas) : R := IZR (Z.of_N (height c)).

(** ** class Vector2D *)

Record Vector2D := mkVector2D { vx : R; vy : R }.

Module Vector2D.

Definition add (a v : Vector2D) : Vector2D :=
  mkVector2D (vx a + vx v) (vy a + vy v).

Definition multiply (a : Vector2D) (scalar : R) : Vector2D :=
  mkVector2D (vx a * scalar) (vy a * scalar).

Definition rotate (a : Vector2D) (angle : R) : Vector2D :=
  let c := cos angle in
  let s := sin angle in
  mkVector2D (vx a * c - vy a * s) (vx a * s + vy a * c).

Definition magnitude (a : Vector2D) : R :=
  sqrt (vx a * vx a + vy a * vy a).

End Vector2D.

(** ** class GameObject

    The fields every game object has.  A subclass is a record that embeds
    this one ([ship_obj], [bul_obj], [ast_obj]). *)

Record GameObject := mkGameObject {
  position : Vector2D;
  velocity : Vector2D;
  rotation : R;
  radius : R;
  active : bool
}.

Definition set_position (p : Vector2D) (o : GameObject) : GameObject :=
  mkGameObject p (velocity o) (rotation o) (radius o) (active o).
Definition set_velocity (v : Vector2D) (o : GameObject) : GameObject :=
  mkGameObject (position o) v (rotation o) (radius o) (active o).
Definition set_rotation (r : R) (o : GameObject) : GameObject :=
  mkGameObject (position o) (velocity o) r (radius o) (active o).
Definition set_radius (r : R) (o : GameObject) : GameObject :=
  mkGameObject (position o) (velocity o) (rotation o) r (active o).
Definition set_active (b : bool) (o : GameObject) : GameObject :=
  mkGameObject (position o) (velocity o) (rotation o) (radius o) b.

Module GameObject.

(** [constructor(x, y)] *)
Definition new (x y : R) : GameObject :=
  mkGameObject (mkVector2D x y) (mkVector2D 0 0) 0 10 true.

(** [wrapPosition()]: four assignments in sequence, each test reading the
    position the previous one left. *)
Definition wrapPosition (canvas : Canvas) (o : GameObject) : GameObject :=
  let p0 := position o in
  let p1 := if Rltb (vx p0) 0 then mkVector2D (canvas_width canvas) (vy p0) else p0 in
  let p2 := if Rgtb (vx p1) (canvas_width canvas) then mkVector2D 0 (vy p1) else p1 in
  let p3 := if Rltb (vy p2) 0 then mkVector2D (vx p2) (canvas_height canvas) else p2 in
  let p4 := if Rgtb (vy p3) (canvas_height canvas) then mkVector2D (vx p3) 0 else p3 in
  set_position p4 o.

(** [update(deltaTime)] *)
Definition update (canvas : Canvas) (deltaTime : R) (o : GameObject) : GameObject :=
  wrapPosition canvas
    (set_position
       (Vector2D.add (position o) (Vector2D.multiply (velocity o) deltaTime)) o).

(** [checkCollision(other)] *)
Definition checkCollision (this other : GameObject) : bool :=
  let dx := vx (position this) - vx (position other) in
  let dy := vy (position this) - vy (position other) in
  let distance := sqrt (dx * dx + dy * dy) in
  Rltb distance (radius this + radius other).

End GameObject.

(** ** class Ship extends GameObject *)

Record Ship := mkShip {
  ship_obj : GameObject;
  thrustPower : R;
  rotationSpeed : R;
  maxSpeed : R;
  invulnerable : bool;
  invulnerableTime : R
}.

Definition set_ship_obj (o : GameObject) (s : Ship) : Ship :=
  mkShip o (thrustPower s) (rotationSpeed s) (maxSpeed s)
         (invulnerable s) (invulnerableTime s).
Definition set_invulnerable (b : bool) (s : Ship) : Ship :=
  mkShip (ship_obj s) (thrustPower s) (rotationSpeed s) (maxSpeed s)
         b (invulnerableTime s).
Definition set_invulnerableTime (t : R) (s : Ship) : Ship :=
  mkShip (ship_obj s) (thrustPower s) (rotationSpeed s) (maxSpeed s)
         (invulnerable s) t.

Module Ship.

(** [constructor(x, y)] *)
Definition new (x y : R) : Ship :=
  mkShip (set_radius 10 (GameObject.new x y)) 300 5 400 false 0.

(** [thrust(forward, deltaTime)] *)
Definition thrust (forward : bool) (deltaTime : R) (s : Ship) : Ship :=
  let o := ship_obj s in
  let direction := mkVector2D (cos (rotation o)) (sin (rotation o)) in
  let thrust :=
    Vector2D.multiply direction
      (thrustPower s * deltaTime * (if forward then 1 else -0.5)) in
  let o1 := set_velocity (Vector2D.add (velocity o) thrust) o in
  let speed := Vector2D.magnitude (velocity o1) in
  let o2 :=
    if Rgtb speed (maxSpeed s)
    then set_velocity (Vector2D.multiply (velocity o1) (maxSpeed s / speed)) o1
    else o1 in
  set_ship_obj o2 s.

(** [rotate(direction, deltaTime)] *)
Definition rotate (direction : R) (deltaTime : R) (s : Ship) : Ship :=
  let o := ship_obj s in
  set_ship_obj
    (set_rotation (rotation o + direction * rotationSpeed s * deltaTime) o) s.

(** [update(deltaTime)] *)
Definition update (canvas : Canvas) (deltaTime : R) (s : Ship) : Ship :=
  let o1 := GameObject.update canvas deltaTime (ship_obj s) in
  let o2 := set_velocity (Vector2D.multiply (velocity o1) 0.99) o1 in
  let s2 := set_ship_obj o2 s in
  if invulnerable s2 then
    let s3 := set_invulnerableTime (invulnerableTime s2 - deltaTime) s2 in
    if Rleb (invulnerableTime s3) 0 then set_invulnerable false s3 else s3
  else s2.

(** [respawn(x, y)] *)
Definition respawn (x y : R) (s : Ship) : Ship :=
  let o := ship_obj s in
  let o1 := set_position (mkVector2D x y) o in
  let o2 := set_velocity (mkVector2D 0 0) o1 in
  let o3 := set_rotation 0 o2 in
  set_invulnerableTime 3 (set_invulnerable true (set_ship_obj o3 s)).

End Ship.

(** ** class Bullet extends GameObject *)

Record Bullet := mkBullet {
  bul_obj : GameObject;
  speed : R;
  lifetime : R
}.

Module Bullet.

(** [constructor(x, y, rotation)] *)
Definition new (x y rot : R) : Bullet :=
  let o := set_radius 2 (GameObject.new x y) in
  let speed := 600 in
  let direction := mkVector2D (cos rot) (sin rot) in
  mkBullet (set_velocity (Vector2D.multiply direction speed) o) speed 1.5.

(** [update(deltaTime)] *)
Definition update (canvas : Canvas) (deltaTime : R) (b : Bullet) : Bullet :=
  let o1 := GameObject.update canvas deltaTime (bul_obj b) in
  let l := lifetime b - deltaTime in
  let o2 := if Rleb l 0 then set_active false o1 else o1 in
  mkBullet o2 (speed b) l.

End Bullet.

(** ** class Asteroid extends GameObject *)

Inductive Size := large | medium | small.

Definition Size_eqb (a b : Size) : bool :=
  match a, b with
  | large, large | medium, medium | small, small => true
  | _, _ => false
  end.

Record Asteroid := mkAsteroid {
  ast_obj : GameObject;
  size : Size;
  ast_rotationSpeed : R;
  vertices : list Vector2D
}.

Module Asteroid.

(** The vertex loop of the constructor: iterations [i], [i+1], ... for the
    [n] indices that remain below [vertexCount]. *)
Fixpoint makeVertices (n i : nat) (vertexCount : nat) (radius : R) (rng : RNG)
  : list Vector2D * RNG :=
  match n with
  | O => ([], rng)
  | S n' =>
      let angle := (INR i / INR vertexCount) * PI * 2 in
      let '(r, rng1) := Math_random rng in
      let variance := 0.8 + r * 0.4 in
      let v := mkVector2D (cos angle * radius * variance)
                          (sin angle * radius * variance) in
      let '(vs, rng2) := makeVertices n' (S i) vertexCount radius rng1 in
      (v :: vs, rng2)
  end.

(** [constructor(x, y, size)] *)
Definition new (x y : R) (sz : Size) (rng : RNG) : Asteroid * RNG :=
  let o := GameObject.new x y in
  let radius := if Size_eqb sz large then 40
                else if Size_eqb sz medium then 25 else 15 in
  let o := set_radius radius o in
  let '(r1, rng) := Math_random rng in
  let o := set_rotation (r1 * PI * 2) o in
  let '(r2, rng) := Math_random rng in
  let rotationSpeed := (r2 - 0.5) * 2 in
  let speed := if Size_eqb sz large then 50
               else if Size_eqb sz medium then 80 else 120 in
  let '(r3, rng) := Math_random rng in
  let angle := r3 * PI * 2 in
  let o := set_velocity (mkVector2D (cos angle * speed) (sin angle * speed)) o in
  let '(r4, rng) := Math_random rng in
  let vertexCount := Z.to_nat (8 + Math_floor (r4 * 4)) in
  let '(vs, rng) := makeVertices vertexCount 0 vertexCount radius rng in
  (mkAsteroid o sz rotationSpeed vs, rng).

(** [update(deltaTime)] *)
Definition update (canvas : Canvas) (deltaTime : R) (a : Asteroid) : Asteroid :=
  let o1 := GameObject.update canvas deltaTime (ast_obj a) in
  let o2 := set_rotation (rotation o1 + ast_rotationSpeed a * deltaTime) o1 in
  mkAsteroid o2 (size a) (ast_rotationSpeed a) (vertices a).

(** The loop [for (let i = 0; i < 2; i++)] of [split], with [n] iterations
    left. *)
Fixpoint splitLoop (n : nat) (a : Asteroid) (newSize : Size) (rng : RNG)
  : list Asteroid * RNG :=
  match n with
  | O => ([], rng)
  | S n' =>
      let '(asteroid, rng1) :=
        new (vx (position (ast_obj a))) (vy (position (ast_obj a))) newSize rng in
      let '(rest, rng2) := splitLoop n' a newSize rng1 in
      (asteroid :: rest, rng2)
  end.

(** [split()] *)
Definition split (a : Asteroid) (rng : RNG) : list Asteroid * RNG :=
  if Size_eqb (size a) small then ([], rng)
  else
    let newSize := if Size_eqb (size a) large then medium else small in
    splitLoop 2 a newSize rng.

End Asteroid.

(** ** The keyboard map and the DOM elements the game writes to *)

(** [this.keys]: a missing key reads as [undefined], which is falsy. *)
Definition Keys := string -> bool.

Definition no_keys : Keys := fun _ => false.

Definition set_key (k : string) (b : bool) (ks : Keys) : Keys :=
  fun k' => if String.eqb k' k then b else ks k'.

(** [String.prototype.toLowerCase] for a string of ASCII characters, the
    characters a [string] here is made of: the letters A to Z become a to
    z and nothing else changes.  (On other characters JavaScript follows
    the Unicode case mappings, which this embedding does not have; the
    key names the game reads, w a s d r and the space, are ASCII.) *)
Definition lower_ascii (c : ascii) : ascii :=
  let n := nat_of_ascii c in
  if ((65 <=? n) && (n <=? 90))%nat then ascii_of_nat (n + 32) else c.

Fixpoint toLowerCase (s : string) : string :=
  match s with
  | EmptyString => EmptyString
  | String c s' => String (lower_ascii c) (toLowerCase s')
  end.

(** The text of [#score], [#lives], [#finalScore] and whether
    [#gameOverScreen] carries the class [hidden]. *)
Record DOM := mkDOM {
  scoreElement : Z;
  livesElement : Z;
  finalScoreElement : Z;
  gameOverScreen_hidden : bool
}.

(** ** class Game *)

Record Game := mkGame {
  ship : Ship;
  bullets : list Bullet;
  asteroids : list Asteroid;
  score : Z;
  lives : Z;
  gameOver : bool;
  canShoot : bool;
  shootCooldown : R;
  lastTime : R;
  keys : Keys;
  dom : DOM
}.

Definition with_ship (s : Ship) (g : Game) : Game :=
  mkGame s (bullets g) (asteroids g) (score g) (lives g) (gameOver g)
         (canShoot g) (shootCooldown g) (lastTime g) (keys g) (dom g).
Definition with_bullets (bs : list Bullet) (g : Game) : Game :=
  mkGame (ship g) bs (asteroids g) (score g) (lives g) (gameOver g)
         (canShoot g) (shootCooldown g) (lastTime g) (keys g) (dom g).
Definition with_asteroids (l : list Asteroid) (g : Game) : Game :=
  mkGame (ship g) (bullets g) l (score g) (lives g) (gameOver g)
         (canShoot g) (shootCooldown g) (lastTime g) (keys g) (dom g).
Definition with_score (n : Z) (g : Game) : Game :=
  mkGame (ship g) (bullets g) (asteroids g) n (lives g) (gameOver g)
         (canShoot g) (shootCooldown g) (lastTime g) (keys g) (dom g).
Definition with_lives (n : Z) (g : Game) : Game :=
  mkGame (ship g) (bullets g) (asteroids g) (score g) n (gameOver g)
         (canShoot g) (shootCooldown g) (lastTime g) (keys g) (dom g).
Definition with_gameOver (b : bool) (g : Game) : Game :=
  mkGame (ship g) (bullets g) (asteroids g) (score g) (lives g) b
         (canShoot g) (shootCooldown g) (lastTime g) (keys g) (dom g).
Definition with_canShoot (b : bool) (g : Game) : Game :=
  mkGame (ship g) (bullets g) (asteroids g) (score g) (lives g) (gameOver g)
         b (shootCooldown g) (lastTime g) (keys g) (dom g).
Definition with_shootCooldown (t : R) (g : Game) : Game :=
  mkGame (ship g) (bullets g) (asteroids g) (score g) (lives g) (gameOver g)
         (canShoot g) t (lastTime g) (keys g) (dom g).
Definition with_lastTime (t : R) (g : Game) : Game :=
  mkGame (ship g) (bullets g) (asteroids g) (score g) (lives g) (gameOver g)
         (canShoot g) (shootCooldown g) t (keys g) (dom g).
Definition with_keys (ks : Keys) (g : Game) : Game :=
  mkGame (ship g) (bullets g) (asteroids g) (score g) (lives g) (gameOver g)
         (canShoot g) (shootCooldown g) (lastTime g) ks (dom g).
Definition with_dom (d : DOM) (g : Game) : Game :=
  mkGame (ship g) (bullets g) (asteroids g) (score g) (lives g) (gameOver g)
         (canShoot g) (shootCooldown g) (lastTime g) (keys g) d.

Module Game.

Section WithCanvas.

(** [this.canvas], which is also the global [canvas]. *)
Variable canvas : Canvas.

(** [updateUI()] *)
Definition updateUI (g : Game) : Game :=
  with_dom (mkDOM (score g) (lives g) (finalScoreElement (dom g))
                  (gameOverScreen_hidden (dom g))) g.

(** [endGame()] *)
Definition endGame (g : Game) : Game :=
  let g1 := with_gameOver true g in
  with_dom (mkDOM (scoreElement (dom g1)) (livesElement (dom g1)) (score g1) false) g1.

(** The [do ... while] loop of [spawnAsteroids]: draw a point, and draw
    again while it is closer than 150 to the ship.  [fuel] bounds the number
    of draws. *)
Fixpoint pickPosition (fuel : nat) (g : Game) (rng : RNG) : option (R * R * RNG) :=
  match fuel with
  | O => None
  | S fuel' =>
      let '(r1, rng1) := Math_random rng in
      let x := r1 * canvas_width canvas in
      let '(r2, rng2) := Math_random rng1 in
      let y := r2 * canvas_height canvas in
      if Rltb (sqrt ((x - vx (position (ship_obj (ship g)))) ^ 2 +
                     (y - vy (position (ship_obj (ship g)))) ^ 2)) 150
      then pickPosition fuel' g rng2
      else Some (x, y, rng2)
  end.

(** The [for] loop of [spawnAsteroids], with [n] iterations left. *)
Fixpoint spawnLoop (fuel : nat) (n : nat) (g : Game) (rng : RNG)
  : option (Game * RNG) :=
  match n with
  | O => Some (g, rng)
  | S n' =>
      match pickPosition fuel g rng with
      | None => None
      | Some (x, y, rng1) =>
          let '(a, rng2) := Asteroid.new x y large rng1 in
          spawnLoop fuel n' (with_asteroids (asteroids g ++ [a]) g) rng2
      end
  end.

(** [spawnAsteroids(count)], for an integer [count]. *)
Definition spawnAsteroids (fuel : nat) (count : Z) (g : Game) (rng : RNG)
  : option (Game * RNG) :=
  spawnLoop fuel (Z.to_nat count) g rng.

(** [reset()] *)
Definition reset (fuel : nat) (g : Game) (rng : RNG) : option (Game * RNG) :=
  let g := with_ship (Ship.new (canvas_width canvas / 2) (canvas_height canvas / 2)) g in
  let g := with_bullets [] g in
  let g := with_asteroids [] g in
  let g := with_score 0 g in
  let g := with_lives 5 g in
  let g := with_gameOver false g in
  let g := with_canShoot true g in
  let g := with_shootCooldown 0 g in
  match spawnAsteroids fuel 5 g rng with
  | None => None
  | Some (g, rng1) =>
      let g := updateUI g in
      Some (with_dom (mkDOM (scoreElement (dom g)) (livesElement (dom g))
                            (finalScoreElement (dom g)) true) g, rng1)
  end.

(** [constructor()].  [d] is the document as loaded.  The fields that
    [reset] assigns have no value before it runs; the placeholders given to
    them here are all overwritten. *)
Definition new (fuel : nat) (d : DOM) (rng : RNG) : option (Game * RNG) :=
  match reset fuel (mkGame (Ship.new 0 0) [] [] 0 0 false false 0 0 no_keys d) rng with
  | None => None
  | Some (g, rng1) => Some (with_keys no_keys (with_lastTime 0 g), rng1)
  end.

(** [shoot()] *)
Definition shoot (g : Game) : Game :=
  let bullet :=
    Bullet.new (vx (position (ship_obj (ship g))))
               (vy (position (ship_obj (ship g))))
               (rotation (ship_obj (ship g))) in
  with_bullets (bullets g ++ [bullet]) g.

(** [handleInput(deltaTime)] *)
Definition handleInput (deltaTime : R) (g : Game) : Game :=
  if gameOver g then g else
  let g := if keys g "w"%string then with_ship (Ship.thrust true deltaTime (ship g)) g else g in
  let g := if keys g "s"%string then with_ship (Ship.thrust false deltaTime (ship g)) g else g in
  let g := if keys g "a"%string then with_ship (Ship.rotate (-1) deltaTime (ship g)) g else g in
  let g := if keys g "d"%string then with_ship (Ship.rotate 1 deltaTime (ship g)) g else g in
  let g := if keys g " "%string && canShoot g
           then with_shootCooldown 0.25 (with_canShoot false (shoot g))
           else g in
  let g := if negb (keys g " "%string) then with_canShoot true g else g in
  if Rgtb (shootCooldown g) 0 then
    let g := with_shootCooldown (shootCooldown g - deltaTime) g in
    if Rleb (shootCooldown g) 0 then with_canShoot true g else g
  else g.

(** The body of [if (bullet.checkCollision(asteroid))] in [checkCollisions]:
    the bullet at index [i] has hit [asteroid], found at index [j]. *)
Definition hitAsteroid (i j : nat) (asteroid : Asteroid) (g : Game) (rng : RNG)
  : Game * RNG :=
  let g := with_bullets (removeAt i (bullets g)) g in
  let '(newAsteroids, rng1) := Asteroid.split asteroid rng in
  let g := with_asteroids (removeAt j (asteroids g)) g in
  let g := with_asteroids (asteroids g ++ newAsteroids) g in
  let g :=
    with_score
      (score g + (if Size_eqb (size asteroid) large then 20
                  else if Size_eqb (size asteroid) medium then 50
                  else 100))%Z g in
  (updateUI g, rng1).

(** The inner loop of [checkCollisions] for the bullet at index [i]:
    [j] runs from [n - 1] down to 0 and the loop ends ([break]) at the first
    hit.  [j] stays below the length of the array, so the lookup finds an
    element (lemma [asteroidLoop_spec]). *)
Fixpoint asteroidLoop (n : nat) (i : nat) (bullet : Bullet) (g : Game) (rng : RNG)
  : Game * RNG :=
  match n with
  | O => (g, rng)
  | S j =>
      match nth_error (asteroids g) j with
      | None => (g, rng)
      | Some asteroid =>
          if GameObject.checkCollision (bul_obj bullet) (ast_obj asteroid)
          then hitAsteroid i j asteroid g rng
          else asteroidLoop j i bullet g rng
      end
  end.

(** The outer loop of [checkCollisions]: [i] runs from [n - 1] down to 0.
    A hit removes the bullet at [i] only, so [i] stays below the length of
    the array (lemma [bulletLoop_step]). *)
Fixpoint bulletLoop (n : nat) (g : Game) (rng : RNG) : Game * RNG :=
  match n with
  | O => (g, rng)
  | S i =>
      match nth_error (bullets g) i with
      | None => (g, rng)
      | Some bullet =>
          let '(g1, rng1) :=
            asteroidLoop (List.length (asteroids g)) i bullet g rng in
          bulletLoop i g1 rng1
      end
  end.

(** The body of [if (this.ship.checkCollision(asteroid))] in
    [checkCollisions]: the ship has been hit. *)
Definition loseLife (g : Game) : Game :=
  let g := with_lives (lives g - 1)%Z g in
  let g := updateUI g in
  if (lives g <=? 0)%Z then endGame g
  else with_ship (Ship.respawn (canvas_width canvas / 2)
                               (canvas_height canvas / 2) (ship g)) g.

(** The [for ... of] loop over the asteroids, ending ([break]) at the first
    one that touches the ship. *)
Fixpoint shipLoop (l : list Asteroid) (g : Game) : Game :=
  match l with
  | [] => g
  | asteroid :: rest =>
      if GameObject.checkCollision (ship_obj (ship g)) (ast_obj asteroid)
      then loseLife g
      else shipLoop rest g
  end.

(** [checkCollisions()] *)
Definition checkCollisions (g : Game) (rng : RNG) : Game * RNG :=
  let '(g1, rng1) := bulletLoop (List.length (bullets g)) g rng in
  let g2 := if negb (invulnerable (ship g1)) then shipLoop (asteroids g1) g1 else g1 in
  (g2, rng1).

(** [update(deltaTime)] up to and including the call of [checkCollisions],
    for a game that is not over. *)
Definition stepEntities (deltaTime : R) (g : Game) (rng : RNG) : Game * RNG :=
  let g := handleInput deltaTime g in
  let g := with_ship (Ship.update canvas deltaTime (ship g)) g in
  let g :=
    with_bullets
      (filter (fun bullet => active (bul_obj bullet))
              (map (Bullet.update canvas deltaTime) (bullets g))) g in
  let g := with_asteroids (map (Asteroid.update canvas deltaTime) (asteroids g)) g in
  checkCollisions g rng.

(** The argument of [spawnAsteroids] in [update].  The score is an integer,
    so [Math.floor(score / 1000)] is the integer quotient. *)
Definition waveSize (g : Game) : Z := Z.min 7 (5 + score g / 1000).

(** [update(deltaTime)] *)
Definition update (fuel : nat) (deltaTime : R) (g : Game) (rng : RNG)
  : option (Game * RNG) :=
  if gameOver g then Some (g, rng) else
  let '(g1, rng1) := stepEntities deltaTime g rng in
  if (List.length (asteroids g1) =? 0)%nat
  then spawnAsteroids fuel (waveSize g1) g1 rng1
  else Some (g1, rng1).

(** The [keydown] listener of [setupEventListeners]. *)
Definition keydown (fuel : nat) (key : string) (g : Game) (rng : RNG)
  : option (Game * RNG) :=
  let k := toLowerCase key in
  let g := with_keys (set_key k true (keys g)) g in
  if String.eqb k "r"%string && gameOver g then reset fuel g rng else Some (g, rng).

(** The [keyup] listener of [setupEventListeners]. *)
Definition keyup (key : string) (g : Game) : Game :=
  with_keys (set_key (toLowerCase key) false (keys g)) g.

(** [gameLoop(currentTime)], one animation frame. *)
Definition gameLoop (fuel : nat) (currentTime : R) (g : Game) (rng : RNG)
  : option (Game * RNG) :=
  let deltaTime := (currentTime - lastTime g) / 1000 in
  let g := with_lastTime currentTime g in
  if Rltb deltaTime 0.1 then update fuel deltaTime g rng else Some (g, rng).

End WithCanvas.

End Game.

(** The events the page delivers to the game: an animation frame with its
    time stamp, a key going down, a key going up. *)
Inductive Event :=
| Frame (currentTime : R)
| KeyDown (key : string)
| KeyUp (key : string).

Definition dispatch (canvas : Canvas) (fuel : nat) (e : Event) (g : Game) (rng : RNG)
  : option (Game * RNG) :=
  match e with
  | Frame t => Game.gameLoop canvas fuel t g rng
  | KeyDown k => Game.keydown canvas fuel k g rng
  | KeyUp k => Some (Game.keyup k g, rng)
  end.

(** ** class UIManager: the message queue *)

Record Message := mkMessage {
  text : string;
  timeLeft : R;
  msg_type : string;
  timestamp : R
}.

(** An entry of [messageHistory]: a copy of the message with its duration. *)
Record HistoryEntry := mkHistoryEntry {
  hist_message : Message;
  duration : R
}.

Record UIManager := mkUIManager {
  messages : list Message;
  messageHistory : list HistoryEntry;
  maxMessages : nat;
  messageDuration : R;
  gameState_messages : list string
}.

Module UIManager.

(** The message system part of [constructor(canvas, gameState, gameWorld)];
    [gs] is [gameState.messages] as found, if any. *)
Definition new (gs : option (list string)) : UIManager :=
  mkUIManager [] [] 3 3000
    (match gs with Some l => l | None => [] end).

(** [updateMessages(deltaTime)] *)
Definition updateMessages (deltaTime : R) (ui : UIManager) : UIManager :=
  let msgs :=
    filter (fun message => Rgtb (timeLeft message) 0)
           (map (fun message =>
                   mkMessage (text message) (timeLeft message - deltaTime)
                             (msg_type message) (timestamp message))
                (messages ui)) in
  mkUIManager msgs (messageHistory ui) (maxMessages ui) (messageDuration ui)
              (map text msgs).

(** [showMessage(text, duration, type)]; [now] is [Date.now()]. *)
Definition showMessage (now : R) (txt : string) (dur : R) (type : string)
  (ui : UIManager) : UIManager :=
  let message := mkMessage txt dur type now in
  let msgs := messages ui ++ [message] in
  let hist := messageHistory ui ++ [mkHistoryEntry message dur] in
  let msgs :=
    if (maxMessages ui <? List.length msgs)%nat then List.tl msgs else msgs in
  mkUIManager msgs hist (maxMessages ui) (messageDuration ui)
              (gameState_messages ui).

(** The message system part of [reset()]. *)
Definition reset (ui : UIManager) : UIManager :=
  mkUIManager [] [] (maxMessages ui) (messageDuration ui) [].

End UIManager.

(** The states of the message system that the program can be in. *)
Inductive ui_reachable : UIManager -> Prop :=
| ui_new gs : ui_reachable (UIManager.new gs)
| ui_updateMessages dt ui :
    ui_reachable ui -> ui_reachable (UIManager.updateMessages dt ui)
| ui_showMessage now txt dur type ui :
    ui_reachable ui -> ui_reachable (UIManager.showMessage now txt dur type ui)
| ui_reset ui :
    ui_reachable ui -> ui_reachable (UIManager.reset ui).

(** ** What the UI reads from [gameState] *)

(** [Math.ceil] of a number, as an integer. *)
Definition Math_ceil (x : R) : Z := (- Int_part (- x))%Z.

(** An asteroid as [gameState.asteroids] lists it. *)
Record GSAsteroid := mkGSAsteroid { gs_x : R; gs_y : R; gs_size : R }.

(** A click effect, as [showClickFeedback] pushes it on [gameState.effects]. *)
Record Effect := mkEffect {
  eff_x : R;
  eff_y : R;
  eff_radius : R;
  eff_alpha : R;
  eff_duration : R
}.

(** A JS array can have at most [2^32 - 1] elements. *)
Definition max_array_length : Z := 4294967295.

(** [arr[i] = f(arr[i])] for an index inside the array; an index outside
    leaves the list as it is. *)
Fixpoint update_nth {A : Type} (i : nat) (f : A -> A) (l : list A) : list A :=
  match l, i with
  | [], _ => []
  | x :: l', O => f x :: l'
  | x :: l', S i' => x :: update_nth i' f l'
  end.

(** ** class Minimap: the coordinate conversions *)

Record Minimap := mkMinimap {
  mm_size : R;
  mm_margin : R;
  mm_x : R;
  mm_y : R;
  scaleX : R;
  scaleY : R
}.

(** The object [{ x, y }] the conversions return. *)
Record Point := mkPoint { px : R; py : R }.

Module Minimap.

(** The geometry part of [constructor(canvas, gameState, gameWorld)];
    [worldWidth] and [worldHeight] are [gameWorld.width] and
    [gameWorld.height]. *)
Definition new (canvas : Canvas) (worldWidth worldHeight : R) : Minimap :=
  let size := 200 in
  let margin := 20 in
  mkMinimap size margin
            (canvas_width canvas - size - margin)
            (canvas_height canvas - size - margin)
            (size / worldWidth) (size / worldHeight).

(** [worldToMinimap(worldX, worldY)] *)
Definition worldToMinimap (m : Minimap) (worldX worldY : R) : Point :=
  mkPoint (mm_x m + worldX * scaleX m) (mm_y m + worldY * scaleY m).

(** [minimapToWorld(minimapX, minimapY)] *)
Definition minimapToWorld (m : Minimap) (minimapX minimapY : R) : Point :=
  mkPoint ((minimapX - mm_x m) / scaleX m) ((minimapY - mm_y m) / scaleY m).

(** [updatePosition(canvasWidth, canvasHeight)] *)
Definition updatePosition (canvasWidth canvasHeight : R) (m : Minimap) : Minimap :=
  mkMinimap (mm_size m) (mm_margin m)
            (canvasWidth - mm_size m - mm_margin m)
            (canvasHeight - mm_size m - mm_margin m)
            (scaleX m) (scaleY m).

(** [isPointInMinimap(x, y)] *)
Definition isPointInMinimap (m : Minimap) (x y : R) : bool :=
  Rleb (mm_x m) x && Rleb x (mm_x m + mm_size m) &&
  Rleb (mm_y m) y && Rleb y (mm_y m + mm_size m).

(** [showClickFeedback(x, y)]; [effects] is [gameState.effects], if the
    game state has one. *)
Definition showClickFeedback (x y : R) (effects : option (list Effect))
  : option (list Effect) :=
  let effect := mkEffect x y 5 1 500 in
  match effects with
  | Some l => Some (l ++ [effect])
  | None => None
  end.

(** [handleMinimapClick(mouseX, mouseY)]: the world coordinates are computed
    and not used. *)
Definition handleMinimapClick (m : Minimap) (mouseX mouseY : R)
  (effects : option (list Effect)) : option (list Effect) :=
  let worldX := (mouseX - mm_x m) / scaleX m in
  let worldY := (mouseY - mm_y m) / scaleY m in
  showClickFeedback mouseX mouseY effects.

(** The [click] listener of [setupEventListeners]; [rectLeft] and [rectTop]
    come from [getBoundingClientRect()]. *)
Definition onClick (m : Minimap) (clickable : bool)
  (clientX clientY rectLeft rectTop : R) (effects : option (list Effect))
  : option (list Effect) :=
  if negb clickable then effects else
  let mouseX := clientX - rectLeft in
  let mouseY := clientY - rectTop in
  if isPointInMinimap m mouseX mouseY
  then handleMinimapClick m mouseX mouseY effects
  else effects.

(** The [mousemove] listener of [setupEventListeners]: the new [isHovered]. *)
Definition onMouseMove (m : Minimap) (clientX clientY rectLeft rectTop : R) : bool :=
  isPointInMinimap m (clientX - rectLeft) (clientY - rectTop).

(** [Array(n)]: a [RangeError] ([None]) unless [0 <= n <= 2^32 - 1]. *)
Definition Array_of_length (n : Z) : option nat :=
  if ((0 <=? n) && (n <=? max_array_length))%Z then Some (Z.to_nat n) else None.

(** [initializeDensityGrid()]: [gridHeight] rows of [gridWidth] zeros.  The
    inner [Array(gridWidth)] runs once per row, so not at all when there is
    no row. *)
Definition initializeDensityGrid (worldWidth worldHeight densityGridSize : R)
  : option (list (list Z)) :=
  let gridWidth := Math_ceil (worldWidth / densityGridSize) in
  let gridHeight := Math_ceil (worldHeight / densityGridSize) in
  match Array_of_length gridHeight with
  | None => None
  | Some O => Some []
  | Some rows =>
      match Array_of_length gridWidth with
      | None => None
      | Some cols => Some (repeat (repeat 0%Z cols) rows)
      end
  end.

(** The body of the [forEach] over the asteroids in [updateDensityGrid].
    [this.densityGrid[0].length] is read only when [gridX >= 0] holds, and
    is a [TypeError] ([None]) on a grid without rows.  The rows of a grid
    all have the length of the first (lemma [grid_stays_rectangular]), so
    the cell that is incremented exists. *)
Definition countAsteroid (densityGridSize : R) (grid : list (list Z))
  (asteroid : GSAsteroid) : option (list (list Z)) :=
  let gridX := Math_floor (gs_x asteroid / densityGridSize) in
  let gridY := Math_floor (gs_y asteroid / densityGridSize) in
  if (0 <=? gridX)%Z then
    match grid with
    | [] => None
    | row0 :: _ =>
        if ((gridX <? Z.of_nat (List.length row0)) && (0 <=? gridY) &&
            (gridY <? Z.of_nat (List.length grid)))%Z
        then Some (update_nth (Z.to_nat gridY)
                              (update_nth (Z.to_nat gridX) Z.succ) grid)
        else Some grid
    end
  else Some grid.

Fixpoint countAsteroids (densityGridSize : R) (grid : list (list Z))
  (asteroids : list GSAsteroid) : option (list (list Z)) :=
  match asteroids with
  | [] => Some grid
  | asteroid :: rest =>
      match countAsteroid densityGridSize grid asteroid with
      | None => None
      | Some grid' => countAsteroids densityGridSize grid' rest
      end
  end.

(** [updateDensityGrid()] *)
Definition updateDensityGrid (densityGridSize : R) (grid : list (list Z))
  (asteroids : list GSAsteroid) : option (list (list Z)) :=
  countAsteroids densityGridSize (map (map (fun _ => 0%Z)) grid) asteroids.

End Minimap.

(** ** The states a ship can be in *)


(** ** class UIManager: the queries *)

(** An entry of [getUIBounds()]. *)
Record UIBound := mkUIBound {
  bound_name : string;
  bound_x : R;
  bound_y : R;
  bound_width : R;
  bound_height : R
}.

(** [x || 0] for a number that may be missing. *)
Definition or_zero (x : option R) : R :=
  match x with
  | Some v => v
  | None => 0
  end.

Module UIManagerQueries.

(** [calculateAccuracy()]; the arguments are [gameState.shotsFired] and
    [gameState.shotsHit], if the game state has them. *)
Definition calculateAccuracy (gs_shotsFired gs_shotsHit : option R) : R :=
  let shotsFired := or_zero gs_shotsFired in
  let shotsHit := or_zero gs_shotsHit in
  if Req_dec_T shotsFired 0 then 0 else (shotsHit / shotsFired) * 100.

(** [getUIBounds()] *)
Definition getUIBounds (minimap : Minimap) : list UIBound :=
  [ mkUIBound "minimap" (mm_x minimap) (mm_y minimap)
              (mm_size minimap) (mm_size minimap);
    mkUIBound "hud" 0 0 250 140 ].

(** The [for ... of] loop of [getUIElementAtPoint]. *)
Fixpoint firstBoundAt (bounds : list UIBound) (x y : R) : option UIBound :=
  match bounds with
  | [] => None
  | bound :: rest =>
      if Rleb (bound_x bound) x && Rleb x (bound_x bound + bound_width bound) &&
         Rleb (bound_y bound) y && Rleb y (bound_y bound + bound_height bound)
      then Some bound
      else firstBoundAt rest x y
  end.

(** [getUIElementAtPoint(x, y)]; [None] is [null]. *)
Definition getUIElementAtPoint (minimap : Minimap) (x y : R) : option UIBound :=
  firstBoundAt (getUIBounds minimap) x y.

End UIManagerQueries.

(** ** class GameOverScreen: the time display *)


(** The animation state of the screen: [isVisible], [showTime],
    [fadeInDuration], and whether [boundKeyHandler] is at present a
    [keydown] listener of the document. *)
Record GameOverScreen := mkGameOverScreen {
  isVisible : bool;
  showTime : R;
  fadeInDuration : R;
  keydown_listening : bool
}.

Module GameOverScreen.

(** The animation part of [constructor(canvas, gameState)];
    [setupEventListeners()] binds the handler and registers nothing. *)
Definition new : GameOverScreen := mkGameOverScreen false 0 1000 false.

(** The animation part of [show(finalStats)]. *)
Definition show (s : GameOverScreen) : GameOverScreen :=
  mkGameOverScreen true 0 (fadeInDuration s) true.

(** [hide()] *)
Definition hide (s : GameOverScreen) : GameOverScreen :=
  mkGameOverScreen false (showTime s) (fadeInDuration s) false.

(** [restart()]; the second component tells that [gameState.restart()] is
    called, if the game state has it. *)
Definition restart (s : GameOverScreen) : GameOverScreen * bool :=
  (hide s, true).

(** [handleKeyPress(event)], with [restartKey = 'r']. *)
Definition handleKeyPress (key : string) (s : GameOverScreen)
  : GameOverScreen * bool :=
  if String.eqb (toLowerCase key) "r" && isVisible s
  then restart s
  else (s, false).

(** [update(deltaTime)] *)
Definition update (deltaTime : R) (s : GameOverScreen) : GameOverScreen :=
  if isVisible s
  then mkGameOverScreen (isVisible s) (showTime s + deltaTime)
                        (fadeInDuration s) (keydown_listening s)
  else s.

(** [fadeAlpha] of [render()]. *)
Definition fadeAlpha (s : GameOverScreen) : R :=
  Rmin 1 (showTime s / fadeInDuration s).

(** A [keydown] event of the document: it reaches [handleKeyPress] through
    [boundKeyHandler] while that is registered. *)
Definition document_keydown (key : string) (s : GameOverScreen)
  : GameOverScreen * bool :=
  if keydown_listening s then handleKeyPress key s else (s, false).


End GameOverScreen.

(** The states of the screen that the program can be in; [deltaTime] is
    the time since the last frame and not negative. *)
Inductive screen_reachable : GameOverScreen -> Prop :=
| screen_new : screen_reachable GameOverScreen.new
| screen_show s :
    screen_reachable s -> screen_reachable (GameOverScreen.show s)
| screen_hide s :
    screen_reachable s -> screen_reachable (GameOverScreen.hide s)
| screen_update deltaTime s :
    0 <= deltaTime ->
    screen_reachable s -> screen_reachable (GameOverScreen.update deltaTime s)
| screen_keydown key s :
    screen_reachable s ->
    screen_reachable (fst (GameOverScreen.document_keydown key s)).

(** ** class HUD: the nearest asteroids *)

(** An element of the result of [findNearestAsteroids]: the asteroid with
    its distance to the player. *)
Record Ranked := mkRanked { ranked_asteroid : GSAsteroid; ranked_distance : R }.

Module HUD.

(** Where the comparison function [(a, b) => a.distance - b.distance] puts
    [x] in a list that is already in order: before the first element that
    is not nearer. *)
Fixpoint insert (x : Ranked) (l : list Ranked) : list Ranked :=
  match l with
  | [] => [x]
  | y :: l' =>
      if Rleb (ranked_distance x) (ranked_distance y)
      then x :: y :: l'
      else y :: insert x l'
  end.

(** [Array.prototype.sort] with that comparison function.  The sort of
    JavaScript is stable, which fixes its result; this insertion sort
    computes it. *)
Fixpoint sort (l : list Ranked) : list Ranked :=
  match l with
  | [] => []
  | x :: l' => insert x (sort l')
  end.

(** [findNearestAsteroids(count)], for a whole number [count >= 0];
    [player] is [gameState.player], if there is one. *)
Definition findNearestAsteroids (player : option Point)
  (asteroids : list GSAsteroid) (count : nat) : list Ranked :=
  match player with
  | None => []
  | Some p =>
      firstn count
        (sort
           (map (fun asteroid =>
                   mkRanked asteroid
                     (sqrt ((gs_x asteroid - px p) ^ 2 + (gs_y asteroid - py p) ^ 2)))
                asteroids))
  end.

End HUD.

(** ** The arithmetic of the code: binary64

    The embedding above computes with real numbers.  The numbers of
    JavaScript are binary64 floating-point numbers and every operation
    rounds its result.  This module repeats, with the operations of
    binary64, the functions whose results the properties below compare
    with exact values: the vector operations, the constructor and [thrust]
    of the ship, and the coordinate conversions of the minimap.
    [Math.sqrt] is the correctly rounded square root.  [Math.cos] and
    [Math.sin] are approximations that ECMAScript leaves to the
    implementation, except at zero, where it fixes [Math.cos] to 1 and
    [Math.sin] to its argument; they are modelled at zero only, and
    [thrust] has no result ([None]) for a ship turned to another angle. *)

Module Binary64.

Import PrimFloat.
Local Open Scope float_scope.

Definition Math_cos (x : float) : option float :=
  if x =? 0 then Some 1 else None.

Definition Math_sin (x : float) : option float :=
  if x =? 0 then Some x else None.

Record Vector2D := mkVector2D { vx : float; vy : float }.

Module Vector2D.

Definition add (a v : Vector2D) : Vector2D :=
  mkVector2D (vx a + vx v) (vy a + vy v).

Definition multiply (a : Vector2D) (scalar : float) : Vector2D :=
  mkVector2D (vx a * scalar) (vy a * scalar).

Definition magnitude (a : Vector2D) : float :=
  sqrt (vx a * vx a + vy a * vy a).

End Vector2D.

Record GameObject := mkGameObject {
  position : Vector2D;
  velocity : Vector2D;
  rotation : float;
  radius : float;
  active : bool
}.

Definition set_velocity (v : Vector2D) (o : GameObject) : GameObject :=
  mkGameObject (position o) v (rotation o) (radius o) (active o).
Definition set_radius (r : float) (o : GameObject) : GameObject :=
  mkGameObject (position o) (velocity o) (rotation o) r (active o).

Module GameObject.

(** [constructor(x, y)] *)
Definition new (x y : float) : GameObject :=
  mkGameObject (mkVector2D x y) (mkVector2D 0 0) 0 10 true.

End GameObject.

Record Ship := mkShip {
  ship_obj : GameObject;
  thrustPower : float;
  rotationSpeed : float;
  maxSpeed : float;
  invulnerable : bool;
  invulnerableTime : float
}.

Definition set_ship_obj (o : GameObject) (s : Ship) : Ship :=
  mkShip o (thrustPower s) (rotationSpeed s) (maxSpeed s)
         (invulnerable s) (invulnerableTime s).

Module Ship.

(** [constructor(x, y)] *)
Definition new (x y : float) : Ship :=
  mkShip (set_radius 10 (GameObject.new x y)) 300 5 400 false 0.

(** [thrust(forward, deltaTime)] *)
Definition thrust (forward : bool) (deltaTime : float) (s : Ship) : option Ship :=
  let o := ship_obj s in
  match Math_cos (rotation o), Math_sin (rotation o) with
  | Some c, Some sn =>
      let direction := mkVector2D c sn in
      let thrust :=
        Vector2D.multiply direction
          (thrustPower s * deltaTime * (if forward then 1 else -0.5)) in
      let o1 := set_velocity (Vector2D.add (velocity o) thrust) o in
      let speed := Vector2D.magnitude (velocity o1) in
      let o2 :=
        if maxSpeed s <? speed
        then set_velocity (Vector2D.multiply (velocity o1) (maxSpeed s / speed)) o1
        else o1 in
      Some (set_ship_obj o2 s)
  | _, _ => None
  end.

End Ship.

Record Minimap := mkMinimap {
  mm_x : float;
  mm_y : float;
  mm_size : float;
  mm_margin : float;
  scaleX : float;
  scaleY : float
}.

Record Point := mkPoint { px : float; py : float }.

Module Minimap.

(** The geometry part of [constructor(canvas, gameState, gameWorld)], for
    a canvas of [canvasWidth] by [canvasHeight]. *)
Definition new (canvasWidth canvasHeight worldWidth worldHeight : float)
  : Minimap :=
  let size := 200 in
  let margin := 20 in
  mkMinimap (canvasWidth - size - margin) (canvasHeight - size - margin)
            size margin (size / worldWidth) (size / worldHeight).

(** [worldToMinimap(worldX, worldY)] *)
Definition worldToMinimap (m : Minimap) (worldX worldY : float) : Point :=
  mkPoint (mm_x m + worldX * scaleX m) (mm_y m + worldY * scaleY m).

(** [minimapToWorld(minimapX, minimapY)] *)
Definition minimapToWorld (m : Minimap) (minimapX minimapY : float) : Point :=
  mkPoint ((minimapX - mm_x m) / scaleX m) ((minimapY - mm_y m) / scaleY m).

End Minimap.

End Binary64.

(** ** Vocabulary of the properties *)

(** The position of an object lies in the closed rectangle of the canvas. *)
Definition in_field (c : Canvas) (o : GameObject) : Prop :=
  0 <= vx (position o) <= canvas_width c /\
  0 <= vy (position o) <= canvas_height c.

(** The next smaller size. *)
Definition smaller (sz : Size) : Size :=
  match sz with
  | large => medium
  | _ => small
  end.

(** [Math.random()] returning 0 at every call, and a canvas of 800 by 600. *)
Definition zero_rng : RNG := fun _ => 0.

Definition canvas800 : Canvas := mkCanvas 800 600.

(** An asteroid of size [sz] as the constructor makes it at the origin. *)
Definition one_hit_rock (sz : Size) : Asteroid :=
  fst (Asteroid.new 0 0 sz zero_rng).

(** A game with one bullet and one asteroid of size [sz], both at the
    origin, and the ship out of play (invulnerable). *)
Definition one_hit_game (sz : Size) : Game :=
  mkGame (Ship.respawn 400 300 (Ship.new 400 300))
         [Bullet.new 0 0 0] [one_hit_rock sz] 0 5 false true 0 0 no_keys
         (mkDOM 0 5 0 true).

(** The change of the number of asteroids when one of size [sz] is
    destroyed. *)
Definition count_change (sz : Size) : Z :=
  match sz with
  | small => -1
  | _ => 1
  end.

Fixpoint sum_changes (l : list Size) : Z :=
  match l with
  | [] => 0
  | sz :: l' => count_change sz + sum_changes l'
  end.

(** The outcome of the inner loop of [checkCollisions] for the bullet [b]
    at index [i], run from the state [g].  If no asteroid touches the
    bullet, nothing changes.  Otherwise exactly one asteroid [a] is
    destroyed: the one of highest index [j] among those that touch the
    bullet, since the loop runs from the end of the array and stops at the
    first hit.  In that case the bullet is removed, the asteroid is
    replaced by the result of its [split()], and the number of asteroids
    goes up by one (large, medium: two fragments) or down by one (small: no
    fragment). *)
Definition bullet_outcome (i : nat) (b : Bullet) (g : Game) (rng : RNG) : Prop :=
  let r := Game.asteroidLoop (List.length (asteroids g)) i b g rng in
  ((forall a, In a (asteroids g) ->
              GameObject.checkCollision (bul_obj b) (ast_obj a) = false) /\
   r = (g, rng)) \/
  exists j a,
    nth_error (asteroids g) j = Some a /\
    GameObject.checkCollision (bul_obj b) (ast_obj a) = true /\
    (forall j' a', (j < j')%nat -> nth_error (asteroids g) j' = Some a' ->
                   GameObject.checkCollision (bul_obj b) (ast_obj a') = false) /\
    bullets (fst r) = removeAt i (bullets g) /\
    (List.length (bullets (fst r)) + 1 = List.length (bullets g))%nat /\
    asteroids (fst r) = removeAt j (asteroids g) ++ fst (Asteroid.split a rng) /\
    match size a with
    | small =>
        fst (Asteroid.split a rng) = [] /\
        (List.length (asteroids (fst r)) + 1 = List.length (asteroids g))%nat
    | _ =>
        List.length (fst (Asteroid.split a rng)) = 2%nat /\
        (List.length (asteroids (fst r)) = List.length (asteroids g) + 1)%nat
    end.

(** No bullet of the game touches an asteroid of the game. *)
Definition no_bullet_touches (g : Game) : Prop :=
  forall b a, In b (bullets g) -> In a (asteroids g) ->
              GameObject.checkCollision (bul_obj b) (ast_obj a) = false.

(** A bullet with a hundredth of a second left to fly. *)
Definition spent_bullet : Bullet :=
  mkBullet (bul_obj (Bullet.new 400 300 0)) 600 0.01.

(** A game in play with an empty field and two bullets in flight: one just
    fired and one nearly spent. *)
Definition two_bullet_game : Game :=
  mkGame (Ship.new 400 300) [Bullet.new 400 300 0; spent_bullet] [] 0 5
         false true 0 0 no_keys (mkDOM 0 5 0 true).

(** The name is made of ASCII characters (codes below 128), where
    [toLowerCase] above is the [toLowerCase] of JavaScript. *)
Definition ascii_name (s : string) : Prop :=
  Forall (fun ch => (nat_of_ascii ch < 128)%nat) (list_ascii_of_string s).

(** The message [m] with [deltaTime] taken off its remaining time. *)
Definition countdown (deltaTime : R) (m : Message) : Message :=
  mkMessage (text m) (timeLeft m - deltaTime) (msg_type m) (timestamp m).

(** A message system with a full queue: three messages shown at times 0, 1
    and 2, the second for one second and the others for three. *)
Definition full_queue : UIManager :=
  UIManager.showMessage 2 "c" 3000 "info"
    (UIManager.showMessage 1 "b" 1000 "info"
       (UIManager.showMessage 0 "a" 3000 "info" (UIManager.new None))).

(** A large asteroid as the constructor makes it in the middle of the
    canvas. *)
Definition crash_rock : Asteroid := fst (Asteroid.new 400 300 large zero_rng).

(** A game with no bullet, five lives, and one large asteroid sitting on a
    ship that is not invulnerable. *)
Definition crash_game : Game :=
  mkGame (Ship.new 400 300) [] [crash_rock] 0 5 false true 0 0 no_keys
         (mkDOM 0 5 0 true).

(** The simulation state of a game: every field but the keyboard map, the
    time stamp of the last frame and the DOM mirror. *)
Definition sim_state (g : Game) :=
  (ship g, bullets g, asteroids g, score g, lives g, gameOver g,
   canShoot g, shootCooldown g).



(** A minimap for a canvas of 800 by 600 showing a world of the same size. *)
Definition minimap800 : Minimap := Minimap.new canvas800 800 600.

(** The Euclidean distance of two points. *)
Definition distance (p q : Vector2D) : R :=
  sqrt ((vx p - vx q) ^ 2 + (vy p - vy q) ^ 2).

(** The point that calls [n] and [n + 1] of [Math.random()] give in
    [spawnAsteroids] is at distance at least 150 from [p]. *)
Definition far_draw (c : Canvas) (p : Vector2D) (rng : RNG) (n : nat) : Prop :=
  150 <= distance (mkVector2D (rng n * canvas_width c) (rng (S n) * canvas_height c)) p.

(** From every call on, [Math.random()] comes up with a point far from [p]
    after finitely many attempts.  This is what makes the rejection loop of
    [spawnAsteroids] end. *)
Definition fair (c : Canvas) (p : Vector2D) (rng : RNG) : Prop :=
  forall n, exists k, far_draw c p rng (n + 2 * k).

(** [rng'] is [rng] after some number of calls. *)
Definition suffix_of (rng' rng : RNG) : Prop :=
  exists m, forall n, rng' n = rng (m + n)%nat.

(** A newly spawned asteroid: large, and at distance at least 150 from the
    ship [s]. *)
Definition spawned_far_from (s : Ship) (a : Asteroid) : Prop :=
  size a = large /\
  150 <= distance (position (ast_obj a)) (position (ship_obj s)).

(** A game in play with a ship at rest in the middle and an empty field. *)
Definition empty_game : Game :=
  mkGame (Ship.new 400 300) [] [] 0 5 false true 0 0 no_keys (mkDOM 0 5 0 true).

(** The fields that [handleInput] never writes. *)
Definition handleInput_untouched (g : Game) :=
  (asteroids g, score g, lives g, gameOver g, lastTime g, keys g, dom g).

(** ** Vocabulary of the further properties *)

(** The sum of a list of numbers, here of the [deltaTime]s of a run of
    frames. *)
Definition Rsum (l : list R) : R := fold_right Rplus 0 l.

(** [update] called once for each [deltaTime] of [dts], in order. *)
Definition Ship_updates (c : Canvas) (dts : list R) (s : Ship) : Ship :=
  fold_left (fun s dt => Ship.update c dt s) dts s.

Definition Bullet_updates (c : Canvas) (dts : list R) (b : Bullet) : Bullet :=
  fold_left (fun b dt => Bullet.update c dt b) dts b.

(** [Math.random()] returns numbers from 0 (included) to 1 (excluded). *)
Definition unit_range (rng : RNG) : Prop := forall n, 0 <= rng n < 1.

(** The two halves of [handleInput] for a game in play: the four steering
    keys, and then the space bar with the shooting cooldown
    (lemma [handleInput_stages]). *)
Definition steer_stage (deltaTime : R) (g : Game) : Game :=
  let g := if keys g "w"%string then with_ship (Ship.thrust true deltaTime (ship g)) g else g in
  let g := if keys g "s"%string then with_ship (Ship.thrust false deltaTime (ship g)) g else g in
  let g := if keys g "a"%string then with_ship (Ship.rotate (-1) deltaTime (ship g)) g else g in
  if keys g "d"%string then with_ship (Ship.rotate 1 deltaTime (ship g)) g else g.

Definition fire_stage (deltaTime : R) (g : Game) : Game :=
  let g := if keys g " "%string && canShoot g
           then with_shootCooldown 0.25 (with_canShoot false (Game.shoot g))
           else g in
  let g := if negb (keys g " "%string) then with_canShoot true g else g in
  if Rgtb (shootCooldown g) 0 then
    let g := with_shootCooldown (shootCooldown g - deltaTime) g in
    if Rleb (shootCooldown g) 0 then with_canShoot true g else g
  else g.

(** The page shows the state of the game: the score and the lives as they
    are, the game-over screen hidden exactly while the game is in play, and
    on it, once the game is over, the score. *)
Definition dom_mirrors (g : Game) : Prop :=
  scoreElement (dom g) = score g /\
  livesElement (dom g) = lives g /\
  gameOverScreen_hidden (dom g) = negb (gameOver g) /\
  (gameOver g = true -> finalScoreElement (dom g) = score g).

(** The cell of a density grid in row [gy] and column [gx]. *)
Definition grid_cell (grid : list (list Z)) (gy gx : nat) : Z :=
  nth gx (nth gy grid []) 0%Z.

(** Every row of the grid has [cols] cells. *)
Definition rectangular (cols : nat) (grid : list (list Z)) : Prop :=
  Forall (fun row => List.length row = cols) grid.

(** The asteroid lies in the cell of row [gy] and column [gx], for cells of
    side [size]. *)
Definition in_cell (size : R) (gy gx : nat) (a : GSAsteroid) : bool :=
  ((Math_floor (gs_x a / size) =? Z.of_nat gx) &&
   (Math_floor (gs_y a / size) =? Z.of_nat gy))%Z.

(** What tells one message from another: its text, its type and the time
    it was shown.  [timeLeft] is left out, it changes while the message is
    on the queue. *)
Definition message_id (m : Message) : string * string * R :=
  (text m, msg_type m, timestamp m).

(** [l1] is [l2] with some elements left out, the others in their order. *)
Inductive subsequence {A : Type} : list A -> list A -> Prop :=
| subsequence_nil : subsequence [] []
| subsequence_skip x l1 l2 : subsequence l1 l2 -> subsequence l1 (x :: l2)
| subsequence_keep x l1 l2 : subsequence l1 l2 -> subsequence (x :: l1) (x :: l2).

(** [a] is not farther from the player than [b]. *)
Definition nearer (a b : Ranked) : Prop :=
  ranked_distance a <= ranked_distance b.

(** The asteroid with its distance to the point [p]. *)
Definition ranked_from (p : Point) (asteroid : GSAsteroid) : Ranked :=
  mkRanked asteroid
    (sqrt ((gs_x asteroid - px p) ^ 2 + (gs_y asteroid - py p) ^ 2)).

(** * Part II: properties *)

(** ** Comparisons *)

Lemma Rltb_true_iff (a b : R) : Rltb a b = true <-> a < b.
Proof. unfold Rltb; destruct (Rlt_dec a b); split; intros; auto; discriminate. Qed.

Lemma Rltb_false_iff (a b : R) : Rltb a b = false <-> b <= a.
Proof.
  unfold Rltb; destruct (Rlt_dec a b); split; intros; auto; try discriminate; lra.
Qed.

Lemma Rleb_true_iff (a b : R) : Rleb a b = true <-> a <= b.
Proof. unfold Rleb; destruct (Rle_dec a b); split; intros; auto; discriminate. Qed.

Lemma Rleb_false_iff (a b : R) : Rleb a b = false <-> b < a.
Proof.
  unfold Rleb; destruct (Rle_dec a b); split; intros; auto; try discriminate; lra.
Qed.

Lemma canvas_width_nonneg (c : Canvas) : 0 <= canvas_width c.
Proof. unfold canvas_width. apply IZR_le. lia. Qed.

Lemma canvas_height_nonneg (c : Canvas) : 0 <= canvas_height c.
Proof. unfold canvas_height. apply IZR_le. lia. Qed.

(** ** Screen wrap *)

Lemma wrapPosition_in_field (c : Canvas) (o : GameObject) :
  in_field c (GameObject.wrapPosition c o).
Proof.
  pose proof (canvas_width_nonneg c) as Hw.
  pose proof (canvas_height_nonneg c) as Hh.
  unfold in_field, GameObject.wrapPosition, Rgtb, Rltb; simpl.
  destruct (Rlt_dec (vx (position o)) 0); simpl;
    (destruct (Rlt_dec (canvas_width c) _); simpl);
    (destruct (Rlt_dec (vy (position o)) 0); simpl);
    (destruct (Rlt_dec (canvas_height c) _); simpl); lra.
Qed.

Lemma GameObject_update_in_field (c : Canvas) (dt : R) (o : GameObject) :
  in_field c (GameObject.update c dt o).
Proof. unfold GameObject.update. apply wrapPosition_in_field. Qed.

Lemma Ship_update_position (c : Canvas) (dt : R) (s : Ship) :
  position (ship_obj (Ship.update c dt s)) =
  position (GameObject.update c dt (ship_obj s)).
Proof.
  unfold Ship.update; simpl.
  destruct (invulnerable s); simpl; [|reflexivity].
  destruct (Rleb _ 0); reflexivity.
Qed.

Lemma Bullet_update_position (c : Canvas) (dt : R) (b : Bullet) :
  position (bul_obj (Bullet.update c dt b)) =
  position (GameObject.update c dt (bul_obj b)).
Proof. unfold Bullet.update; simpl. destruct (Rleb _ 0); reflexivity. Qed.

Lemma Asteroid_update_position (c : Canvas) (dt : R) (a : Asteroid) :
  position (ast_obj (Asteroid.update c dt a)) =
  position (GameObject.update c dt (ast_obj a)).
Proof. reflexivity. Qed.

(** C5.  Whatever the position and the velocity of a game object,
    [wrapPosition] leaves its position inside the field,
    [0 <= x <= canvas.width] and [0 <= y <= canvas.height]; so does
    [GameObject.update], and so do the [update] methods of Ship, Bullet and
    Asteroid, which all go through it. *)
Theorem wrapPosition_keeps_objects_in_field (c : Canvas) :
  (forall o, in_field c (GameObject.wrapPosition c o)) /\
  (forall dt o, in_field c (GameObject.update c dt o)) /\
  (forall dt s, in_field c (ship_obj (Ship.update c dt s))) /\
  (forall dt b, in_field c (bul_obj (Bullet.update c dt b))) /\
  (forall dt a, in_field c (ast_obj (Asteroid.update c dt a))).
Proof.
  repeat split; intros.
  all: try apply wrapPosition_in_field.
  all: try apply GameObject_update_in_field.
  all: unfold in_field.
  all: first [ rewrite Ship_update_position
             | rewrite Bullet_update_position
             | rewrite Asteroid_update_position ].
  all: apply GameObject_update_in_field.
Qed.

(** ** Asteroids *)

Lemma Asteroid_new_size (x y : R) (sz : Size) (rng : RNG) :
  size (fst (Asteroid.new x y sz rng)) = sz.
Proof.
  unfold Asteroid.new; simpl.
  destruct (Asteroid.makeVertices _ _ _ _ _); reflexivity.
Qed.

Lemma Asteroid_new_position (x y : R) (sz : Size) (rng : RNG) :
  position (ast_obj (fst (Asteroid.new x y sz rng))) = mkVector2D x y.
Proof.
  unfold Asteroid.new; simpl.
  destruct (Asteroid.makeVertices _ _ _ _ _); reflexivity.
Qed.

Lemma Asteroid_new_radius (x y : R) (sz : Size) (rng : RNG) :
  radius (ast_obj (fst (Asteroid.new x y sz rng))) =
  match sz with large => 40 | medium => 25 | small => 15 end.
Proof.
  unfold Asteroid.new; simpl.
  destruct (Asteroid.makeVertices _ _ _ _ _); destruct sz; reflexivity.
Qed.

Lemma splitLoop_two (a : Asteroid) (sz : Size) (rng : RNG) :
  exists a1 a2,
    fst (Asteroid.splitLoop 2 a sz rng) = [a1; a2] /\
    size a1 = sz /\ size a2 = sz /\
    position (ast_obj a1) = position (ast_obj a) /\
    position (ast_obj a2) = position (ast_obj a).
Proof.
  simpl.
  pose proof (Asteroid_new_size (vx (position (ast_obj a)))
                (vy (position (ast_obj a))) sz rng) as Hs1.
  pose proof (Asteroid_new_position (vx (position (ast_obj a)))
                (vy (position (ast_obj a))) sz rng) as Hp1.
  destruct (Asteroid.new _ _ sz rng) as [a1 rng1]; simpl in *.
  pose proof (Asteroid_new_size (vx (position (ast_obj a)))
                (vy (position (ast_obj a))) sz rng1) as Hs2.
  pose proof (Asteroid_new_position (vx (position (ast_obj a)))
                (vy (position (ast_obj a))) sz rng1) as Hp2.
  destruct (Asteroid.new _ _ sz rng1) as [a2 rng2]; simpl in *.
  exists a1, a2.
  destruct (position (ast_obj a)); simpl in *. auto.
Qed.

(** C2.  [split()] of a small asteroid is the empty list; [split()] of a
    large or a medium asteroid is a list of exactly two asteroids, both of
    the next smaller size (medium for large, small for medium) and both at
    the position of the parent. *)
Theorem split_two_smaller_or_none (a : Asteroid) (rng : RNG) :
  match size a with
  | small => fst (Asteroid.split a rng) = []
  | sz =>
      exists a1 a2,
        fst (Asteroid.split a rng) = [a1; a2] /\
        size a1 = smaller sz /\ size a2 = smaller sz /\
        position (ast_obj a1) = position (ast_obj a) /\
        position (ast_obj a2) = position (ast_obj a)
  end.
Proof.
  unfold Asteroid.split.
  destruct (size a); simpl; try reflexivity; apply splitLoop_two.
Qed.

(** ** Collisions *)

Lemma removeAt_length {A : Type} (i : nat) (l : list A) (x : A) :
  nth_error l i = Some x -> (List.length (removeAt i l) + 1 = List.length l)%nat.
Proof.
  intros H. unfold removeAt.
  assert (Hlt : (i < List.length l)%nat) by (apply nth_error_Some; congruence).
  rewrite length_app, length_firstn, length_skipn. lia.
Qed.

Lemma checkCollision_same_place (o1 o2 : GameObject) :
  position o1 = position o2 -> 0 < radius o1 + radius o2 ->
  GameObject.checkCollision o1 o2 = true.
Proof.
  intros Hp Hr. unfold GameObject.checkCollision. rewrite Hp.
  apply Rltb_true_iff.
  replace (_ * _ + _ * _) with 0 by ring.
  rewrite sqrt_0. exact Hr.
Qed.

Section Collisions.

Variable c : Canvas.

Lemma hitAsteroid_bullets i j a g rng :
  bullets (fst (Game.hitAsteroid i j a g rng)) = removeAt i (bullets g).
Proof. unfold Game.hitAsteroid. destruct (Asteroid.split a rng); reflexivity. Qed.

Lemma hitAsteroid_asteroids i j a g rng :
  asteroids (fst (Game.hitAsteroid i j a g rng)) =
  removeAt j (asteroids g) ++ fst (Asteroid.split a rng).
Proof. unfold Game.hitAsteroid. destruct (Asteroid.split a rng); reflexivity. Qed.

Lemma hitAsteroid_rng i j a g rng :
  snd (Game.hitAsteroid i j a g rng) = snd (Asteroid.split a rng).
Proof. unfold Game.hitAsteroid. destruct (Asteroid.split a rng); reflexivity. Qed.

Lemma hitAsteroid_score i j a g rng :
  score (fst (Game.hitAsteroid i j a g rng)) =
  (score g + match size a with large => 20 | medium => 50 | small => 100 end)%Z.
Proof.
  unfold Game.hitAsteroid. destruct (Asteroid.split a rng); simpl.
  destruct (size a); reflexivity.
Qed.

Lemma hitAsteroid_frame i j a g rng :
  let g' := fst (Game.hitAsteroid i j a g rng) in
  ship g' = ship g /\ lives g' = lives g /\ gameOver g' = gameOver g /\
  canShoot g' = canShoot g /\ shootCooldown g' = shootCooldown g /\
  lastTime g' = lastTime g /\ keys g' = keys g.
Proof.
  unfold Game.hitAsteroid. destruct (Asteroid.split a rng); simpl. tauto.
Qed.

Lemma split_length (a : Asteroid) (rng : RNG) :
  List.length (fst (Asteroid.split a rng)) =
  match size a with small => 0%nat | _ => 2%nat end.
Proof.
  unfold Asteroid.split.
  destruct (size a); simpl Size_eqb; cbv iota; try reflexivity.
  - destruct (splitLoop_two a medium rng) as (a1 & a2 & -> & _); reflexivity.
  - destruct (splitLoop_two a small rng) as (a1 & a2 & -> & _); reflexivity.
Qed.

Lemma hitAsteroid_count i j a g rng :
  nth_error (asteroids g) j = Some a ->
  Z.of_nat (List.length (asteroids (fst (Game.hitAsteroid i j a g rng)))) =
  (Z.of_nat (List.length (asteroids g)) + count_change (size a))%Z.
Proof.
  intros H. rewrite hitAsteroid_asteroids, length_app, split_length.
  pose proof (removeAt_length _ _ _ H).
  destruct (size a); simpl; lia.
Qed.

(** What the inner loop does for one bullet: nothing at all when no
    asteroid below index [n] touches the bullet, and otherwise one call of
    [hitAsteroid], for the asteroid of highest index that touches it. *)
Lemma asteroidLoop_spec n i b g rng :
  (n <= List.length (asteroids g))%nat ->
  (Game.asteroidLoop n i b g rng = (g, rng) /\
   forall j a, (j < n)%nat -> nth_error (asteroids g) j = Some a ->
               GameObject.checkCollision (bul_obj b) (ast_obj a) = false) \/
  (exists j a,
     (j < n)%nat /\ nth_error (asteroids g) j = Some a /\
     GameObject.checkCollision (bul_obj b) (ast_obj a) = true /\
     Game.asteroidLoop n i b g rng = Game.hitAsteroid i j a g rng).
Proof.
  induction n as [|j IH]; intros Hn; simpl.
  - left. split; [reflexivity|]. intros; lia.
  - destruct (nth_error (asteroids g) j) as [a|] eqn:Ha.
    + destruct (GameObject.checkCollision (bul_obj b) (ast_obj a)) eqn:Hc.
      * right. exists j, a. repeat split; auto.
      * destruct IH as [[Heq Hno]|(j' & a' & Hj' & Ha' & Hc' & Heq)]; [lia| |].
        -- left. split; [exact Heq|].
           intros j' a' Hj' Ha'.
           destruct (Nat.eq_dec j' j) as [->|Hne].
           ++ congruence.
           ++ apply (Hno j'); [lia|exact Ha'].
        -- right. exists j', a'. repeat split; auto.
    + apply nth_error_None in Ha. lia.
Qed.

Lemma bulletLoop_frame n g rng :
  let g' := fst (Game.bulletLoop n g rng) in
  ship g' = ship g /\ lives g' = lives g /\ gameOver g' = gameOver g /\
  canShoot g' = canShoot g /\ shootCooldown g' = shootCooldown g /\
  lastTime g' = lastTime g /\ keys g' = keys g.
Proof.
  revert g rng. induction n as [|i IH]; intros g rng; simpl; [tauto|].
  destruct (nth_error (bullets g) i) as [b|]; simpl; [|tauto].
  destruct (asteroidLoop_spec (List.length (asteroids g)) i b g rng (le_n _))
    as [[Heq _]|(j & a & _ & _ & _ & Heq)]; rewrite Heq.
  - apply IH.
  - pose proof (hitAsteroid_frame i j a g rng) as Hf.
    destruct (Game.hitAsteroid i j a g rng) as [g1 rng1]; simpl in Hf.
    specialize (IH g1 rng1). simpl in IH.
    destruct Hf as (<- & <- & <- & <- & <- & <- & <-). exact IH.
Qed.

(** One turn of the outer loop: the bullet at [i] is there, and the next
    index is again in range. *)
Lemma bulletLoop_step i g rng :
  (S i <= List.length (bullets g))%nat ->
  exists b,
    nth_error (bullets g) i = Some b /\
    Game.bulletLoop (S i) g rng =
    Game.bulletLoop i
      (fst (Game.asteroidLoop (List.length (asteroids g)) i b g rng))
      (snd (Game.asteroidLoop (List.length (asteroids g)) i b g rng)) /\
    (i <= List.length
            (bullets (fst (Game.asteroidLoop (List.length (asteroids g)) i b g rng))))%nat.
Proof.
  intros Hi. simpl.
  destruct (nth_error (bullets g) i) as [b|] eqn:Hb.
  2:{ apply nth_error_None in Hb. lia. }
  exists b. split; [reflexivity|].
  destruct (asteroidLoop_spec (List.length (asteroids g)) i b g rng (le_n _))
    as [[Heq _]|(j & a & _ & _ & _ & Heq)]; rewrite Heq.
  - simpl. split; [reflexivity|lia].
  - pose proof (hitAsteroid_bullets i j a g rng) as Hbs.
    pose proof (removeAt_length _ _ _ Hb) as Hlen.
    destruct (Game.hitAsteroid i j a g rng) as [g1 rng1]; simpl in *.
    split; [reflexivity|]. rewrite Hbs. lia.
Qed.

(** The bullet loop as a whole: the bullets that disappear and the
    asteroids that are destroyed pair off.  [destroyed] lists the sizes of
    the destroyed asteroids. *)
Lemma bulletLoop_aggregate n g rng :
  exists destroyed : list Size,
    let g' := fst (Game.bulletLoop n g rng) in
    (List.length (bullets g') + List.length destroyed = List.length (bullets g))%nat /\
    (List.length destroyed <= n)%nat /\
    Z.of_nat (List.length (asteroids g')) =
    (Z.of_nat (List.length (asteroids g)) + sum_changes destroyed)%Z.
Proof.
  revert g rng. induction n as [|i IH]; intros g rng; simpl.
  - exists []. simpl. repeat split; lia.
  - destruct (nth_error (bullets g) i) as [b|] eqn:Hb; simpl.
    2:{ exists []. simpl. repeat split; lia. }
    destruct (asteroidLoop_spec (List.length (asteroids g)) i b g rng (le_n _))
      as [[Heq _]|(j & a & _ & Ha & _ & Heq)]; rewrite Heq.
    + destruct (IH g rng) as (d & H1 & H2 & H3). exists d. simpl in *.
      repeat split; auto.
    + pose proof (hitAsteroid_bullets i j a g rng) as Hbs.
      pose proof (hitAsteroid_count i j a g rng Ha) as Hcnt.
      pose proof (removeAt_length _ _ _ Hb) as Hlen.
      destruct (Game.hitAsteroid i j a g rng) as [g1 rng1]; simpl in Hbs, Hcnt.
      destruct (IH g1 rng1) as (d & H1 & H2 & H3).
      exists (size a :: d). simpl in *. rewrite Hbs in H1.
      repeat split; lia.
Qed.

Lemma shipLoop_frame l g :
  let g' := Game.shipLoop c l g in
  bullets g' = bullets g /\ asteroids g' = asteroids g /\ score g' = score g /\
  canShoot g' = canShoot g /\ shootCooldown g' = shootCooldown g /\
  lastTime g' = lastTime g /\ keys g' = keys g.
Proof.
  induction l as [|a l IH]; simpl; [tauto|].
  destruct (GameObject.checkCollision _ _); [|exact IH].
  unfold Game.loseLife; simpl.
  destruct (_ <=? 0)%Z; simpl; tauto.
Qed.

Lemma shipLoop_spec l g :
  (Game.shipLoop c l g = g /\
   forall a, In a l ->
             GameObject.checkCollision (ship_obj (ship g)) (ast_obj a) = false) \/
  (Game.shipLoop c l g = Game.loseLife c g /\
   exists a, In a l /\
             GameObject.checkCollision (ship_obj (ship g)) (ast_obj a) = true).
Proof.
  induction l as [|a l IH]; simpl.
  - left. split; [reflexivity|]. intros a [].
  - destruct (GameObject.checkCollision _ (ast_obj a)) eqn:Hc.
    + right. split; [reflexivity|]. exists a. auto.
    + destruct IH as [[Heq Hno]|[Heq (a' & Hin & Hc')]].
      * left. split; [exact Heq|]. intros a' [<-|Hin]; auto.
      * right. split; [exact Heq|]. exists a'. auto.
Qed.

Lemma loseLife_lives g :
  lives (Game.loseLife c g) = (lives g - 1)%Z.
Proof.
  unfold Game.loseLife; simpl. destruct (_ <=? 0)%Z; reflexivity.
Qed.

Lemma loseLife_respawn g :
  (0 < lives g - 1)%Z ->
  Game.loseLife c g =
  with_ship (Ship.respawn (canvas_width c / 2) (canvas_height c / 2) (ship g))
            (Game.updateUI (with_lives (lives g - 1)%Z g)).
Proof.
  intros H. unfold Game.loseLife; simpl.
  destruct (Z.leb_spec (lives g - 1) 0); [lia|reflexivity].
Qed.

Lemma loseLife_endGame g :
  (lives g - 1 <= 0)%Z ->
  Game.loseLife c g = Game.endGame (Game.updateUI (with_lives (lives g - 1)%Z g)).
Proof.
  intros H. unfold Game.loseLife; simpl.
  destruct (Z.leb_spec (lives g - 1) 0); [reflexivity|lia].
Qed.

Lemma checkCollisions_bulletLoop g rng :
  let g1 := fst (Game.bulletLoop (List.length (bullets g)) g rng) in
  Game.checkCollisions c g rng =
  (if negb (invulnerable (ship g1)) then Game.shipLoop c (asteroids g1) g1 else g1,
   snd (Game.bulletLoop (List.length (bullets g)) g rng)).
Proof.
  unfold Game.checkCollisions.
  destruct (Game.bulletLoop _ g rng) as [g1 rng1]; reflexivity.
Qed.

(** The inner loop stops at the touching asteroid of highest index. *)
Lemma asteroidLoop_highest n i b g rng :
  (n <= List.length (asteroids g))%nat ->
  (Game.asteroidLoop n i b g rng = (g, rng) /\
   forall j a, (j < n)%nat -> nth_error (asteroids g) j = Some a ->
               GameObject.checkCollision (bul_obj b) (ast_obj a) = false) \/
  (exists j a,
     (j < n)%nat /\ nth_error (asteroids g) j = Some a /\
     GameObject.checkCollision (bul_obj b) (ast_obj a) = true /\
     (forall j' a', (j < j' < n)%nat -> nth_error (asteroids g) j' = Some a' ->
                    GameObject.checkCollision (bul_obj b) (ast_obj a') = false) /\
     Game.asteroidLoop n i b g rng = Game.hitAsteroid i j a g rng).
Proof.
  induction n as [|j IH]; intros Hn; simpl.
  - left. split; [reflexivity|]. intros; lia.
  - destruct (nth_error (asteroids g) j) as [a|] eqn:Ha.
    + destruct (GameObject.checkCollision (bul_obj b) (ast_obj a)) eqn:Hc.
      * right. exists j, a. repeat split; auto. intros; lia.
      * destruct IH as [[Heq Hno]|(j' & a' & Hj' & Ha' & Hc' & Hhi & Heq)]; [lia| |].
        -- left. split; [exact Heq|].
           intros j' a' Hj' Ha'.
           destruct (Nat.eq_dec j' j) as [->|Hne].
           ++ congruence.
           ++ apply (Hno j'); [lia|exact Ha'].
        -- right. exists j', a'. repeat split; auto.
           intros j2 a2 Hj2 Ha2.
           destruct (Nat.eq_dec j2 j) as [->|Hne].
           ++ congruence.
           ++ apply (Hhi j2); [lia|exact Ha2].
    + apply nth_error_None in Ha. lia.
Qed.

Lemma bullet_outcome_holds g rng i b :
  nth_error (bullets g) i = Some b -> bullet_outcome i b g rng.
Proof.
  intros Hb. unfold bullet_outcome.
  destruct (asteroidLoop_highest (List.length (asteroids g)) i b g rng (le_n _))
    as [[Heq Hno]|(j & a & _ & Ha & Hc & Hhi & Heq)].
  - left. split; [|exact Heq].
    intros a Hin. destruct (In_nth_error _ _ Hin) as [j Hj].
    apply (Hno j a); [|exact Hj].
    apply nth_error_Some. congruence.
  - right. exists j, a. rewrite Heq.
    pose proof (hitAsteroid_count i j a g rng Ha) as Hcnt.
    pose proof (split_length a rng) as Hsp.
    rewrite hitAsteroid_bullets, hitAsteroid_asteroids.
    rewrite hitAsteroid_asteroids in Hcnt.
    split; [exact Ha|]. split; [exact Hc|]. split.
    { intros j' a' Hj' Ha'. apply (Hhi j'); [|exact Ha'].
      split; [exact Hj'|]. apply nth_error_Some. congruence. }
    split; [reflexivity|]. split; [apply (removeAt_length _ _ _ Hb)|].
    split; [reflexivity|].
    revert Hcnt Hsp. destruct (size a); simpl; intros Hcnt Hsp.
    + split; [exact Hsp|lia].
    + split; [exact Hsp|lia].
    + split; [|lia]. apply length_zero_iff_nil. exact Hsp.
Qed.

(** The bullet loop as a whole destroys something exactly when some bullet
    touches some asteroid. *)
Lemma bulletLoop_destroys n g rng :
  (n <= List.length (bullets g))%nat ->
  exists destroyed : list Size,
    let g' := fst (Game.bulletLoop n g rng) in
    (List.length (bullets g') + List.length destroyed = List.length (bullets g))%nat /\
    Z.of_nat (List.length (asteroids g')) =
    (Z.of_nat (List.length (asteroids g)) + sum_changes destroyed)%Z /\
    (destroyed = [] <->
     forall i b a, (i < n)%nat -> nth_error (bullets g) i = Some b ->
                   In a (asteroids g) ->
                   GameObject.checkCollision (bul_obj b) (ast_obj a) = false).
Proof.
  revert g rng. induction n as [|i IH]; intros g rng Hn; simpl.
  - exists []. simpl. split; [lia|]. split; [lia|]. split; [intros; lia|reflexivity].
  - destruct (nth_error (bullets g) i) as [b|] eqn:Hb; simpl.
    2:{ apply nth_error_None in Hb. lia. }
    destruct (asteroidLoop_spec (List.length (asteroids g)) i b g rng (le_n _))
      as [[Heq Hno]|(j & a & _ & Ha & Hc & Heq)]; rewrite Heq.
    + destruct (IH g rng) as (d & H1 & H2 & H3); [lia|]. exists d. simpl in *.
      split; [exact H1|]. split; [exact H2|]. split.
      * intros Hd i' b' a' Hi' Hb' Hin.
        destruct (Nat.eq_dec i' i) as [->|Hne].
        -- assert (b' = b) by congruence. subst b'.
           destruct (In_nth_error _ _ Hin) as [j Hj].
           apply (Hno j a'); [|exact Hj]. apply nth_error_Some. congruence.
        -- apply (proj1 H3 Hd i' b' a'); [lia|exact Hb'|exact Hin].
      * intros Hall. apply (proj2 H3). intros i' b' a' Hi'.
        apply Hall. lia.
    + pose proof (hitAsteroid_bullets i j a g rng) as Hbs.
      pose proof (hitAsteroid_count i j a g rng Ha) as Hcnt.
      pose proof (removeAt_length _ _ _ Hb) as Hlen.
      destruct (Game.hitAsteroid i j a g rng) as [g1 rng1]; simpl in Hbs, Hcnt.
      destruct (IH g1 rng1) as (d & H1 & H2 & _); [rewrite Hbs; lia|].
      exists (size a :: d). simpl in *. rewrite Hbs in H1.
      split; [lia|]. split; [lia|]. split; [discriminate|].
      intros Hall. exfalso.
      specialize (Hall i b a (Nat.lt_succ_diag_r i) Hb (nth_error_In _ _ Ha)).
      congruence.
Qed.

(** C4.  In [checkCollisions], the pass of the inner loop for one bullet
    changes nothing if no asteroid touches the bullet, and otherwise
    destroys exactly one asteroid, the touching one of highest index: the
    bullet is then removed, a large or medium asteroid is replaced by its
    two fragments (one asteroid more), a small one by nothing (one asteroid
    less).  Over the whole call the removed bullets and the destroyed
    asteroids pair off: with [destroyed] the sizes of the destroyed
    asteroids, the bullet count drops by their number, at most one per
    bullet, the asteroid count changes by the sum of +1 per large or
    medium and -1 per small one, and nothing is destroyed exactly when no
    bullet touches an asteroid. *)
Theorem each_bullet_destroys_at_most_one_asteroid (g : Game) (rng : RNG) :
  (forall i b, nth_error (bullets g) i = Some b -> bullet_outcome i b g rng) /\
  (exists destroyed : list Size,
     let g' := fst (Game.checkCollisions c g rng) in
     (List.length (bullets g') + List.length destroyed = List.length (bullets g))%nat /\
     Z.of_nat (List.length (asteroids g')) =
     (Z.of_nat (List.length (asteroids g)) + sum_changes destroyed)%Z /\
     (destroyed = [] <-> no_bullet_touches g)).
Proof.
  split; [intros i b; apply bullet_outcome_holds|].
  destruct (bulletLoop_destroys (List.length (bullets g)) g rng (le_n _))
    as (d & H1 & H2 & H3).
  exists d. cbv zeta in *.
  assert (Hiff : d = [] <-> no_bullet_touches g).
  { rewrite H3. unfold no_bullet_touches. split.
    - intros Hall b a Hb. destruct (In_nth_error _ _ Hb) as [i Hi].
      apply (Hall i b a); [|exact Hi].
      apply nth_error_Some. congruence.
    - intros Hall i b a _ Hi. apply Hall. apply (nth_error_In _ _ Hi). }
  rewrite checkCollisions_bulletLoop. cbn [fst].
  set (g1 := fst (Game.bulletLoop (List.length (bullets g)) g rng)) in *.
  destruct (negb (invulnerable (ship g1))); [|auto].
  pose proof (shipLoop_frame (asteroids g1) g1) as Hf. cbv zeta in Hf.
  destruct Hf as (-> & -> & _). auto.
Qed.

Lemma bulletLoop_score_le n g rng :
  (score g <= score (fst (Game.bulletLoop n g rng)))%Z.
Proof.
  revert g rng. induction n as [|i IH]; intros g rng; simpl; [lia|].
  destruct (nth_error (bullets g) i) as [b|]; simpl; [|lia].
  destruct (asteroidLoop_spec (List.length (asteroids g)) i b g rng (le_n _))
    as [[Heq _]|(j & a & _ & _ & _ & Heq)]; rewrite Heq.
  - apply IH.
  - pose proof (hitAsteroid_score i j a g rng) as Hs.
    destruct (Game.hitAsteroid i j a g rng) as [g1 rng1]; simpl in Hs.
    specialize (IH g1 rng1). destruct (size a); lia.
Qed.

Lemma checkCollisions_score_le g rng :
  (score g <= score (fst (Game.checkCollisions c g rng)))%Z.
Proof.
  rewrite checkCollisions_bulletLoop. cbn [fst].
  pose proof (bulletLoop_score_le (List.length (bullets g)) g rng) as H.
  set (g1 := fst (Game.bulletLoop (List.length (bullets g)) g rng)) in *.
  destruct (negb (invulnerable (ship g1))); [|exact H].
  pose proof (shipLoop_frame (asteroids g1) g1) as Hf. cbv zeta in Hf.
  destruct Hf as (_ & _ & -> & _). exact H.
Qed.

Lemma bulletLoop_no_asteroids n g rng :
  asteroids g = [] -> Game.bulletLoop n g rng = (g, rng).
Proof.
  intros Hnil. induction n as [|i IH]; simpl; [reflexivity|].
  destruct (nth_error (bullets g) i); [|reflexivity].
  rewrite Hnil. simpl. exact IH.
Qed.

Lemma checkCollisions_no_asteroids g rng :
  asteroids g = [] -> Game.checkCollisions c g rng = (g, rng).
Proof.
  intros Hnil. unfold Game.checkCollisions.
  rewrite bulletLoop_no_asteroids by exact Hnil. rewrite Hnil. simpl.
  destruct (negb (invulnerable (ship g))); reflexivity.
Qed.

End Collisions.

(** ** The collision pass on two small games *)

Lemma one_hit_collides (sz : Size) :
  GameObject.checkCollision (bul_obj (Bullet.new 0 0 0))
                            (ast_obj (one_hit_rock sz)) = true.
Proof.
  apply checkCollision_same_place.
  - unfold one_hit_rock. rewrite Asteroid_new_position. reflexivity.
  - unfold one_hit_rock. rewrite Asteroid_new_radius.
    destruct sz; simpl; lra.
Qed.

Lemma one_hit_bulletLoop (sz : Size) (rng : RNG) :
  Game.bulletLoop 1 (one_hit_game sz) rng =
  Game.hitAsteroid 0 0 (one_hit_rock sz) (one_hit_game sz) rng.
Proof.
  change (Game.bulletLoop 1 (one_hit_game sz) rng) with
    (let '(g1, rng1) :=
       if GameObject.checkCollision (bul_obj (Bullet.new 0 0 0))
                                    (ast_obj (one_hit_rock sz))
       then Game.hitAsteroid 0 0 (one_hit_rock sz) (one_hit_game sz) rng
       else (one_hit_game sz, rng) in
     Game.bulletLoop 0 g1 rng1).
  rewrite one_hit_collides.
  destruct (Game.hitAsteroid 0 0 (one_hit_rock sz) (one_hit_game sz) rng);
    reflexivity.
Qed.

Lemma one_hit_checkCollisions (c : Canvas) (sz : Size) (rng : RNG) :
  Game.checkCollisions c (one_hit_game sz) rng =
  Game.hitAsteroid 0 0 (one_hit_rock sz) (one_hit_game sz) rng.
Proof.
  rewrite checkCollisions_bulletLoop.
  change (List.length (bullets (one_hit_game sz))) with 1%nat.
  rewrite one_hit_bulletLoop.
  destruct (hitAsteroid_frame 0 0 (one_hit_rock sz) (one_hit_game sz) rng)
    as (Hship & _).
  rewrite Hship.
  destruct (Game.hitAsteroid 0 0 (one_hit_rock sz) (one_hit_game sz) rng);
    reflexivity.
Qed.

(** C1.  The points the code awards.  In a game with score 0 where one
    bullet hits one asteroid, [checkCollisions] leaves the score at 20 when
    the asteroid is large, 50 when it is medium and 100 when it is small:
    large and small are the other way round from the release notes'
    "20/50/100 points based on asteroid size (small/medium/large)". *)
Theorem checkCollisions_awards_20_large_50_medium_100_small
  (c : Canvas) (sz : Size) (rng : RNG) :
  score (one_hit_game sz) = 0%Z /\
  size (one_hit_rock sz) = sz /\
  score (fst (Game.checkCollisions c (one_hit_game sz) rng)) =
  match sz with large => 20%Z | medium => 50%Z | small => 100%Z end.
Proof.
  split; [reflexivity|].
  assert (Hsz : size (one_hit_rock sz) = sz) by apply Asteroid_new_size.
  split; [exact Hsz|].
  rewrite one_hit_checkCollisions, hitAsteroid_score, Hsz.
  destruct sz; reflexivity.
Qed.

Lemma each_bullet_destroys_at_most_one_asteroid_witness :
  nth_error (bullets (one_hit_game large)) 0 = Some (Bullet.new 0 0 0) /\
  bullets (fst (Game.asteroidLoop 1 0 (Bullet.new 0 0 0)
                  (one_hit_game large) zero_rng)) = [] /\
  List.length (asteroids (fst (Game.asteroidLoop 1 0 (Bullet.new 0 0 0)
                                 (one_hit_game large) zero_rng))) = 2%nat.
Proof.
  split; [reflexivity|].
  destruct (proj1 (each_bullet_destroys_at_most_one_asteroid
                     canvas800 (one_hit_game large) zero_rng)
              0%nat (Bullet.new 0 0 0) eq_refl)
    as [[Hno _]|(j & a & Ha & _ & _ & Hb & _ & _ & Hsz)].
  - exfalso.
    specialize (Hno (one_hit_rock large) (or_introl eq_refl)).
    rewrite one_hit_collides in Hno. discriminate.
  - change (List.length (asteroids (one_hit_game large))) with 1%nat in *.
    split; [exact Hb|].
    assert (Hlarge : size a = large).
    { destruct j as [|j]; simpl in Ha.
      - injection Ha as <-. unfold one_hit_rock. apply Asteroid_new_size.
      - destruct j; discriminate. }
    rewrite Hlarge in Hsz. exact (proj2 Hsz).
Defined.

Lemma crash_checkCollisions :
  fst (Game.checkCollisions canvas800 crash_game zero_rng) =
  Game.loseLife canvas800 crash_game.
Proof.
  unfold Game.checkCollisions.
  change (Game.bulletLoop (List.length (bullets crash_game)) crash_game zero_rng)
    with (crash_game, zero_rng).
  change (invulnerable (ship crash_game)) with false.
  cbn [negb fst].
  change (Game.shipLoop canvas800 (asteroids crash_game) crash_game) with
    (if GameObject.checkCollision (ship_obj (ship crash_game)) (ast_obj crash_rock)
     then Game.loseLife canvas800 crash_game else crash_game).
  rewrite checkCollision_same_place; [reflexivity| |].
  - unfold crash_rock. rewrite Asteroid_new_position. reflexivity.
  - unfold crash_rock. rewrite Asteroid_new_radius. simpl. lra.
Qed.

(** ** Game over *)

Lemma update_gameOver (c : Canvas) (fuel : nat) (dt : R) (g : Game) (rng : RNG) :
  gameOver g = true -> Game.update c fuel dt g rng = Some (g, rng).
Proof. intros H. unfold Game.update. rewrite H. reflexivity. Qed.




(** ** The speed of the ship *)






Lemma GameObject_update_velocity (c : Canvas) (dt : R) (o : GameObject) :
  velocity (GameObject.update c dt o) = velocity o.
Proof. reflexivity. Qed.





(** ** The message queue *)

Lemma updateMessages_positive (dt : R) (ui : UIManager) :
  Forall (fun m => 0 < timeLeft m) (messages (UIManager.updateMessages dt ui)).
Proof.
  unfold UIManager.updateMessages; simpl.
  apply Forall_forall. intros m Hin.
  apply filter_In in Hin. destruct Hin as [_ Hpos].
  apply Rltb_true_iff in Hpos. exact Hpos.
Qed.

Lemma updateMessages_length (dt : R) (ui : UIManager) :
  (List.length (messages (UIManager.updateMessages dt ui)) <=
   List.length (messages ui))%nat.
Proof.
  unfold UIManager.updateMessages; simpl.
  etransitivity; [apply filter_length_le|]. rewrite length_map. lia.
Qed.

Lemma showMessage_messages (now : R) (txt : string) (dur : R) (type : string)
  (ui : UIManager) :
  messages (UIManager.showMessage now txt dur type ui) =
  if (maxMessages ui <? List.length (messages ui ++ [mkMessage txt dur type now]))%nat
  then List.tl (messages ui ++ [mkMessage txt dur type now])
  else messages ui ++ [mkMessage txt dur type now].
Proof. reflexivity. Qed.

Lemma showMessage_length (now : R) (txt : string) (dur : R) (type : string)
  (ui : UIManager) :
  (List.length (messages ui) <= maxMessages ui)%nat ->
  (List.length (messages (UIManager.showMessage now txt dur type ui)) <=
   maxMessages ui)%nat.
Proof.
  intros H. rewrite showMessage_messages.
  destruct (Nat.ltb_spec (maxMessages ui)
              (List.length (messages ui ++ [mkMessage txt dur type now])))
    as [Hlt|Hge]; [|exact Hge].
  rewrite length_app in Hlt. simpl in Hlt.
  destruct (messages ui) as [|m l]; simpl in *; [lia|].
  rewrite length_app; simpl. lia.
Qed.

Lemma ui_reachable_bounded (ui : UIManager) :
  ui_reachable ui ->
  maxMessages ui = 3%nat /\ (List.length (messages ui) <= 3)%nat.
Proof.
  induction 1 as [gs|dt ui _ [Hmax Hlen]|now txt dur type ui _ [Hmax Hlen]
                  |ui _ [Hmax Hlen]].
  - simpl. split; [reflexivity|lia].
  - split; [exact Hmax|].
    pose proof (updateMessages_length dt ui). lia.
  - split; [exact Hmax|].
    pose proof (showMessage_length now txt dur type ui) as H.
    rewrite Hmax in H. apply H. exact Hlen.
  - simpl. split; [exact Hmax|lia].
Qed.

(** [updateMessages] in terms of the queue before: the messages with more
    than [deltaTime] left, each with [deltaTime] taken off, in the order
    they had. *)
Lemma updateMessages_expiry (dt : R) (ui : UIManager) :
  messages (UIManager.updateMessages dt ui) =
  map (countdown dt) (filter (fun m => Rgtb (timeLeft m) dt) (messages ui)).
Proof.
  unfold UIManager.updateMessages. cbn [messages].
  induction (messages ui) as [|m l IH]; [reflexivity|].
  cbn [map filter timeLeft].
  assert (Hcmp : Rgtb (timeLeft m - dt) 0 = Rgtb (timeLeft m) dt).
  { unfold Rgtb, Rltb.
    destruct (Rlt_dec 0 (timeLeft m - dt)), (Rlt_dec dt (timeLeft m));
      try reflexivity; exfalso; lra. }
  rewrite Hcmp. destruct (Rgtb (timeLeft m) dt); cbn [map]; rewrite IH; reflexivity.
Qed.

Lemma updateMessages_gameState (dt : R) (ui : UIManager) :
  gameState_messages (UIManager.updateMessages dt ui) =
  map text (messages (UIManager.updateMessages dt ui)).
Proof. reflexivity. Qed.

(** C6.  In every state the message system can reach: [updateMessages]
    takes [deltaTime] off the remaining time of every queued message and
    removes exactly the messages that have no time left then, so that the
    queue afterwards holds, in their order, the messages that had more than
    [deltaTime] left, every one with a remaining time above zero, and
    [gameState.messages] holds their texts; after [showMessage] the queue
    holds at most [maxMessages] = 3 messages, the new message is the last
    one, and it was appended to the whole queue if that held fewer than
    three messages and to the queue without its first (oldest) message if
    it held three. *)
Theorem message_queue_expiry_and_cap (ui : UIManager) :
  ui_reachable ui ->
  (forall dt,
     let ui' := UIManager.updateMessages dt ui in
     Forall (fun m => 0 < timeLeft m) (messages ui') /\
     messages ui' =
       map (countdown dt) (filter (fun m => Rgtb (timeLeft m) dt) (messages ui)) /\
     (forall m, In m (messages ui) ->
                (dt < timeLeft m -> In (countdown dt m) (messages ui')) /\
                (timeLeft m <= dt -> ~ In (countdown dt m) (messages ui'))) /\
     gameState_messages ui' = map text (messages ui')) /\
  (forall now txt dur type,
     let ui' := UIManager.showMessage now txt dur type ui in
     let m := mkMessage txt dur type now in
     maxMessages ui' = 3%nat /\
     (List.length (messages ui') <= 3)%nat /\
     ((List.length (messages ui) < 3)%nat -> messages ui' = messages ui ++ [m]) /\
     (List.length (messages ui) = 3%nat ->
      exists oldest rest,
        messages ui = oldest :: rest /\ messages ui' = rest ++ [m])).
Proof.
  intros Hr. destruct (ui_reachable_bounded ui Hr) as [Hmax Hlen].
  split.
  { intros dt ui'. unfold ui'.
    split; [apply updateMessages_positive|].
    split; [apply updateMessages_expiry|].
    split; [|apply updateMessages_gameState].
    intros m Hin. split.
    - intros Hlt. rewrite updateMessages_expiry. apply in_map.
      apply filter_In. split; [exact Hin|]. apply Rltb_true_iff. exact Hlt.
    - intros Hle Hin'.
      pose proof (updateMessages_positive dt ui) as Hpos.
      rewrite Forall_forall in Hpos. apply Hpos in Hin'.
      unfold countdown in Hin'. simpl in Hin'. lra. }
  intros now txt dur type ui' m.
  split; [exact Hmax|]. split.
  - pose proof (showMessage_length now txt dur type ui) as H.
    rewrite Hmax in H. apply H. exact Hlen.
  - unfold ui'. rewrite showMessage_messages, Hmax, length_app. simpl.
    fold m. split.
    + intros Hlt.
      destruct (Nat.ltb_spec 3 (List.length (messages ui) + 1)); [lia|reflexivity].
    + intros Heq.
      destruct (Nat.ltb_spec 3 (List.length (messages ui) + 1)); [|lia].
      destruct (messages ui) as [|oldest rest]; [discriminate|].
      exists oldest, rest. split; reflexivity.
Qed.

Lemma full_queue_messages :
  messages full_queue =
  [mkMessage "a" 3000 "info" 0; mkMessage "b" 1000 "info" 1;
   mkMessage "c" 3000 "info" 2].
Proof. reflexivity. Qed.

Lemma message_queue_expiry_and_cap_witness :
  ui_reachable full_queue /\
  messages (UIManager.updateMessages 2000 full_queue) =
    [mkMessage "a" (3000 - 2000) "info" 0; mkMessage "c" (3000 - 2000) "info" 2] /\
  messages (UIManager.showMessage 3 "d" 3000 "info" full_queue) =
    [mkMessage "b" 1000 "info" 1; mkMessage "c" 3000 "info" 2;
     mkMessage "d" 3000 "info" 3].
Proof.
  assert (H : ui_reachable full_queue)
    by (unfold full_queue; repeat apply ui_showMessage; apply ui_new).
  destruct (message_queue_expiry_and_cap _ H) as [H1 H2].
  split; [exact H|]. split.
  - destruct (H1 2000) as (_ & Heq & _). rewrite Heq, full_queue_messages.
    cbn [filter timeLeft].
    assert (Ha : Rgtb 3000 2000 = true) by (apply Rltb_true_iff; lra).
    assert (Hb : Rgtb 1000 2000 = false) by (apply Rltb_false_iff; lra).
    rewrite Ha, Hb. reflexivity.
  - destruct (H2 3 "d"%string 3000 "info"%string) as (_ & _ & _ & Hfull).
    destruct (Hfull eq_refl) as (oldest & rest & Hq & Hafter).
    rewrite full_queue_messages in Hq. injection Hq as <- <-.
    exact Hafter.
Defined.

(** ** The minimap *)



(** ** Spawning *)

Lemma suffix_of_refl (rng : RNG) : suffix_of rng rng.
Proof. exists 0%nat. reflexivity. Qed.

Lemma suffix_of_trans (r3 r2 r1 : RNG) :
  suffix_of r3 r2 -> suffix_of r2 r1 -> suffix_of r3 r1.
Proof.
  intros [m Hm] [k Hk]. exists (k + m)%nat. intros n.
  rewrite Hm, Hk. f_equal. lia.
Qed.

Lemma suffix_of_skip (k : nat) (rng : RNG) : suffix_of (skip k rng) rng.
Proof. exists k. reflexivity. Qed.

Lemma makeVertices_suffix (n i vc : nat) (r : R) (rng : RNG) :
  suffix_of (snd (Asteroid.makeVertices n i vc r rng)) rng.
Proof.
  revert i rng. induction n as [|n IH]; intros i rng; simpl.
  - apply suffix_of_refl.
  - specialize (IH (S i) (skip 1 rng)).
    destruct (Asteroid.makeVertices n (S i) vc r (skip 1 rng)) as [vs rng2].
    simpl in *. eapply suffix_of_trans; [exact IH|apply suffix_of_skip].
Qed.

Lemma Asteroid_new_suffix (x y : R) (sz : Size) (rng : RNG) :
  suffix_of (snd (Asteroid.new x y sz rng)) rng.
Proof.
  unfold Asteroid.new; simpl.
  match goal with
  | |- context [Asteroid.makeVertices ?n ?i ?vc ?r ?g] =>
      pose proof (makeVertices_suffix n i vc r g) as H;
      destruct (Asteroid.makeVertices n i vc r g) as [vs rng2]
  end.
  simpl in *. eapply suffix_of_trans; [exact H|].
  apply (suffix_of_skip 4 rng).
Qed.

Lemma fair_suffix (c : Canvas) (p : Vector2D) (rng' rng : RNG) :
  suffix_of rng' rng -> fair c p rng -> fair c p rng'.
Proof.
  intros [m Hm] Hf n. destruct (Hf (m + n)%nat) as [k Hk]. exists k.
  unfold far_draw in *. rewrite !Hm.
  replace (m + (n + 2 * k))%nat with (m + n + 2 * k)%nat by lia.
  replace (m + S (n + 2 * k))%nat with (S (m + n + 2 * k)) by lia.
  exact Hk.
Qed.

Section Spawning.

Variable c : Canvas.

Lemma pickPosition_S fuel g rng :
  Game.pickPosition c (S fuel) g rng =
  if Rltb (distance (mkVector2D (rng 0%nat * canvas_width c)
                                (rng 1%nat * canvas_height c))
                    (position (ship_obj (ship g)))) 150
  then Game.pickPosition c fuel g (skip 2 rng)
  else Some (rng 0%nat * canvas_width c, rng 1%nat * canvas_height c, skip 2 rng).
Proof. reflexivity. Qed.

Lemma pickPosition_sound fuel g rng x y rng' :
  Game.pickPosition c fuel g rng = Some (x, y, rng') ->
  150 <= distance (mkVector2D x y) (position (ship_obj (ship g))) /\
  suffix_of rng' rng.
Proof.
  revert rng. induction fuel as [|fuel IH]; intros rng; [discriminate|].
  rewrite pickPosition_S.
  destruct (Rltb _ 150) eqn:Hcmp.
  - intros H. destruct (IH _ H) as [Hd Hs]. split; [exact Hd|].
    eapply suffix_of_trans; [exact Hs|]. apply suffix_of_skip.
  - intros H. injection H as <- <- <-. split.
    + apply Rltb_false_iff in Hcmp. exact Hcmp.
    + apply suffix_of_skip.
Qed.

Lemma pickPosition_more_fuel fuel fuel' g rng r :
  (fuel <= fuel')%nat ->
  Game.pickPosition c fuel g rng = Some r ->
  Game.pickPosition c fuel' g rng = Some r.
Proof.
  revert fuel' rng. induction fuel as [|fuel IH]; intros fuel' rng Hle;
    [discriminate|].
  destruct fuel' as [|fuel']; [lia|]. rewrite !pickPosition_S.
  destruct (Rltb _ 150); [|auto].
  apply IH. lia.
Qed.

Lemma pickPosition_complete k g rng :
  far_draw c (position (ship_obj (ship g))) rng (2 * k) ->
  exists r, Game.pickPosition c (S k) g rng = Some r.
Proof.
  revert rng. induction k as [|k IH]; intros rng Hfar; rewrite pickPosition_S.
  - destruct (Rltb _ 150) eqn:Hcmp; [|eauto].
    apply Rltb_true_iff in Hcmp. unfold far_draw in Hfar. simpl in Hfar. lra.
  - destruct (Rltb _ 150); [|eauto].
    apply IH. unfold far_draw, skip in *.
    replace (2 * S k)%nat with (S (S (2 * k))) in Hfar by lia.
    exact Hfar.
Qed.

Lemma spawnLoop_S fuel n g rng :
  Game.spawnLoop c fuel (S n) g rng =
  match Game.pickPosition c fuel g rng with
  | None => None
  | Some (x, y, rng1) =>
      Game.spawnLoop c fuel n
        (with_asteroids (asteroids g ++ [fst (Asteroid.new x y large rng1)]) g)
        (snd (Asteroid.new x y large rng1))
  end.
Proof.
  simpl. destruct (Game.pickPosition c fuel g rng) as [[[x y] rng1]|]; [|reflexivity].
  destruct (Asteroid.new x y large rng1); reflexivity.
Qed.

(** What [spawnAsteroids] leaves behind when it returns: [n] more
    asteroids, all large and far from the ship, and nothing else changed. *)
Lemma spawnLoop_sound fuel n g rng g' rng' :
  Game.spawnLoop c fuel n g rng = Some (g', rng') ->
  (exists new,
     asteroids g' = asteroids g ++ new /\ List.length new = n /\
     Forall (spawned_far_from (ship g)) new) /\
  ship g' = ship g /\ bullets g' = bullets g /\ score g' = score g /\
  lives g' = lives g /\ gameOver g' = gameOver g /\ canShoot g' = canShoot g /\
  shootCooldown g' = shootCooldown g /\ lastTime g' = lastTime g /\
  keys g' = keys g /\ dom g' = dom g /\ suffix_of rng' rng.
Proof.
  revert g rng. induction n as [|n IH]; intros g rng.
  - simpl. intros H. injection H as <- <-. split.
    + exists []. rewrite app_nil_r. auto.
    + repeat split; auto using suffix_of_refl.
  - rewrite spawnLoop_S.
    destruct (Game.pickPosition c fuel g rng) as [[[x y] rng1]|] eqn:Hpick;
      [|discriminate].
    destruct (pickPosition_sound _ _ _ _ _ _ Hpick) as [Hfar Hs1].
    intros H. apply IH in H. simpl in H.
    destruct H as ((new & Hnew & Hlen & Hall) & H1 & H2 & H3 & H4 & H5 & H6
                   & H7 & H8 & H9 & H10 & Hs2).
    split.
    + exists (fst (Asteroid.new x y large rng1) :: new).
      rewrite Hnew, <- app_assoc. simpl. repeat split; auto.
      constructor; [|exact Hall]. split.
      * apply Asteroid_new_size.
      * rewrite Asteroid_new_position. exact Hfar.
    + repeat split; auto.
      eapply suffix_of_trans; [exact Hs2|].
      eapply suffix_of_trans; [apply Asteroid_new_suffix|exact Hs1].
Qed.

Lemma spawnLoop_more_fuel fuel fuel' n g rng r :
  (fuel <= fuel')%nat ->
  Game.spawnLoop c fuel n g rng = Some r ->
  Game.spawnLoop c fuel' n g rng = Some r.
Proof.
  intros Hle. revert g rng. induction n as [|n IH]; intros g rng; [auto|].
  rewrite !spawnLoop_S.
  destruct (Game.pickPosition c fuel g rng) as [[[x y] rng1]|] eqn:Hpick;
    [|discriminate].
  rewrite (pickPosition_more_fuel _ _ _ _ _ Hle Hpick). apply IH.
Qed.

(** With a fair [Math.random()], [spawnAsteroids] returns. *)
Lemma spawnLoop_complete n g rng :
  fair c (position (ship_obj (ship g))) rng ->
  exists fuel r, Game.spawnLoop c fuel n g rng = Some r.
Proof.
  revert g rng. induction n as [|n IH]; intros g rng Hfair.
  - exists 0%nat. simpl. eauto.
  - destruct (Hfair 0%nat) as [k Hk]. simpl plus in Hk.
    destruct (pickPosition_complete k g rng Hk) as [[[x y] rng1] Hpick].
    destruct (pickPosition_sound _ _ _ _ _ _ Hpick) as [_ Hs1].
    destruct (IH (with_asteroids
                    (asteroids g ++ [fst (Asteroid.new x y large rng1)]) g)
                 (snd (Asteroid.new x y large rng1))) as (fuel2 & r & Hr).
    { simpl. eapply fair_suffix; [|exact Hfair].
      eapply suffix_of_trans; [apply Asteroid_new_suffix|exact Hs1]. }
    exists (Nat.max (S k) fuel2), r.
    rewrite spawnLoop_S.
    rewrite (pickPosition_more_fuel (S k) _ _ _ _ (Nat.le_max_l _ _) Hpick).
    apply (spawnLoop_more_fuel fuel2); [apply Nat.le_max_r|exact Hr].
Qed.

End Spawning.

(** ** One frame *)

Lemma handleInput_frame (dt : R) (g : Game) :
  handleInput_untouched (Game.handleInput dt g) = handleInput_untouched g.
Proof.
  unfold Game.handleInput.
  destruct (gameOver g) eqn:Hover; [reflexivity|].
  set (g1 := if keys g "w"%string then _ else g).
  assert (H1 : handleInput_untouched g1 = handleInput_untouched g)
    by (unfold g1; destruct (keys g "w"%string); reflexivity).
  clearbody g1.
  set (g2 := if keys g1 "s"%string then _ else g1).
  assert (H2 : handleInput_untouched g2 = handleInput_untouched g)
    by (rewrite <- H1; unfold g2; destruct (keys g1 "s"%string); reflexivity).
  clearbody g2.
  set (g3 := if keys g2 "a"%string then _ else g2).
  assert (H3 : handleInput_untouched g3 = handleInput_untouched g)
    by (rewrite <- H2; unfold g3; destruct (keys g2 "a"%string); reflexivity).
  clearbody g3.
  set (g4 := if keys g3 "d"%string then _ else g3).
  assert (H4 : handleInput_untouched g4 = handleInput_untouched g)
    by (rewrite <- H3; unfold g4; destruct (keys g3 "d"%string); reflexivity).
  clearbody g4.
  set (g5 := if keys g4 " "%string && canShoot g4 then _ else g4).
  assert (H5 : handleInput_untouched g5 = handleInput_untouched g)
    by (rewrite <- H4; unfold g5; destruct (keys g4 " "%string && canShoot g4); reflexivity).
  clearbody g5.
  set (g6 := if negb (keys g5 " "%string) then _ else g5).
  assert (H6 : handleInput_untouched g6 = handleInput_untouched g)
    by (rewrite <- H5; unfold g6; destruct (negb (keys g5 " "%string)); reflexivity).
  clearbody g6.
  rewrite <- H6.
  destruct (Rgtb (shootCooldown g6) 0); [|reflexivity].
  destruct (Rleb _ 0); reflexivity.
Qed.

Lemma handleInput_no_keys (dt : R) (g : Game) :
  (forall k, keys g k = false) ->
  ship (Game.handleInput dt g) = ship g /\
  bullets (Game.handleInput dt g) = bullets g.
Proof.
  intros Hk. unfold Game.handleInput.
  destruct (gameOver g); [auto|].
  repeat (progress (rewrite ?Hk; simpl)).
  destruct (Rgtb (shootCooldown g) 0); [|auto].
  destruct (Rleb _ 0); auto.
Qed.

Lemma wrapPosition_inside (c : Canvas) (o : GameObject) :
  in_field c o -> position (GameObject.wrapPosition c o) = position o.
Proof.
  intros [[Hx1 Hx2] [Hy1 Hy2]].
  unfold GameObject.wrapPosition, Rgtb.
  assert (E1 : Rltb (vx (position o)) 0 = false) by (apply Rltb_false_iff; lra).
  rewrite E1.
  assert (E2 : Rltb (canvas_width c) (vx (position o)) = false)
    by (apply Rltb_false_iff; lra).
  rewrite E2.
  assert (E3 : Rltb (vy (position o)) 0 = false) by (apply Rltb_false_iff; lra).
  rewrite E3.
  assert (E4 : Rltb (canvas_height c) (vy (position o)) = false)
    by (apply Rltb_false_iff; lra).
  rewrite E4. reflexivity.
Qed.

Section Frame.

Variable c : Canvas.

Lemma stepEntities_score_le dt g rng :
  (score g <= score (fst (Game.stepEntities c dt g rng)))%Z.
Proof.
  unfold Game.stepEntities.
  etransitivity; [|apply checkCollisions_score_le]. simpl.
  pose proof (handleInput_frame dt g) as H.
  unfold handleInput_untouched in H. injection H as _ Hs _ _ _ _ _.
  rewrite Hs. lia.
Qed.

Lemma stepEntities_no_asteroids dt g rng :
  asteroids g = [] ->
  Game.stepEntities c dt g rng =
  (with_asteroids []
     (with_bullets
        (filter (fun bullet => active (bul_obj bullet))
                (map (Bullet.update c dt) (bullets (Game.handleInput dt g))))
        (with_ship (Ship.update c dt (ship (Game.handleInput dt g)))
                   (Game.handleInput dt g))),
   rng).
Proof.
  intros Hnil. unfold Game.stepEntities.
  pose proof (handleInput_frame dt g) as H.
  unfold handleInput_untouched in H. injection H as Ha _ _ _ _ _ _.
  rewrite checkCollisions_no_asteroids; simpl; rewrite Ha, Hnil; reflexivity.
Qed.

Lemma waveSize_bounds g :
  (0 <= score g)%Z -> (5 <= Game.waveSize g <= 7)%Z.
Proof.
  intros H. unfold Game.waveSize.
  assert (0 <= score g / 1000)%Z by (apply Z.div_pos; lia). lia.
Qed.

(** C3.  Take a game in play with score at least 0, and a frame in which
    the asteroid list is empty once the collisions are done.  Whenever
    [update] returns, the field holds min(7, 5 + floor(score / 1000))
    asteroids, between 5 and 7, all of them large and at Euclidean distance
    at least 150 from the ship.  And [update] does return if
    [Math.random()] is fair, that is, keeps coming up with points far from
    the ship. *)
Theorem empty_field_spawns_wave (dt : R) (g : Game) (rng : RNG) :
  gameOver g = false ->
  (0 <= score g)%Z ->
  asteroids (fst (Game.stepEntities c dt g rng)) = [] ->
  (forall fuel g' rng',
     Game.update c fuel dt g rng = Some (g', rng') ->
     List.length (asteroids g') = Z.to_nat (Z.min 7 (5 + score g' / 1000)) /\
     (5 <= List.length (asteroids g') <= 7)%nat /\
     Forall (spawned_far_from (ship g')) (asteroids g')) /\
  (fair c (position (ship_obj (ship (fst (Game.stepEntities c dt g rng)))))
        (snd (Game.stepEntities c dt g rng)) ->
   exists fuel g' rng', Game.update c fuel dt g rng = Some (g', rng')).
Proof.
  intros Hover Hscore Hnil.
  pose proof (stepEntities_score_le dt g rng) as Hle.
  unfold Game.update. rewrite Hover.
  destruct (Game.stepEntities c dt g rng) as [g1 rng1]. simpl in *.
  rewrite Hnil. simpl. unfold Game.spawnAsteroids. split.
  - intros fuel g' rng' H.
    apply spawnLoop_sound in H.
    destruct H as ((new & Hnew & Hlen & Hall) & Hship & _ & Hsc & _).
    rewrite Hnil in Hnew. simpl in Hnew.
    rewrite Hnew, Hlen, Hship, Hsc.
    assert (Hb : (5 <= Game.waveSize g1 <= 7)%Z) by (apply waveSize_bounds; lia).
    unfold Game.waveSize in *. repeat split; auto; lia.
  - intros Hfair.
    destruct (spawnLoop_complete c (Z.to_nat (Game.waveSize g1)) g1 rng1 Hfair)
      as (fuel & [g' rng'] & H).
    exists fuel, g', rng'. exact H.
Qed.

End Frame.

(** ** A frame of the empty game *)

Lemma empty_game_step :
  Game.stepEntities canvas800 0 empty_game zero_rng =
  (with_asteroids []
     (with_bullets
        (filter (fun bullet => active (bul_obj bullet))
                (map (Bullet.update canvas800 0)
                     (bullets (Game.handleInput 0 empty_game))))
        (with_ship (Ship.update canvas800 0 (ship (Game.handleInput 0 empty_game)))
                   (Game.handleInput 0 empty_game))),
   zero_rng).
Proof. apply stepEntities_no_asteroids. reflexivity. Qed.

Lemma empty_game_ship_position :
  position (ship_obj (ship (fst (Game.stepEntities canvas800 0 empty_game zero_rng))))
  = mkVector2D (400 + 0 * 0) (300 + 0 * 0).
Proof.
  rewrite empty_game_step. cbn [fst].
  change (ship (with_asteroids [] (with_bullets ?b (with_ship ?s ?g)))) with s.
  destruct (handleInput_no_keys 0 empty_game (fun k => eq_refl)) as [-> _].
  rewrite Ship_update_position. unfold GameObject.update.
  rewrite wrapPosition_inside; [reflexivity|].
  unfold in_field, canvas_width, canvas_height; simpl. lra.
Qed.

Lemma zero_rng_fair_at_centre :
  fair canvas800 (mkVector2D (400 + 0 * 0) (300 + 0 * 0)) zero_rng.
Proof.
  intros n. exists 0%nat. unfold far_draw, distance, zero_rng; simpl.
  rewrite <- (sqrt_square 150) at 1 by lra.
  apply sqrt_le_1_alt. lra.
Qed.

Lemma empty_field_spawns_wave_witness :
  gameOver empty_game = false /\
  (0 <= score empty_game)%Z /\
  asteroids (fst (Game.stepEntities canvas800 0 empty_game zero_rng)) = [] /\
  exists fuel g' rng',
    Game.update canvas800 fuel 0 empty_game zero_rng = Some (g', rng') /\
    (5 <= List.length (asteroids g') <= 7)%nat /\
    Forall (spawned_far_from (ship g')) (asteroids g').
Proof.
  assert (H1 : gameOver empty_game = false) by reflexivity.
  assert (H2 : (0 <= score empty_game)%Z) by (simpl; lia).
  assert (H3 : asteroids (fst (Game.stepEntities canvas800 0 empty_game zero_rng)) = [])
    by (rewrite empty_game_step; reflexivity).
  destruct (empty_field_spawns_wave canvas800 0 empty_game zero_rng H1 H2 H3)
    as [Hsound Hcomplete].
  split; [exact H1|]. split; [exact H2|]. split; [exact H3|].
  destruct Hcomplete as (fuel & g' & rng' & Hu).
  { rewrite empty_game_ship_position, empty_game_step.
    exact zero_rng_fair_at_centre. }
  exists fuel, g', rng'. split; [exact Hu|].
  exact (proj2 (Hsound fuel g' rng' Hu)).
Defined.

(** ** The ship through the events of a game *)

Lemma Ship_update_timer (c : Canvas) (dt : R) (s : Ship) :
  invulnerable s = true ->
  invulnerableTime (Ship.update c dt s) = invulnerableTime s - dt /\
  (invulnerable (Ship.update c dt s) = true <-> 0 < invulnerableTime s - dt).
Proof.
  intros Hinv. unfold Ship.update; simpl. rewrite Hinv; simpl.
  destruct (Rleb (invulnerableTime s - dt) 0) eqn:Hcmp; simpl.
  - apply Rleb_true_iff in Hcmp. split; [reflexivity|].
    split; [discriminate|lra].
  - apply Rleb_false_iff in Hcmp. rewrite Hinv. tauto.
Qed.


Section ShipInGame.

Variable c : Canvas.





(** What [reset] leaves behind when it returns. *)
Lemma reset_result fuel g rng g' rng' :
  Game.reset c fuel g rng = Some (g', rng') ->
  ship g' = Ship.new (canvas_width c / 2) (canvas_height c / 2) /\
  bullets g' = [] /\ List.length (asteroids g') = 5%nat /\
  score g' = 0%Z /\ lives g' = 5%Z /\ gameOver g' = false /\
  canShoot g' = true /\ shootCooldown g' = 0 /\
  lastTime g' = lastTime g /\ keys g' = keys g.
Proof.
  unfold Game.reset, Game.spawnAsteroids.
  destruct (Game.spawnLoop c fuel (Z.to_nat 5) _ rng) as [[g1 rng1]|] eqn:E;
    [|discriminate].
  apply spawnLoop_sound in E. simpl in E.
  destruct E as ((new & Hnew & Hlen & _) & H1 & H2 & H3 & H4 & H5 & H6 & H7
                 & H8 & H9 & _).
  intros E; injection E as <- _. simpl.
  rewrite Hnew. repeat split; auto.
Qed.


End ShipInGame.

(** ** Invulnerability, game over and the speed limit *)

(** C10.  In [checkCollisions]: while the ship is invulnerable the lives
    and the ship are left as they are; a call takes at most one life, and
    only from a ship that is not invulnerable; and when a life is lost and
    some remain, the ship is at the centre of the canvas, invulnerable, with
    [invulnerableTime] 3.  The 3 counts simulated time: [Ship.update] takes
    [deltaTime] off it and the ship stays invulnerable exactly as long as
    the remainder is above zero. *)
Theorem invulnerable_keeps_lives_and_hit_respawns
  (c : Canvas) (g : Game) (rng : RNG) :
  let g' := fst (Game.checkCollisions c g rng) in
  (invulnerable (ship g) = true -> lives g' = lives g /\ ship g' = ship g) /\
  (lives g' = lives g \/ lives g' = (lives g - 1)%Z) /\
  (lives g' <> lives g -> invulnerable (ship g) = false) /\
  (lives g' <> lives g -> (0 < lives g')%Z ->
   position (ship_obj (ship g')) =
     mkVector2D (canvas_width c / 2) (canvas_height c / 2) /\
   invulnerable (ship g') = true /\
   invulnerableTime (ship g') = 3) /\
  (forall dt, invulnerable (ship g) = true ->
   invulnerableTime (Ship.update c dt (ship g)) = invulnerableTime (ship g) - dt /\
   (invulnerable (Ship.update c dt (ship g)) = true <->
    0 < invulnerableTime (ship g) - dt)).
Proof.
  cbv zeta. rewrite checkCollisions_bulletLoop. cbn [fst].
  pose proof (bulletLoop_frame (List.length (bullets g)) g rng) as Hf.
  cbv zeta in Hf. destruct Hf as (Hship & Hlives & _).
  set (g1 := fst (Game.bulletLoop (List.length (bullets g)) g rng)) in *.
  rewrite <- Hship, <- Hlives.
  assert (Htimer : forall dt, invulnerable (ship g1) = true ->
            invulnerableTime (Ship.update c dt (ship g1)) =
              invulnerableTime (ship g1) - dt /\
            (invulnerable (Ship.update c dt (ship g1)) = true <->
             0 < invulnerableTime (ship g1) - dt))
    by (intros dt; apply Ship_update_timer).
  destruct (invulnerable (ship g1)) eqn:Hinv; simpl.
  - repeat split; auto; try (intros; congruence); apply Htimer; reflexivity.
  - destruct (shipLoop_spec c (asteroids g1) g1) as [[-> _]|[-> _]].
    + repeat split; auto; intros; congruence.
    + rewrite loseLife_lives.
      split; [intros; congruence|].
      split; [right; reflexivity|].
      split; [reflexivity|].
      split; [|intros; congruence].
      intros _ Hpos. rewrite loseLife_respawn by exact Hpos.
      repeat split; reflexivity.
Qed.

Lemma invulnerable_keeps_lives_and_hit_respawns_witness :
  (invulnerable (ship (one_hit_game large)) = true /\
   lives (fst (Game.checkCollisions canvas800 (one_hit_game large) zero_rng)) =
   lives (one_hit_game large)) /\
  (let g' := fst (Game.checkCollisions canvas800 crash_game zero_rng) in
   lives g' <> lives crash_game /\ (0 < lives g')%Z /\
   position (ship_obj (ship g')) = mkVector2D (800 / 2) (600 / 2) /\
   invulnerable (ship g') = true /\
   invulnerableTime (ship g') = 3).
Proof.
  split.
  - split; [reflexivity|].
    apply (proj1 (invulnerable_keeps_lives_and_hit_respawns
                    canvas800 (one_hit_game large) zero_rng)).
    reflexivity.
  - cbv zeta.
    assert (Hl : lives (fst (Game.checkCollisions canvas800 crash_game zero_rng)) = 4%Z).
    { rewrite crash_checkCollisions, loseLife_lives. reflexivity. }
    assert (H1 : lives (fst (Game.checkCollisions canvas800 crash_game zero_rng))
                 <> lives crash_game).
    { rewrite Hl. discriminate. }
    assert (H2 : (0 < lives (fst (Game.checkCollisions canvas800 crash_game zero_rng)))%Z).
    { rewrite Hl. reflexivity. }
    split; [exact H1|]. split; [exact H2|].
    exact (proj1 (proj2 (proj2 (proj2 (invulnerable_keeps_lives_and_hit_respawns
                    canvas800 crash_game zero_rng)))) H1 H2).
Defined.





(** ** The same in binary64 *)

Module Rounding.

Import PrimFloat.
Local Open Scope float_scope.



End Rounding.

(** * Part III: further properties of the code *)

(** ** Vectors and collisions *)

Lemma polar_magnitude (a r : R) :
  0 <= r ->
  sqrt (cos a * r * (cos a * r) + sin a * r * (sin a * r)) = r.
Proof.
  intros Hr.
  replace (cos a * r * (cos a * r) + sin a * r * (sin a * r))
    with (r * r * ((sin a)² + (cos a)²)) by (unfold Rsqr; ring).
  rewrite sin2_cos2, Rmult_1_r. apply sqrt_square. exact Hr.
Qed.

(** X1.  [rotate] is a rotation: it keeps the magnitude of the vector,
    rotating by 0 changes nothing, and rotating by [a] and then by [b] is
    rotating by [a + b]. *)
Theorem rotate_is_a_rotation (v : Vector2D) (a b : R) :
  Vector2D.magnitude (Vector2D.rotate v a) = Vector2D.magnitude v /\
  Vector2D.rotate v 0 = v /\
  Vector2D.rotate (Vector2D.rotate v a) b = Vector2D.rotate v (a + b).
Proof.
  unfold Vector2D.magnitude, Vector2D.rotate; simpl. split; [|split].
  - f_equal.
    replace ((vx v * cos a - vy v * sin a) * (vx v * cos a - vy v * sin a) +
             (vx v * sin a + vy v * cos a) * (vx v * sin a + vy v * cos a))
      with ((vx v * vx v + vy v * vy v) * ((sin a)² + (cos a)²))
      by (unfold Rsqr; ring).
    rewrite sin2_cos2. ring.
  - rewrite cos_0, sin_0. destruct v as [x y]; simpl. f_equal; ring.
  - rewrite cos_plus, sin_plus. f_equal; ring.
Qed.

(** X2.  [checkCollision] is symmetric: [a] touches [b] exactly when [b]
    touches [a].  Objects at the same place touch as soon as their radii
    add up to more than zero. *)
Theorem checkCollision_symmetric (a b : GameObject) :
  GameObject.checkCollision a b = GameObject.checkCollision b a /\
  (position a = position b -> 0 < radius a + radius b ->
   GameObject.checkCollision a b = true).
Proof.
  split; [|apply checkCollision_same_place].
  unfold GameObject.checkCollision.
  rewrite (Rplus_comm (radius b) (radius a)). f_equal. f_equal. ring.
Qed.

Lemma checkCollision_symmetric_witness :
  position (ship_obj (ship crash_game)) = position (ast_obj crash_rock) /\
  0 < radius (ship_obj (ship crash_game)) + radius (ast_obj crash_rock) /\
  GameObject.checkCollision (ship_obj (ship crash_game)) (ast_obj crash_rock) = true.
Proof.
  assert (H1 : position (ship_obj (ship crash_game)) = position (ast_obj crash_rock)).
  { unfold crash_rock. rewrite Asteroid_new_position. reflexivity. }
  assert (H2 : 0 < radius (ship_obj (ship crash_game)) + radius (ast_obj crash_rock)).
  { unfold crash_rock. rewrite Asteroid_new_radius. simpl. lra. }
  split; [exact H1|]. split; [exact H2|].
  exact (proj2 (checkCollision_symmetric _ _) H1 H2).
Defined.

(** X3.  [wrapPosition] leaves an object that is inside the field exactly
    as it is, and wrapping twice is the same as wrapping once. *)
Theorem wrapPosition_idempotent (c : Canvas) (o : GameObject) :
  (in_field c o -> GameObject.wrapPosition c o = o) /\
  GameObject.wrapPosition c (GameObject.wrapPosition c o) =
  GameObject.wrapPosition c o.
Proof.
  assert (Hin : forall o', in_field c o' -> GameObject.wrapPosition c o' = o').
  { intros o' H. pose proof (wrapPosition_inside c o' H) as Hp.
    destruct o' as [p v r rad act].
    unfold GameObject.wrapPosition in *. simpl in *.
    unfold set_position; simpl. rewrite Hp. reflexivity. }
  split; [apply Hin|]. apply Hin. apply wrapPosition_in_field.
Qed.

Lemma wrapPosition_idempotent_witness :
  in_field canvas800 (GameObject.new 400 300) /\
  GameObject.wrapPosition canvas800 (GameObject.new 400 300) = GameObject.new 400 300.
Proof.
  assert (H : in_field canvas800 (GameObject.new 400 300)).
  { unfold in_field, canvas_width, canvas_height; simpl. lra. }
  split; [exact H|].
  exact (proj1 (wrapPosition_idempotent canvas800 _) H).
Defined.

(** ** Bullets *)

Lemma Bullet_update_fields (c : Canvas) (dt : R) (b : Bullet) :
  lifetime (Bullet.update c dt b) = lifetime b - dt /\
  velocity (bul_obj (Bullet.update c dt b)) = velocity (bul_obj b) /\
  radius (bul_obj (Bullet.update c dt b)) = radius (bul_obj b) /\
  speed (Bullet.update c dt b) = speed b /\
  active (bul_obj (Bullet.update c dt b)) =
    (if Rleb (lifetime b - dt) 0 then false else active (bul_obj b)).
Proof.
  unfold Bullet.update; simpl. destruct (Rleb (lifetime b - dt) 0); simpl; tauto.
Qed.

Lemma Bullet_updates_inactive (c : Canvas) (dts : list R) (b : Bullet) :
  active (bul_obj b) = false ->
  active (bul_obj (Bullet_updates c dts b)) = false.
Proof.
  revert b. induction dts as [|dt dts IH]; intros b H; simpl; [exact H|].
  apply IH. destruct (Bullet_update_fields c dt b) as (_ & _ & _ & _ & ->).
  rewrite H. destruct (Rleb _ 0); reflexivity.
Qed.

Lemma Bullet_updates_spec (c : Canvas) (dts : list R) (b : Bullet) :
  lifetime (Bullet_updates c dts b) = lifetime b - Rsum dts /\
  velocity (bul_obj (Bullet_updates c dts b)) = velocity (bul_obj b) /\
  (active (bul_obj b) = true -> 0 < lifetime b -> Forall (fun dt => 0 <= dt) dts ->
   (active (bul_obj (Bullet_updates c dts b)) = true <-> Rsum dts < lifetime b)).
Proof.
  revert b. induction dts as [|dt dts IH]; intros b; simpl.
  - split; [lra|]. split; [reflexivity|]. intros Ha Hl _. rewrite Ha. split; auto; lra.
  - destruct (Bullet_update_fields c dt b) as (Hl & Hv & _ & _ & Hact).
    destruct (IH (Bullet.update c dt b)) as (IHl & IHv & IHa).
    split; [rewrite IHl, Hl; lra|]. split; [rewrite IHv, Hv; reflexivity|].
    intros Ha Hpos Hall. inversion Hall as [|? ? Hdt Hrest]; subst.
    assert (Hsum : 0 <= Rsum dts).
    { clear -Hrest. induction Hrest; simpl; lra. }
    destruct (Rleb (lifetime b - dt) 0) eqn:Hcmp.
    + apply Rleb_true_iff in Hcmp.
      rewrite Bullet_updates_inactive by (rewrite Hact; reflexivity).
      split; [discriminate|lra].
    + apply Rleb_false_iff in Hcmp.
      rewrite IHa; [rewrite Hl; split; lra| | |exact Hrest].
      * rewrite Hact, Ha. reflexivity.
      * rewrite Hl. exact Hcmp.
Qed.

(** X4.  A bullet leaves the ship at speed 600 in the direction it is given
    and keeps that velocity.  Its lifetime starts at 1.5 and goes down by
    every [deltaTime]; over frames that do not run backwards it is active
    exactly as long as less than 1.5 seconds have passed. *)
Theorem bullet_flies_for_one_and_a_half_seconds
  (c : Canvas) (x y rot : R) (dts : list R) :
  let b := Bullet_updates c dts (Bullet.new x y rot) in
  Vector2D.magnitude (velocity (bul_obj b)) = 600 /\
  velocity (bul_obj b) = mkVector2D (cos rot * 600) (sin rot * 600) /\
  lifetime b = 1.5 - Rsum dts /\
  (Forall (fun dt => 0 <= dt) dts ->
   (active (bul_obj b) = true <-> Rsum dts < 1.5)).
Proof.
  cbv zeta.
  destruct (Bullet_updates_spec c dts (Bullet.new x y rot)) as (Hl & Hv & Ha).
  rewrite Hv, Hl. simpl. split; [|split; [reflexivity|split; [reflexivity|]]].
  - unfold Vector2D.magnitude, Vector2D.multiply; simpl.
    apply polar_magnitude. lra.
  - intros Hall. apply Ha; simpl; [reflexivity|lra|exact Hall].
Qed.

Lemma bullet_flies_for_one_and_a_half_seconds_witness :
  Forall (fun dt => 0 <= dt) [1; 0.25; 0.25] /\
  active (bul_obj (Bullet_updates canvas800 [1; 0.25; 0.25] (Bullet.new 400 300 0)))
  = false.
Proof.
  assert (H : Forall (fun dt => 0 <= dt) [1; 0.25; 0.25])
    by (repeat constructor; lra).
  split; [exact H|].
  destruct (bullet_flies_for_one_and_a_half_seconds
              canvas800 400 300 0 [1; 0.25; 0.25]) as (_ & _ & _ & Ha).
  apply Bool.not_true_is_false. intros E.
  apply (proj1 (Ha H)) in E. simpl in E. lra.
Defined.

(** ** The asteroid constructor *)

Lemma unit_range_skip (k : nat) (rng : RNG) :
  unit_range rng -> unit_range (skip k rng).
Proof. intros H n. apply H. Qed.

Lemma makeVertices_shape (n i vc : nat) (r : R) (rng : RNG) :
  0 <= r -> unit_range rng ->
  List.length (fst (Asteroid.makeVertices n i vc r rng)) = n /\
  Forall (fun v => 0.8 * r <= Vector2D.magnitude v <= 1.2 * r)
         (fst (Asteroid.makeVertices n i vc r rng)).
Proof.
  intros Hr. revert i rng. induction n as [|n IH]; intros i rng Hu; simpl.
  - split; [reflexivity|constructor].
  - destruct (IH (S i) (skip 1 rng) (unit_range_skip 1 rng Hu)) as [IHl IHf].
    destruct (Asteroid.makeVertices n (S i) vc r (skip 1 rng)) as [vs rng2].
    simpl in *. split; [rewrite IHl; reflexivity|].
    constructor; [|exact IHf].
    unfold Vector2D.magnitude; simpl.
    pose proof (Hu 0%nat) as H0.
    replace (cos (INR i / INR vc * PI * 2) * r * (0.8 + rng 0%nat * 0.4) *
             (cos (INR i / INR vc * PI * 2) * r * (0.8 + rng 0%nat * 0.4)) +
             sin (INR i / INR vc * PI * 2) * r * (0.8 + rng 0%nat * 0.4) *
             (sin (INR i / INR vc * PI * 2) * r * (0.8 + rng 0%nat * 0.4)))
      with (cos (INR i / INR vc * PI * 2) * (r * (0.8 + rng 0%nat * 0.4)) *
            (cos (INR i / INR vc * PI * 2) * (r * (0.8 + rng 0%nat * 0.4))) +
            sin (INR i / INR vc * PI * 2) * (r * (0.8 + rng 0%nat * 0.4)) *
            (sin (INR i / INR vc * PI * 2) * (r * (0.8 + rng 0%nat * 0.4))))
      by ring.
    rewrite polar_magnitude by nra. nra.
Qed.

Lemma Math_floor_unit_times_4 (r : R) :
  0 <= r < 1 -> (0 <= Math_floor (r * 4) <= 3)%Z.
Proof.
  intros [H0 H1]. unfold Math_floor.
  destruct (base_Int_part (r * 4)) as [Hlo Hhi].
  split.
  - assert (H : IZR (-1) < IZR (Int_part (r * 4))) by (simpl; lra).
    apply lt_IZR in H. lia.
  - assert (H : IZR (Int_part (r * 4)) < IZR 4) by (simpl; lra).
    apply lt_IZR in H. lia.
Qed.

Lemma Asteroid_new_velocity (x y : R) (sz : Size) (rng : RNG) :
  velocity (ast_obj (fst (Asteroid.new x y sz rng))) =
  let speed := match sz with large => 50 | medium => 80 | small => 120 end in
  mkVector2D (cos (rng 2%nat * PI * 2) * speed) (sin (rng 2%nat * PI * 2) * speed).
Proof.
  unfold Asteroid.new, Math_random. cbv beta iota zeta.
  destruct (Asteroid.makeVertices _ _ _ _ _). destruct sz; reflexivity.
Qed.

Lemma Asteroid_new_vertices (x y : R) (sz : Size) (rng : RNG) :
  vertices (fst (Asteroid.new x y sz rng)) =
  let vertexCount := Z.to_nat (8 + Math_floor (rng 3%nat * 4)) in
  fst (Asteroid.makeVertices vertexCount 0 vertexCount
         (match sz with large => 40 | medium => 25 | small => 15 end)
         (skip 4 rng)).
Proof.
  unfold Asteroid.new, Math_random. cbv beta iota zeta.
  change (skip 1 (skip 1 (skip 1 (skip 1 rng)))) with (skip 4 rng).
  change (skip 1 (skip 1 (skip 1 rng)) 0%nat) with (rng 3%nat).
  replace (if Size_eqb sz large then 40 else if Size_eqb sz medium then 25 else 15)
    with (match sz with large => 40 | medium => 25 | small => 15 end)
    by (destruct sz; reflexivity).
  destruct (Asteroid.makeVertices _ _ _ _ _). reflexivity.
Qed.

(** X5.  What the constructor gives an asteroid, whatever [Math.random()]
    returns: radius 40, 25 or 15 for large, medium and small, and a
    velocity (cos(angle) * speed, sin(angle) * speed) with speed 50, 80 or
    120.  Computed with exact real numbers, the magnitude of that velocity
    is the speed, and with [Math.random()] in its range from 0 to 1 the
    outline has between 8 and 11 vertices, each between 0.8 and 1.2 radii
    from the centre.  (In binary64 the magnitudes are these values up to
    rounding.) *)
Theorem asteroid_constructor_shape (x y : R) (sz : Size) (rng : RNG) :
  let a := fst (Asteroid.new x y sz rng) in
  let speed := match sz with large => 50 | medium => 80 | small => 120 end in
  radius (ast_obj a) = match sz with large => 40 | medium => 25 | small => 15 end /\
  (exists angle,
     velocity (ast_obj a) = mkVector2D (cos angle * speed) (sin angle * speed)) /\
  Vector2D.magnitude (velocity (ast_obj a)) = speed /\
  (unit_range rng ->
   (8 <= List.length (vertices a) <= 11)%nat /\
   Forall (fun v => 0.8 * radius (ast_obj a) <= Vector2D.magnitude v
                    <= 1.2 * radius (ast_obj a)) (vertices a)).
Proof.
  cbv zeta. split; [apply Asteroid_new_radius|]. split; [|split].
  - exists (rng 2%nat * PI * 2). apply Asteroid_new_velocity.
  - rewrite Asteroid_new_velocity. cbv zeta.
    unfold Vector2D.magnitude. cbn [vx vy].
    apply polar_magnitude. destruct sz; lra.
  - intros Hu. rewrite Asteroid_new_vertices, Asteroid_new_radius. cbv zeta.
    set (rad := match sz with large => 40 | medium => 25 | small => 15 end).
    set (vc := Z.to_nat (8 + Math_floor (rng 3%nat * 4))).
    assert (Hrad : 0 <= rad) by (unfold rad; destruct sz; lra).
    destruct (makeVertices_shape vc 0 vc rad (skip 4 rng) Hrad
                (unit_range_skip 4 rng Hu)) as [Hlen Hall].
    split; [|exact Hall].
    rewrite Hlen. unfold vc.
    pose proof (Math_floor_unit_times_4 (rng 3%nat) (Hu 3%nat)). lia.
Qed.

Lemma asteroid_constructor_shape_witness :
  unit_range zero_rng /\
  (8 <= List.length (vertices (fst (Asteroid.new 400 300 large zero_rng))) <= 11)%nat.
Proof.
  assert (H : unit_range zero_rng) by (intros n; unfold zero_rng; lra).
  split; [exact H|].
  exact (proj1 (proj2 (proj2 (proj2
           (asteroid_constructor_shape 400 300 large zero_rng))) H)).
Defined.

(** ** How long the ship stays invulnerable *)

Lemma Ship_update_vulnerable (c : Canvas) (dt : R) (s : Ship) :
  invulnerable s = false -> invulnerable (Ship.update c dt s) = false.
Proof. intros H. unfold Ship.update; simpl. rewrite H. exact H. Qed.

Lemma Ship_updates_vulnerable (c : Canvas) (dts : list R) (s : Ship) :
  invulnerable s = false -> invulnerable (Ship_updates c dts s) = false.
Proof.
  revert s. induction dts as [|dt dts IH]; intros s H; simpl; [exact H|].
  apply IH, Ship_update_vulnerable, H.
Qed.

Lemma Rsum_nonneg (l : list R) :
  Forall (fun x => 0 <= x) l -> 0 <= Rsum l.
Proof. induction 1; simpl; lra. Qed.

Lemma Ship_updates_timer (c : Canvas) (dts : list R) (s : Ship) :
  invulnerable s = true -> 0 < invulnerableTime s ->
  Forall (fun dt => 0 <= dt) dts ->
  (invulnerable (Ship_updates c dts s) = true <-> Rsum dts < invulnerableTime s).
Proof.
  revert s. induction dts as [|dt dts IH]; intros s Hinv Hpos Hall; simpl.
  - rewrite Hinv. split; auto; lra.
  - inversion Hall as [|? ? Hdt Hrest]; subst.
    pose proof (Rsum_nonneg dts Hrest) as Hsum.
    destruct (Ship_update_timer c dt s Hinv) as [Ht Hi].
    destruct (Rle_or_lt (invulnerableTime s - dt) 0) as [Hle|Hgt].
    + rewrite Ship_updates_vulnerable.
      * split; [discriminate|lra].
      * apply Bool.not_true_is_false. intros E. apply Hi in E. lra.
    + rewrite IH; [rewrite Ht; split; lra| | |exact Hrest].
      * apply Hi. exact Hgt.
      * rewrite Ht. exact Hgt.
Qed.

(** X6.  After [respawn] the ship is invulnerable for three seconds of
    simulated time: over frames that do not run backwards it is still
    invulnerable after the frames [dts] exactly when they add up to less
    than 3.  A ship that is not invulnerable never becomes so by [update]. *)
Theorem respawn_invulnerable_for_three_seconds
  (c : Canvas) (x y : R) (s : Ship) (dts : list R) :
  (Forall (fun dt => 0 <= dt) dts ->
   (invulnerable (Ship_updates c dts (Ship.respawn x y s)) = true <->
    Rsum dts < 3)) /\
  (invulnerable s = false -> invulnerable (Ship_updates c dts s) = false).
Proof.
  split; [|apply Ship_updates_vulnerable].
  intros Hall. apply (Ship_updates_timer c dts (Ship.respawn x y s));
    [reflexivity|simpl; lra|exact Hall].
Qed.

Lemma respawn_invulnerable_for_three_seconds_witness :
  Forall (fun dt => 0 <= dt) [1; 1; 0.5] /\
  invulnerable (Ship_updates canvas800 [1; 1; 0.5]
                  (Ship.respawn 400 300 (Ship.new 400 300))) = true.
Proof.
  assert (H : Forall (fun dt => 0 <= dt) [1; 1; 0.5]) by (repeat constructor; lra).
  split; [exact H|].
  apply (proj1 (respawn_invulnerable_for_three_seconds
                  canvas800 400 300 (Ship.new 400 300) [1; 1; 0.5]) H).
  simpl. lra.
Defined.

(** ** Steering and shooting *)

Lemma handleInput_stages (dt : R) (g : Game) :
  Game.handleInput dt g =
  if gameOver g then g else fire_stage dt (steer_stage dt g).
Proof. reflexivity. Qed.

Lemma Ship_thrust_position (forward : bool) (dt : R) (s : Ship) :
  position (ship_obj (Ship.thrust forward dt s)) = position (ship_obj s).
Proof. unfold Ship.thrust; simpl. destruct (Rgtb _ _); reflexivity. Qed.

(** What the steering keys leave alone: everything but the ship, and of
    the ship its position. *)
Lemma steer_stage_frame (dt : R) (g : Game) :
  let g' := steer_stage dt g in
  bullets g' = bullets g /\ canShoot g' = canShoot g /\
  shootCooldown g' = shootCooldown g /\ keys g' = keys g /\
  position (ship_obj (ship g')) = position (ship_obj (ship g)).
Proof.
  unfold steer_stage.
  set (g1 := if keys g "w"%string then _ else g).
  assert (H1 : bullets g1 = bullets g /\ canShoot g1 = canShoot g /\
               shootCooldown g1 = shootCooldown g /\ keys g1 = keys g /\
               position (ship_obj (ship g1)) = position (ship_obj (ship g))).
  { unfold g1; destruct (keys g "w"%string); repeat split;
      apply Ship_thrust_position. }
  clearbody g1. destruct H1 as (<- & <- & <- & <- & <-).
  set (g2 := if keys g1 "s"%string then _ else g1).
  assert (H2 : bullets g2 = bullets g1 /\ canShoot g2 = canShoot g1 /\
               shootCooldown g2 = shootCooldown g1 /\ keys g2 = keys g1 /\
               position (ship_obj (ship g2)) = position (ship_obj (ship g1))).
  { unfold g2; destruct (keys g1 "s"%string); repeat split;
      apply Ship_thrust_position. }
  clearbody g2. destruct H2 as (<- & <- & <- & <- & <-).
  set (g3 := if keys g2 "a"%string then _ else g2).
  assert (H3 : bullets g3 = bullets g2 /\ canShoot g3 = canShoot g2 /\
               shootCooldown g3 = shootCooldown g2 /\ keys g3 = keys g2 /\
               position (ship_obj (ship g3)) = position (ship_obj (ship g2))).
  { unfold g3; destruct (keys g2 "a"%string); repeat split. }
  clearbody g3. destruct H3 as (<- & <- & <- & <- & <-).
  cbv zeta. destruct (keys g3 "d"%string); repeat split.
Qed.

Lemma fire_stage_ship (dt : R) (g : Game) :
  ship (fire_stage dt g) = ship g.
Proof.
  unfold fire_stage.
  destruct (keys g " "%string && canShoot g); simpl;
    (destruct (negb (keys g " "%string)); simpl);
    (destruct (Rgtb _ 0); simpl; [|reflexivity]);
    destruct (Rleb _ 0); reflexivity.
Qed.

Lemma fire_stage_bullets (dt : R) (g : Game) :
  bullets (fire_stage dt g) =
  if keys g " "%string && canShoot g
  then bullets g ++ [Bullet.new (vx (position (ship_obj (ship g))))
                                (vy (position (ship_obj (ship g))))
                                (rotation (ship_obj (ship g)))]
  else bullets g.
Proof.
  unfold fire_stage.
  destruct (keys g " "%string && canShoot g); simpl;
    (destruct (negb (keys g " "%string)); simpl);
    (destruct (Rgtb _ 0); simpl; [|reflexivity]);
    destruct (Rleb _ 0); reflexivity.
Qed.

Lemma fire_stage_released (dt : R) (g : Game) :
  keys g " "%string = false -> canShoot (fire_stage dt g) = true.
Proof.
  intros Hk. unfold fire_stage. rewrite Hk. simpl. rewrite Hk. simpl.
  destruct (Rgtb _ 0); simpl; [|reflexivity].
  destruct (Rleb _ 0); reflexivity.
Qed.

Lemma fire_stage_held (dt : R) (g : Game) :
  keys g " "%string = true ->
  let cooldown := if canShoot g then 0.25 else shootCooldown g in
  0 < cooldown ->
  shootCooldown (fire_stage dt g) = cooldown - dt /\
  (canShoot (fire_stage dt g) = true <-> cooldown - dt <= 0).
Proof.
  intros Hk cooldown Hpos. unfold fire_stage. rewrite Hk. simpl.
  unfold cooldown in *. destruct (canShoot g) eqn:Hc; simpl; rewrite Hk; simpl.
  - assert (E : Rgtb 0.25 0 = true) by (apply Rltb_true_iff; lra).
    rewrite E. simpl.
    destruct (Rleb (0.25 - dt) 0) eqn:Hcmp; simpl; split; auto.
    + apply Rleb_true_iff in Hcmp. tauto.
    + apply Rleb_false_iff in Hcmp. split; [discriminate|lra].
  - assert (E : Rgtb (shootCooldown g) 0 = true) by (apply Rltb_true_iff; lra).
    rewrite E. simpl.
    destruct (Rleb (shootCooldown g - dt) 0) eqn:Hcmp; simpl; split; auto.
    + apply Rleb_true_iff in Hcmp. tauto.
    + apply Rleb_false_iff in Hcmp. rewrite Hc. split; [discriminate|lra].
Qed.

(** X7.  [handleInput] for a game in play.  It fires a bullet exactly when
    the space bar is down and [canShoot] holds: the bullet is appended to
    the list, starts at the ship and flies where the ship points; in every
    other case the bullets are as before.  The ship is not moved.
    Releasing the space bar re-arms the gun at once, whatever is left of the
    cooldown; holding it re-arms the gun only when the cooldown, 0.25 after
    a shot, has run out. *)
Theorem handleInput_shoots_when_armed (dt : R) (g : Game) :
  gameOver g = false ->
  let g' := Game.handleInput dt g in
  bullets g' =
    (if keys g " "%string && canShoot g
     then bullets g ++ [Bullet.new (vx (position (ship_obj (ship g'))))
                                   (vy (position (ship_obj (ship g'))))
                                   (rotation (ship_obj (ship g')))]
     else bullets g) /\
  position (ship_obj (ship g')) = position (ship_obj (ship g)) /\
  (keys g " "%string = false -> canShoot g' = true) /\
  (keys g " "%string = true ->
   let cooldown := if canShoot g then 0.25 else shootCooldown g in
   0 < cooldown ->
   shootCooldown g' = cooldown - dt /\
   (canShoot g' = true <-> cooldown - dt <= 0)).
Proof.
  intros Hover. cbv zeta. rewrite handleInput_stages, Hover.
  pose proof (steer_stage_frame dt g) as Hf. cbv zeta in Hf.
  destruct Hf as (Hb & Hc & Hcd & Hk & Hp).
  rewrite fire_stage_ship, fire_stage_bullets, Hb, Hc, Hk, Hp.
  split; [rewrite <- Hp; reflexivity|]. split; [reflexivity|]. split.
  - intros Hup. apply fire_stage_released. rewrite Hk. exact Hup.
  - intros Hdown Hpos.
    rewrite <- Hc, <- Hcd in *. apply fire_stage_held; [rewrite Hk|]; assumption.
Qed.

Lemma handleInput_shoots_when_armed_witness :
  gameOver empty_game = false /\
  keys empty_game " "%string = false /\
  bullets (Game.handleInput 0 empty_game) = [] /\
  canShoot (Game.handleInput 0 empty_game) = true.
Proof.
  destruct (handleInput_shoots_when_armed 0 empty_game eq_refl)
    as (Hb & _ & Hup & _).
  split; [reflexivity|]. split; [reflexivity|].
  split; [exact Hb|apply Hup; reflexivity].
Defined.

(** ** One frame of the game, as a whole *)

Section WholeFrame.

Variable c : Canvas.

(** The collision pass is the bullet loop, followed or not by the loss of a
    life. *)
Lemma checkCollisions_outcome g rng :
  let g1 := fst (Game.bulletLoop (List.length (bullets g)) g rng) in
  fst (Game.checkCollisions c g rng) = g1 \/
  (invulnerable (ship g1) = false /\
   fst (Game.checkCollisions c g rng) = Game.loseLife c g1).
Proof.
  cbv zeta. rewrite checkCollisions_bulletLoop. cbn [fst].
  set (g1 := fst (Game.bulletLoop (List.length (bullets g)) g rng)).
  destruct (invulnerable (ship g1)) eqn:Hinv; simpl; [left; reflexivity|].
  destruct (shipLoop_spec c (asteroids g1) g1) as [[-> _]|[-> _]]; auto.
Qed.

Lemma loseLife_frame g :
  let g' := Game.loseLife c g in
  bullets g' = bullets g /\ asteroids g' = asteroids g /\ score g' = score g /\
  lastTime g' = lastTime g /\ keys g' = keys g /\
  (gameOver g' = true <-> (gameOver g = true \/ lives g - 1 <= 0)%Z).
Proof.
  unfold Game.loseLife; simpl.
  destruct (Z.leb_spec (lives g - 1) 0); simpl; repeat split; auto;
    try tauto; intros [H'|H']; auto; lia.
Qed.

(** The lives, the score and the end of the game over the first part of a
    frame. *)
Lemma stepEntities_lives dt g rng :
  gameOver g = false ->
  let g' := fst (Game.stepEntities c dt g rng) in
  (lives g' = lives g \/ lives g' = lives g - 1)%Z /\
  (gameOver g' = true <-> lives g' <> lives g /\ (lives g' <= 0)%Z) /\
  lastTime g' = lastTime g /\ keys g' = keys g.
Proof.
  intros Hover. cbv zeta. unfold Game.stepEntities.
  pose proof (handleInput_frame dt g) as Hh.
  unfold handleInput_untouched in Hh. injection Hh as _ _ Hl Hgo Hlt Hk _.
  set (g0 := with_asteroids _ _).
  assert (H0 : lives g0 = lives g /\ gameOver g0 = false /\
               lastTime g0 = lastTime g /\ keys g0 = keys g).
  { unfold g0; simpl. rewrite Hl, Hgo, Hlt, Hk. auto. }
  clearbody g0. destruct H0 as (<- & Hgo0 & <- & <-).
  pose proof (bulletLoop_frame (List.length (bullets g0)) g0 rng) as Hf.
  cbv zeta in Hf. destruct Hf as (_ & Hl1 & Hgo1 & _ & _ & Hlt1 & Hk1).
  destruct (checkCollisions_outcome g0 rng) as [->|[_ ->]].
  - rewrite Hl1, Hgo1, Hgo0, Hlt1, Hk1.
    repeat split; auto; try discriminate. intros [H _]. congruence.
  - pose proof (loseLife_frame
                  (fst (Game.bulletLoop (List.length (bullets g0)) g0 rng))) as Hll.
    cbv zeta in Hll. destruct Hll as (_ & _ & _ & -> & -> & Hgo2).
    rewrite loseLife_lives, Hl1, Hlt1, Hk1.
    split; [right; reflexivity|]. split; [|auto].
    rewrite Hgo2, Hl1, Hgo1, Hgo0. split.
    + intros [H|H]; [discriminate|]. split; lia.
    + intros [_ H]. right. exact H.
Qed.

Lemma update_cases fuel dt g rng g' rng' :
  gameOver g = false ->
  Game.update c fuel dt g rng = Some (g', rng') ->
  let g1 := fst (Game.stepEntities c dt g rng) in
  ship g' = ship g1 /\ bullets g' = bullets g1 /\ score g' = score g1 /\
  lives g' = lives g1 /\ gameOver g' = gameOver g1 /\
  lastTime g' = lastTime g1 /\ keys g' = keys g1 /\ dom g' = dom g1 /\
  canShoot g' = canShoot g1 /\ shootCooldown g' = shootCooldown g1 /\
  exists new, asteroids g' = asteroids g1 ++ new /\
              Forall (spawned_far_from (ship g1)) new /\
              (asteroids g1 <> [] -> new = []).
Proof.
  intros Hover. unfold Game.update. rewrite Hover.
  destruct (Game.stepEntities c dt g rng) as [g1 rng1]. cbn [fst].
  destruct (asteroids g1) as [|a l] eqn:Ha; simpl.
  - unfold Game.spawnAsteroids. intros H. apply spawnLoop_sound in H.
    destruct H as ((new & Hnew & _ & Hall) & H1 & H2 & H3 & H4 & H5 & H6 & H7
                   & H8 & H9 & H10 & _).
    repeat split; auto. exists new. rewrite Hnew, Ha. repeat split; auto.
    intros H; contradiction.
  - intros H. injection H as <- <-. repeat split; auto.
    exists []. rewrite app_nil_r. repeat split; auto.
Qed.

(** X8.  One [update] of a game in play: the score does not go down; at
    most one life is lost; the game is over afterwards exactly when the
    frame took a life and none is left; the keyboard map and the time stamp
    of the last frame are not touched. *)
Theorem update_counts_lives_and_score fuel dt g rng g' rng' :
  gameOver g = false ->
  Game.update c fuel dt g rng = Some (g', rng') ->
  (score g <= score g')%Z /\
  (lives g' = lives g \/ lives g' = lives g - 1)%Z /\
  (gameOver g' = true <-> lives g' <> lives g /\ (lives g' <= 0)%Z) /\
  keys g' = keys g /\ lastTime g' = lastTime g.
Proof.
  intros Hover Hu.
  destruct (update_cases fuel dt g rng g' rng' Hover Hu)
    as (_ & _ & -> & -> & -> & -> & -> & _).
  pose proof (stepEntities_score_le c dt g rng).
  pose proof (stepEntities_lives dt g rng Hover) as Hl. cbv zeta in Hl.
  tauto.
Qed.

End WholeFrame.

(** The empty game gets through a frame, with [Math.random()] stuck at 0. *)
Lemma empty_game_update :
  exists fuel g' rng',
    Game.update canvas800 fuel 0 empty_game zero_rng = Some (g', rng').
Proof.
  unfold Game.update. change (gameOver empty_game) with false. cbv iota.
  pose proof empty_game_ship_position as Hpos.
  rewrite empty_game_step in *. cbn [fst snd] in *.
  change (asteroids (with_asteroids [] ?g)) with (@nil Asteroid). simpl Nat.eqb.
  cbv iota. unfold Game.spawnAsteroids.
  match goal with
  | |- exists fuel g' rng', Game.spawnLoop _ fuel ?n ?g ?r = _ =>
      destruct (spawnLoop_complete canvas800 n g r) as (fuel & [g' rng'] & H)
  end.
  - rewrite Hpos. exact zero_rng_fair_at_centre.
  - exists fuel, g', rng'. exact H.
Qed.

Lemma update_counts_lives_and_score_witness :
  gameOver empty_game = false /\
  exists fuel g' rng',
    Game.update canvas800 fuel 0 empty_game zero_rng = Some (g', rng') /\
    (score empty_game <= score g')%Z /\
    (gameOver g' = true <-> lives g' <> lives empty_game /\ (lives g' <= 0)%Z).
Proof.
  split; [reflexivity|].
  destruct empty_game_update as (fuel & g' & rng' & H).
  exists fuel, g', rng'. split; [exact H|].
  destruct (update_counts_lives_and_score canvas800 fuel 0 empty_game zero_rng
              g' rng' eq_refl H) as (H1 & _ & H3 & _).
  split; [exact H1|exact H3].
Defined.

(** ** What is on the field after a frame *)

Lemma removeAt_incl {A : Type} (i : nat) (l : list A) : incl (removeAt i l) l.
Proof.
  unfold removeAt. intros x Hin. apply in_app_or in Hin.
  destruct Hin as [H|H].
  - rewrite <- (firstn_skipn i l). apply in_or_app. left. exact H.
  - rewrite <- (firstn_skipn (S i) l). apply in_or_app. right. exact H.
Qed.

Lemma unit_range_suffix (rng' rng : RNG) :
  suffix_of rng' rng -> unit_range rng -> unit_range rng'.
Proof. intros [m Hm] Hu n. rewrite Hm. apply Hu. Qed.

Lemma split_positions (a : Asteroid) (rng : RNG) :
  Forall (fun child => position (ast_obj child) = position (ast_obj a))
         (fst (Asteroid.split a rng)).
Proof.
  unfold Asteroid.split.
  destruct (Size_eqb (size a) small); [constructor|].
  destruct (splitLoop_two a (if Size_eqb (size a) large then medium else small) rng)
    as (a1 & a2 & -> & _ & _ & H1 & H2).
  repeat constructor; assumption.
Qed.

Lemma split_suffix (a : Asteroid) (rng : RNG) :
  suffix_of (snd (Asteroid.split a rng)) rng.
Proof.
  unfold Asteroid.split.
  destruct (Size_eqb (size a) small); [apply suffix_of_refl|]. simpl.
  set (sz := if Size_eqb (size a) large then medium else small).
  pose proof (Asteroid_new_suffix (vx (position (ast_obj a)))
                (vy (position (ast_obj a))) sz rng) as S1.
  destruct (Asteroid.new _ _ sz rng) as [a1 r1]. simpl in S1.
  pose proof (Asteroid_new_suffix (vx (position (ast_obj a)))
                (vy (position (ast_obj a))) sz r1) as S2.
  destruct (Asteroid.new _ _ sz r1) as [a2 r2]. simpl in *.
  eapply suffix_of_trans; eassumption.
Qed.

Lemma bulletLoop_suffix (n : nat) (g : Game) (rng : RNG) :
  suffix_of (snd (Game.bulletLoop n g rng)) rng.
Proof.
  revert g rng. induction n as [|i IH]; intros g rng; simpl.
  - apply suffix_of_refl.
  - destruct (nth_error (bullets g) i) as [b|]; [|apply suffix_of_refl].
    destruct (asteroidLoop_spec (List.length (asteroids g)) i b g rng (le_n _))
      as [[Heq _]|(j & a & _ & _ & _ & Heq)]; rewrite Heq.
    + apply IH.
    + pose proof (hitAsteroid_rng i j a g rng) as Hrng.
      destruct (Game.hitAsteroid i j a g rng) as [g1 rng1]; simpl in Hrng.
      eapply suffix_of_trans; [apply IH|].
      rewrite Hrng. apply split_suffix.
Qed.

Lemma stepEntities_suffix (c : Canvas) (dt : R) (g : Game) (rng : RNG) :
  suffix_of (snd (Game.stepEntities c dt g rng)) rng.
Proof.
  unfold Game.stepEntities. rewrite checkCollisions_bulletLoop. cbn [snd].
  apply bulletLoop_suffix.
Qed.

Section OnTheField.

Variable c : Canvas.

Lemma centre_in_field (o : GameObject) :
  position o = mkVector2D (canvas_width c / 2) (canvas_height c / 2) ->
  in_field c o.
Proof.
  intros H. unfold in_field. rewrite H. simpl.
  pose proof (canvas_width_nonneg c). pose proof (canvas_height_nonneg c). lra.
Qed.

Lemma bulletLoop_on_field n g rng :
  Forall (fun a => in_field c (ast_obj a)) (asteroids g) ->
  let g' := fst (Game.bulletLoop n g rng) in
  Forall (fun a => in_field c (ast_obj a)) (asteroids g') /\
  incl (bullets g') (bullets g).
Proof.
  revert g rng. induction n as [|i IH]; intros g rng Hall; simpl.
  - split; [exact Hall|apply incl_refl].
  - destruct (nth_error (bullets g) i) as [b|]; simpl;
      [|split; [exact Hall|apply incl_refl]].
    destruct (asteroidLoop_spec (List.length (asteroids g)) i b g rng (le_n _))
      as [[Heq _]|(j & a & _ & Ha & _ & Heq)]; rewrite Heq.
    + apply IH. exact Hall.
    + pose proof (hitAsteroid_bullets i j a g rng) as Hbs.
      pose proof (hitAsteroid_asteroids i j a g rng) as Has.
      destruct (Game.hitAsteroid i j a g rng) as [g1 rng1]; simpl in Hbs, Has.
      destruct (IH g1 rng1) as [IH1 IH2].
      * rewrite Has. apply Forall_app. split.
        -- apply Forall_forall. intros x Hx.
           apply (proj1 (Forall_forall _ _) Hall). apply (removeAt_incl j). exact Hx.
        -- assert (Hina : in_field c (ast_obj a)).
           { apply (proj1 (Forall_forall _ _) Hall). eapply nth_error_In. exact Ha. }
           pose proof (split_positions a rng) as Hsp.
           apply Forall_forall. intros ch Hch.
           unfold in_field. rewrite (proj1 (Forall_forall _ _) Hsp ch Hch).
           exact Hina.
      * split; [exact IH1|].
        intros x Hx. apply (removeAt_incl i). rewrite <- Hbs. apply IH2. exact Hx.
Qed.

(** After the first part of a frame: the ship, the bullets and the
    asteroids are on the field, and every bullet is active with some
    lifetime left. *)
Lemma stepEntities_on_field dt g rng :
  let g' := fst (Game.stepEntities c dt g rng) in
  in_field c (ship_obj (ship g')) /\
  Forall (fun b => in_field c (bul_obj b) /\ active (bul_obj b) = true /\
                   0 < lifetime b) (bullets g') /\
  Forall (fun a => in_field c (ast_obj a)) (asteroids g').
Proof.
  cbv zeta. unfold Game.stepEntities.
  set (g0 := with_asteroids _ _).
  assert (Hship : in_field c (ship_obj (ship g0))).
  { unfold g0; simpl. unfold in_field. rewrite Ship_update_position.
    apply GameObject_update_in_field. }
  assert (Hbul : Forall (fun b => in_field c (bul_obj b) /\
                                  active (bul_obj b) = true /\ 0 < lifetime b)
                        (bullets g0)).
  { unfold g0; simpl. apply Forall_forall. intros b Hb.
    apply filter_In in Hb. destruct Hb as [Hin Hact].
    apply in_map_iff in Hin. destruct Hin as (b0 & <- & _).
    split; [|split; [exact Hact|]].
    - unfold in_field. rewrite Bullet_update_position.
      apply GameObject_update_in_field.
    - destruct (Bullet_update_fields c dt b0) as (Hl & _ & _ & _ & Ha).
      rewrite Ha in Hact. rewrite Hl.
      destruct (Rleb (lifetime b0 - dt) 0) eqn:E; [discriminate|].
      apply Rleb_false_iff in E. exact E. }
  assert (Hast : Forall (fun a => in_field c (ast_obj a)) (asteroids g0)).
  { unfold g0; simpl. apply Forall_forall. intros a Ha.
    apply in_map_iff in Ha. destruct Ha as (a0 & <- & _).
    unfold in_field. rewrite Asteroid_update_position.
    apply GameObject_update_in_field. }
  clearbody g0.
  pose proof (bulletLoop_frame (List.length (bullets g0)) g0 rng) as Hf.
  cbv zeta in Hf. destruct Hf as (Hs1 & _).
  destruct (bulletLoop_on_field (List.length (bullets g0)) g0 rng Hast)
    as [Hast1 Hincl].
  assert (Hbul1 : Forall (fun b => in_field c (bul_obj b) /\
                                   active (bul_obj b) = true /\ 0 < lifetime b)
                    (bullets (fst (Game.bulletLoop (List.length (bullets g0)) g0 rng)))).
  { apply Forall_forall. intros b Hb.
    apply (proj1 (Forall_forall _ _) Hbul). apply Hincl. exact Hb. }
  destruct (checkCollisions_outcome c g0 rng) as [->|[_ ->]].
  - rewrite Hs1. auto.
  - set (g1 := fst (Game.bulletLoop (List.length (bullets g0)) g0 rng)) in *.
    pose proof (loseLife_frame c g1) as Hll. cbv zeta in Hll.
    destruct Hll as (-> & -> & _).
    split; [|auto].
    unfold Game.loseLife; simpl.
    destruct (_ <=? 0)%Z; simpl.
    + rewrite Hs1. exact Hship.
    + apply centre_in_field. reflexivity.
Qed.

Lemma pickPosition_in_field fuel g rng x y rng' :
  unit_range rng ->
  Game.pickPosition c fuel g rng = Some (x, y, rng') ->
  0 <= x <= canvas_width c /\ 0 <= y <= canvas_height c.
Proof.
  revert rng. induction fuel as [|fuel IH]; intros rng Hu; [discriminate|].
  rewrite pickPosition_S.
  destruct (Rltb _ 150).
  - apply IH. apply unit_range_skip. exact Hu.
  - intros H. injection H as <- <- _.
    pose proof (Hu 0%nat). pose proof (Hu 1%nat).
    pose proof (canvas_width_nonneg c). pose proof (canvas_height_nonneg c).
    split; nra.
Qed.

Lemma spawnLoop_on_field fuel n g rng g' rng' :
  unit_range rng ->
  Forall (fun a => in_field c (ast_obj a)) (asteroids g) ->
  Game.spawnLoop c fuel n g rng = Some (g', rng') ->
  Forall (fun a => in_field c (ast_obj a)) (asteroids g').
Proof.
  revert g rng. induction n as [|n IH]; intros g rng Hu Hall.
  - simpl. intros H. injection H as <- _. exact Hall.
  - rewrite spawnLoop_S.
    destruct (Game.pickPosition c fuel g rng) as [[[x y] rng1]|] eqn:Hpick;
      [|discriminate].
    destruct (pickPosition_sound c _ _ _ _ _ _ Hpick) as [_ Hs1].
    destruct (pickPosition_in_field _ _ _ _ _ _ Hu Hpick) as [Hx Hy].
    apply IH.
    + eapply unit_range_suffix; [|exact Hu].
      eapply suffix_of_trans; [apply Asteroid_new_suffix|exact Hs1].
    + simpl. apply Forall_app. split; [exact Hall|].
      constructor; [|constructor].
      unfold in_field. rewrite Asteroid_new_position. simpl. tauto.
Qed.

(** X9.  After every [update] of a game in play, every bullet on the list
    is active and has lifetime left: the spent ones are gone.  A frame adds
    at most one bullet. *)
Theorem update_keeps_only_live_bullets fuel dt g rng g' rng' :
  gameOver g = false ->
  Game.update c fuel dt g rng = Some (g', rng') ->
  Forall (fun b => active (bul_obj b) = true /\ 0 < lifetime b) (bullets g') /\
  (List.length (bullets g') <= List.length (bullets g) + 1)%nat.
Proof.
  intros Hover Hu.
  destruct (update_cases c fuel dt g rng g' rng' Hover Hu) as (_ & -> & _).
  split.
  - destruct (stepEntities_on_field dt g rng) as (_ & Hb & _).
    eapply Forall_impl; [|exact Hb]. cbv beta. tauto.
  - unfold Game.stepEntities.
    set (g0 := with_asteroids _ _).
    assert (H0 : (List.length (bullets g0) <= List.length (bullets g) + 1)%nat).
    { unfold g0; simpl.
      etransitivity; [apply filter_length_le|]. rewrite length_map.
      rewrite handleInput_stages, Hover, fire_stage_bullets.
      destruct (steer_stage_frame dt g) as (-> & _).
      destruct (_ && _); [rewrite length_app; simpl|]; lia. }
    clearbody g0.
    destruct (bulletLoop_aggregate (List.length (bullets g0)) g0 rng)
      as (d & H1 & _).
    cbv zeta in H1.
    destruct (checkCollisions_outcome c g0 rng) as [->|[_ ->]].
    + lia.
    + destruct (loseLife_frame c (fst (Game.bulletLoop (List.length (bullets g0)) g0 rng)))
        as (-> & _). lia.
Qed.

(** X10.  After every [update] of a game in play, with [Math.random()] in
    its range from 0 to 1, everything is on the field: the ship, every
    bullet and every asteroid, the fragments of split asteroids and the
    asteroids of a new wave included. *)
Theorem update_leaves_everything_on_the_field fuel dt g rng g' rng' :
  gameOver g = false ->
  unit_range rng ->
  Game.update c fuel dt g rng = Some (g', rng') ->
  in_field c (ship_obj (ship g')) /\
  Forall (fun b => in_field c (bul_obj b)) (bullets g') /\
  Forall (fun a => in_field c (ast_obj a)) (asteroids g').
Proof.
  intros Hover Hrange Hu.
  destruct (update_cases c fuel dt g rng g' rng' Hover Hu) as (-> & -> & _).
  destruct (stepEntities_on_field dt g rng) as (Hs & Hb & Ha).
  split; [exact Hs|]. split.
  - eapply Forall_impl; [|exact Hb]. cbv beta. tauto.
  - revert Hu. unfold Game.update. rewrite Hover.
    pose proof (unit_range_suffix _ _ (stepEntities_suffix c dt g rng) Hrange) as Hr1.
    destruct (Game.stepEntities c dt g rng) as [g1 rng1]. cbn [fst snd] in *.
    destruct (List.length (asteroids g1) =? 0)%nat.
    + intros H. unfold Game.spawnAsteroids in H.
      eapply spawnLoop_on_field; [exact Hr1|exact Ha|exact H].
    + intros H. injection H as <- _. exact Ha.
Qed.

End OnTheField.

Lemma zero_rng_unit_range : unit_range zero_rng.
Proof. intros n. unfold zero_rng. lra. Qed.

(** A frame of 16 ms of the game with two bullets: the fresh bullet flies
    on, the spent one is dropped. *)
Lemma two_bullet_game_update :
  exists fuel g' rng',
    Game.update canvas800 fuel 0.016 two_bullet_game zero_rng = Some (g', rng') /\
    bullets g' = [Bullet.update canvas800 0.016 (Bullet.new 400 300 0)].
Proof.
  unfold Game.update. change (gameOver two_bullet_game) with false. cbv iota.
  rewrite (stepEntities_no_asteroids canvas800 0.016 two_bullet_game zero_rng eq_refl).
  destruct (handleInput_no_keys 0.016 two_bullet_game (fun k => eq_refl))
    as [Hship Hbullets].
  set (g1 := with_asteroids [] _).
  assert (Hs1 : ship g1 = Ship.update canvas800 0.016 (Ship.new 400 300)).
  { unfold g1. cbn [ship with_asteroids with_bullets with_ship]. rewrite Hship. reflexivity. }
  assert (Hb1 : bullets g1 = [Bullet.update canvas800 0.016 (Bullet.new 400 300 0)]).
  { unfold g1. cbn [bullets with_asteroids with_bullets with_ship]. rewrite Hbullets.
    change (bullets two_bullet_game) with [Bullet.new 400 300 0; spent_bullet].
    cbn [map filter].
    destruct (Bullet_update_fields canvas800 0.016 (Bullet.new 400 300 0))
      as (_ & _ & _ & _ & ->).
    destruct (Bullet_update_fields canvas800 0.016 spent_bullet)
      as (_ & _ & _ & _ & ->).
    change (lifetime (Bullet.new 400 300 0)) with 1.5.
    change (lifetime spent_bullet) with 0.01.
    assert (Hfresh : Rleb (1.5 - 0.016) 0 = false) by (apply Rleb_false_iff; lra).
    assert (Hspent : Rleb (0.01 - 0.016) 0 = true) by (apply Rleb_true_iff; lra).
    rewrite Hfresh, Hspent. reflexivity. }
  assert (Ha1 : asteroids g1 = []) by reflexivity.
  rewrite Ha1. cbn [List.length Nat.eqb]. unfold Game.spawnAsteroids.
  destruct (spawnLoop_complete canvas800 (Z.to_nat (Game.waveSize g1)) g1 zero_rng)
    as (fuel & [g' rng'] & H).
  { rewrite Hs1, Ship_update_position. unfold GameObject.update.
    rewrite wrapPosition_inside.
    - intros n. exists 0%nat. unfold far_draw, distance, zero_rng; simpl.
      rewrite <- (sqrt_square 150) at 1 by lra.
      apply sqrt_le_1_alt. lra.
    - unfold in_field, canvas_width, canvas_height; simpl. lra. }
  exists fuel, g', rng'. split; [exact H|].
  apply spawnLoop_sound in H.
  destruct H as (_ & _ & -> & _). exact Hb1.
Qed.

Lemma update_keeps_only_live_bullets_witness :
  gameOver two_bullet_game = false /\
  exists fuel g' rng',
    Game.update canvas800 fuel 0.016 two_bullet_game zero_rng = Some (g', rng') /\
    bullets g' = [Bullet.update canvas800 0.016 (Bullet.new 400 300 0)] /\
    Forall (fun b => active (bul_obj b) = true /\ 0 < lifetime b) (bullets g') /\
    (List.length (bullets g') <= List.length (bullets two_bullet_game) + 1)%nat.
Proof.
  split; [reflexivity|].
  destruct two_bullet_game_update as (fuel & g' & rng' & H & Hb).
  exists fuel, g', rng'. split; [exact H|]. split; [exact Hb|].
  exact (update_keeps_only_live_bullets canvas800 fuel 0.016 two_bullet_game
           zero_rng g' rng' eq_refl H).
Defined.

Lemma update_leaves_everything_on_the_field_witness :
  gameOver empty_game = false /\ unit_range zero_rng /\
  exists fuel g' rng',
    Game.update canvas800 fuel 0 empty_game zero_rng = Some (g', rng') /\
    Forall (fun a => in_field canvas800 (ast_obj a)) (asteroids g').
Proof.
  split; [reflexivity|]. split; [exact zero_rng_unit_range|].
  destruct empty_game_update as (fuel & g' & rng' & H).
  exists fuel, g', rng'. split; [exact H|].
  exact (proj2 (proj2 (update_leaves_everything_on_the_field canvas800 fuel 0
                         empty_game zero_rng g' rng' eq_refl zero_rng_unit_range H))).
Defined.

(** ** The page mirrors the game *)

Section Mirror.

Variable c : Canvas.

Lemma hitAsteroid_mirrors i j a g rng :
  gameOver g = false -> dom_mirrors g ->
  dom_mirrors (fst (Game.hitAsteroid i j a g rng)).
Proof.
  intros Hover (H1 & H2 & H3 & H4). unfold Game.hitAsteroid.
  destruct (Asteroid.split a rng). unfold dom_mirrors; simpl.
  rewrite Hover in *. repeat split; auto. discriminate.
Qed.

Lemma bulletLoop_mirrors n g rng :
  gameOver g = false -> dom_mirrors g ->
  dom_mirrors (fst (Game.bulletLoop n g rng)).
Proof.
  revert g rng. induction n as [|i IH]; intros g rng Hover Hm; simpl; [exact Hm|].
  destruct (nth_error (bullets g) i) as [b|]; [|exact Hm].
  destruct (asteroidLoop_spec (List.length (asteroids g)) i b g rng (le_n _))
    as [[Heq _]|(j & a & _ & _ & _ & Heq)]; rewrite Heq.
  - apply IH; assumption.
  - pose proof (hitAsteroid_mirrors i j a g rng Hover Hm) as Hm1.
    destruct (hitAsteroid_frame i j a g rng) as (_ & _ & Hgo & _).
    destruct (Game.hitAsteroid i j a g rng) as [g1 rng1]; simpl in *.
    apply IH; [congruence|exact Hm1].
Qed.

Lemma loseLife_mirrors g :
  gameOver g = false -> dom_mirrors g -> dom_mirrors (Game.loseLife c g).
Proof.
  intros Hover (H1 & H2 & H3 & H4). unfold Game.loseLife; simpl.
  destruct (_ <=? 0)%Z; unfold dom_mirrors; simpl; rewrite ?Hover in *;
    repeat split; auto; discriminate.
Qed.

Lemma stepEntities_mirrors dt g rng :
  gameOver g = false -> dom_mirrors g ->
  dom_mirrors (fst (Game.stepEntities c dt g rng)).
Proof.
  intros Hover Hm. unfold Game.stepEntities.
  pose proof (handleInput_frame dt g) as Hh.
  unfold handleInput_untouched in Hh. injection Hh as _ Hs Hl Hgo _ _ Hd.
  set (g0 := with_asteroids _ _).
  assert (H0 : dom_mirrors g0 /\ gameOver g0 = false).
  { unfold g0, dom_mirrors; simpl. rewrite Hs, Hl, Hgo, Hd. split; [exact Hm|exact Hover]. }
  clearbody g0. destruct H0 as [Hm0 Hover0].
  pose proof (bulletLoop_mirrors (List.length (bullets g0)) g0 rng Hover0 Hm0) as Hm1.
  pose proof (bulletLoop_frame (List.length (bullets g0)) g0 rng) as Hf.
  cbv zeta in Hf. destruct Hf as (_ & _ & Hgo1 & _).
  destruct (checkCollisions_outcome c g0 rng) as [->|[_ ->]]; [exact Hm1|].
  apply loseLife_mirrors; [congruence|exact Hm1].
Qed.

Lemma reset_mirrors fuel g rng g' rng' :
  Game.reset c fuel g rng = Some (g', rng') -> dom_mirrors g'.
Proof.
  unfold Game.reset, Game.spawnAsteroids.
  destruct (Game.spawnLoop c fuel (Z.to_nat 5) _ rng) as [[g1 rng1]|] eqn:E;
    [|discriminate].
  apply spawnLoop_sound in E. simpl in E.
  destruct E as (_ & _ & _ & Hs & Hl & Hgo & _).
  intros H. injection H as <- _. unfold dom_mirrors; simpl.
  rewrite Hgo. repeat split; auto. discriminate.
Qed.

(** X11.  The page always shows the game as it is.  After the constructor,
    and then after every frame and every key event, [#score] holds the score
    and [#lives] the lives, [#gameOverScreen] is hidden exactly while the
    game is in play, and once the game is over [#finalScore] holds the
    score. *)
Theorem page_mirrors_the_game (fuel : nat) :
  (forall d rng g rng',
     Game.new c fuel d rng = Some (g, rng') -> dom_mirrors g) /\
  (forall e g rng g' rng',
     dom_mirrors g -> dispatch c fuel e g rng = Some (g', rng') ->
     dom_mirrors g').
Proof.
  split.
  - intros d rng g rng'. unfold Game.new.
    destruct (Game.reset c fuel _ rng) as [[g0 rng0]|] eqn:E; [|discriminate].
    apply reset_mirrors in E. intros H. injection H as <- _. exact E.
  - intros e g rng g' rng' Hm. destruct e as [t|key|key]; simpl.
    + unfold Game.gameLoop.
      assert (Hm1 : dom_mirrors (with_lastTime t g)) by exact Hm.
      destruct (Rltb _ 0.1); [|intros H; injection H as <- _; exact Hm1].
      unfold Game.update.
      destruct (gameOver (with_lastTime t g)) eqn:Hover;
        [intros H; injection H as <- _; exact Hm1|].
      pose proof (stepEntities_mirrors ((t - lastTime g) / 1000)
                    (with_lastTime t g) rng Hover Hm1) as Hm2.
      destruct (Game.stepEntities c _ (with_lastTime t g) rng) as [g1 rng1].
      simpl in Hm2.
      destruct (List.length (asteroids g1) =? 0)%nat.
      * intros H. apply spawnLoop_sound in H.
        destruct H as (_ & _ & _ & Hs & Hl & Hgo & _ & _ & _ & _ & Hd & _).
        unfold dom_mirrors. rewrite Hs, Hl, Hgo, Hd. exact Hm2.
      * intros H; injection H as <- _; exact Hm2.
    + unfold Game.keydown. destruct (_ && _).
      * apply reset_mirrors.
      * intros H; injection H as <- _; exact Hm.
    + intros H; injection H as <- _; exact Hm.
Qed.

End Mirror.

Lemma page_mirrors_the_game_witness :
  dom_mirrors empty_game /\
  dom_mirrors (Game.keyup "w" empty_game).
Proof.
  assert (H : dom_mirrors empty_game).
  { unfold dom_mirrors; simpl. repeat split; auto. }
  split; [exact H|].
  exact (proj2 (page_mirrors_the_game canvas800 0) (KeyUp "w") empty_game zero_rng
               (Game.keyup "w" empty_game) zero_rng H eq_refl).
Defined.

(** ** A new game *)

Section NewGame.

Variable c : Canvas.

Lemma reset_start fuel g rng g' rng' :
  Game.reset c fuel g rng = Some (g', rng') ->
  Forall (spawned_far_from (ship g')) (asteroids g') /\
  invulnerable (ship g') = false /\
  velocity (ship_obj (ship g')) = mkVector2D 0 0 /\
  dom g' = mkDOM 0 5 (finalScoreElement (dom g)) true.
Proof.
  unfold Game.reset, Game.spawnAsteroids.
  destruct (Game.spawnLoop c fuel (Z.to_nat 5) _ rng) as [[g1 rng1]|] eqn:E;
    [|discriminate].
  apply spawnLoop_sound in E. simpl in E.
  destruct E as ((new & Hnew & _ & Hall) & Hship & _ & Hs & Hl & _ & _ & _ & _
                 & _ & Hd & _).
  intros H. injection H as <- _. simpl.
  rewrite Hnew, Hship, Hs, Hl, Hd. simpl. auto.
Qed.

Lemma reset_returns fuel0 g rng :
  fair c (mkVector2D (canvas_width c / 2) (canvas_height c / 2)) rng ->
  exists fuel r, (fuel0 <= fuel)%nat /\ Game.reset c fuel g rng = Some r.
Proof.
  intros Hfair. unfold Game.reset, Game.spawnAsteroids.
  match goal with
  | |- exists fuel r, _ /\ match Game.spawnLoop _ fuel ?n ?g0 ?r0 with _ => _ end = _ =>
      destruct (spawnLoop_complete c n g0 r0 Hfair) as (fuel & [g1 rng1] & H);
      exists (Nat.max fuel0 fuel);
      rewrite (spawnLoop_more_fuel c fuel (Nat.max fuel0 fuel) n g0 r0 _
                 (Nat.le_max_r _ _) H)
  end.
  eexists. split; [apply Nat.le_max_l|reflexivity].
Qed.

(** X12.  The game the constructor builds, when it returns: score 0, five
    lives, in play, no bullets, the gun armed, no key down, a ship at rest
    in the middle of the canvas that is not invulnerable, and five large
    asteroids none of which is closer than 150 to the ship; the page shows
    score 0 and 5 lives and hides the game-over screen.  The constructor
    returns whenever [Math.random()] keeps producing points that far from
    the middle. *)
Theorem constructor_starts_a_fresh_game (d : DOM) (rng : RNG) :
  (forall fuel g rng',
     Game.new c fuel d rng = Some (g, rng') ->
     score g = 0%Z /\ lives g = 5%Z /\ gameOver g = false /\
     bullets g = [] /\ canShoot g = true /\ (forall k, keys g k = false) /\
     ship g = Ship.new (canvas_width c / 2) (canvas_height c / 2) /\
     List.length (asteroids g) = 5%nat /\
     Forall (spawned_far_from (ship g)) (asteroids g) /\
     scoreElement (dom g) = 0%Z /\ livesElement (dom g) = 5%Z /\
     gameOverScreen_hidden (dom g) = true) /\
  (fair c (mkVector2D (canvas_width c / 2) (canvas_height c / 2)) rng ->
   exists fuel g rng', Game.new c fuel d rng = Some (g, rng')).
Proof.
  split.
  - intros fuel g rng'. unfold Game.new.
    destruct (Game.reset c fuel _ rng) as [[g0 rng0]|] eqn:E; [|discriminate].
    pose proof (reset_result c _ _ _ _ _ E) as (H1 & H2 & H3 & H4 & H5 & H6 & H7 & _).
    pose proof (reset_start _ _ _ _ _ E) as (H8 & _ & _ & H9).
    intros H. injection H as <- _. simpl. rewrite H9. simpl.
    repeat split; auto.
  - intros Hfair. unfold Game.new.
    destruct (reset_returns 0
                (mkGame (Ship.new 0 0) [] [] 0 0 false false 0 0 no_keys d) rng Hfair)
      as (fuel & [g0 rng0] & _ & H).
    exists fuel. rewrite H. eauto.
Qed.

End NewGame.

Lemma zero_rng_fair_at_middle :
  fair canvas800 (mkVector2D (canvas_width canvas800 / 2) (canvas_height canvas800 / 2))
       zero_rng.
Proof.
  intros n. exists 0%nat.
  unfold far_draw, distance, zero_rng, canvas_width, canvas_height; simpl.
  rewrite <- (sqrt_square 150) at 1 by lra.
  apply sqrt_le_1_alt. lra.
Qed.

Lemma constructor_starts_a_fresh_game_witness :
  fair canvas800 (mkVector2D (canvas_width canvas800 / 2) (canvas_height canvas800 / 2))
       zero_rng /\
  exists fuel g rng',
    Game.new canvas800 fuel (mkDOM 0 0 0 false) zero_rng = Some (g, rng') /\
    lives g = 5%Z /\ List.length (asteroids g) = 5%nat.
Proof.
  split; [exact zero_rng_fair_at_middle|].
  destruct (constructor_starts_a_fresh_game canvas800 (mkDOM 0 0 0 false) zero_rng)
    as [Hsound Hret].
  destruct (Hret zero_rng_fair_at_middle) as (fuel & g & rng' & H).
  exists fuel, g, rng'. split; [exact H|].
  destruct (Hsound fuel g rng' H) as (_ & Hl & _ & _ & _ & _ & _ & Hn & _).
  split; [exact Hl|exact Hn].
Defined.

(** ** The keyboard and the frame clock *)

Lemma lower_ascii_idempotent (ch : ascii) :
  lower_ascii (lower_ascii ch) = lower_ascii ch.
Proof.
  destruct ch as [[] [] [] [] [] [] [] []]; reflexivity.
Qed.

Lemma toLowerCase_idempotent (s : string) :
  toLowerCase (toLowerCase s) = toLowerCase s.
Proof.
  induction s as [|ch s IH]; simpl; [reflexivity|].
  rewrite lower_ascii_idempotent, IH. reflexivity.
Qed.

(** X13.  The keyboard map is keyed by the lower-case name of the key.
    For key names made of ASCII characters: [toLowerCase] keeps the length
    of a name and applying it twice is applying it once.  In a game in
    play, a key going down is recorded under its lower-case name and
    nothing else happens, not even for R; a key going up, in whatever case
    it is reported, clears the record again; every other key stays as it
    was. *)
Theorem keys_are_recorded_in_lower_case
  (c : Canvas) (fuel : nat) (key key' : string) (g : Game) (rng : RNG) :
  ascii_name key -> ascii_name key' ->
  String.length (toLowerCase key) = String.length key /\
  toLowerCase (toLowerCase key) = toLowerCase key /\
  (gameOver g = false ->
   exists g1,
     dispatch c fuel (KeyDown key) g rng = Some (g1, rng) /\
     sim_state g1 = sim_state g /\
     keys g1 (toLowerCase key) = true /\
     (forall k, k <> toLowerCase key -> keys g1 k = keys g k) /\
     (toLowerCase key' = toLowerCase key ->
      keys (Game.keyup key' g1) (toLowerCase key) = false /\
      (forall k, k <> toLowerCase key ->
                 keys (Game.keyup key' g1) k = keys g k))).
Proof.
  intros _ _.
  split; [|split; [apply toLowerCase_idempotent|]].
  - induction key as [|ch s IH]; simpl; congruence.
  - intros Hover. simpl. unfold Game.keydown. simpl. rewrite Hover.
    rewrite Bool.andb_false_r.
    eexists. split; [reflexivity|]. simpl. split; [reflexivity|].
    unfold set_key. split; [rewrite String.eqb_refl; reflexivity|]. split.
    + intros k Hk. apply String.eqb_neq in Hk. rewrite Hk. reflexivity.
    + intros ->. split; [rewrite String.eqb_refl; reflexivity|].
      intros k Hk. apply String.eqb_neq in Hk. rewrite Hk. reflexivity.
Qed.

Lemma keys_are_recorded_in_lower_case_witness :
  ascii_name "W" /\ ascii_name "w" /\
  gameOver empty_game = false /\
  toLowerCase "W" = toLowerCase "w" /\
  exists g1,
    dispatch canvas800 0 (KeyDown "W") empty_game zero_rng = Some (g1, zero_rng) /\
    keys g1 "w"%string = true /\
    keys (Game.keyup "w" g1) "w"%string = false.
Proof.
  assert (HW : ascii_name "W")
    by (apply Forall_cons; [apply Nat.ltb_lt; reflexivity|apply Forall_nil]).
  assert (Hw : ascii_name "w")
    by (apply Forall_cons; [apply Nat.ltb_lt; reflexivity|apply Forall_nil]).
  split; [exact HW|]. split; [exact Hw|].
  split; [reflexivity|]. split; [reflexivity|].
  destruct (proj2 (proj2 (keys_are_recorded_in_lower_case
                            canvas800 0 "W" "w" empty_game zero_rng HW Hw)) eq_refl)
    as (g1 & Hd & _ & Hk & _ & Hup).
  exists g1. split; [exact Hd|]. split; [exact Hk|].
  exact (proj1 (Hup eq_refl)).
Defined.

(** X14.  A frame records its time stamp whatever else it does, and never
    changes the keyboard map.  A frame that comes 100 ms or more after the
    previous one does nothing else: the simulation is not advanced. *)
Theorem gameLoop_drops_late_frames
  (c : Canvas) (fuel : nat) (t : R) (g : Game) (rng : RNG) (g' : Game) (rng' : RNG) :
  Game.gameLoop c fuel t g rng = Some (g', rng') ->
  lastTime g' = t /\ keys g' = keys g /\
  (0.1 <= (t - lastTime g) / 1000 -> g' = with_lastTime t g /\ rng' = rng).
Proof.
  unfold Game.gameLoop.
  destruct (Rltb ((t - lastTime g) / 1000) 0.1) eqn:Hcmp.
  - apply Rltb_true_iff in Hcmp. intros Hu.
    assert (Hframe : lastTime g' = t /\ keys g' = keys g).
    { destruct (gameOver (with_lastTime t g)) eqn:Hover.
      - rewrite update_gameOver in Hu by exact Hover.
        injection Hu as <- _. auto.
      - destruct (update_cases c fuel _ _ rng g' rng' Hover Hu)
          as (_ & _ & _ & _ & _ & Hl & Hk & _).
        destruct (stepEntities_lives c ((t - lastTime g) / 1000)
                    (with_lastTime t g) rng Hover) as (_ & _ & Hl1 & Hk1).
        rewrite Hk, Hl, Hk1, Hl1. auto. }
    destruct Hframe. repeat split; auto; lra.
  - intros H. injection H as <- <-. auto.
Qed.

Lemma gameLoop_drops_late_frames_witness :
  Game.gameLoop canvas800 0 250 empty_game zero_rng
    = Some (with_lastTime 250 empty_game, zero_rng) /\
  lastTime (with_lastTime 250 empty_game) = 250.
Proof.
  assert (H : Game.gameLoop canvas800 0 250 empty_game zero_rng
              = Some (with_lastTime 250 empty_game, zero_rng)).
  { unfold Game.gameLoop.
    assert (E : Rltb ((250 - lastTime empty_game) / 1000) 0.1 = false)
      by (apply Rltb_false_iff; simpl; lra).
    rewrite E. reflexivity. }
  split; [exact H|].
  exact (proj1 (gameLoop_drops_late_frames canvas800 0 250 empty_game zero_rng _ _ H)).
Defined.

(** ** The minimap on the canvas *)

Lemma Rleb_and4 (a b c d e f g h : R) :
  Rleb a b && Rleb c d && Rleb e f && Rleb g h = true <->
  a <= b /\ c <= d /\ e <= f /\ g <= h.
Proof.
  rewrite !Bool.andb_true_iff, !Rleb_true_iff. tauto.
Qed.

(** The minimaps the program can have: square of side 200, scaled to the
    world. *)
Lemma scaled_minimap_contains (m : Minimap) (W H wx wy : R) :
  0 < W -> 0 < H ->
  mm_size m = 200 -> scaleX m = 200 / W -> scaleY m = 200 / H ->
  (0 <= wx <= W -> 0 <= wy <= H ->
   Minimap.isPointInMinimap m (px (Minimap.worldToMinimap m wx wy))
                              (py (Minimap.worldToMinimap m wx wy)) = true) /\
  (Minimap.isPointInMinimap m wx wy = true ->
   0 <= px (Minimap.minimapToWorld m wx wy) <= W /\
   0 <= py (Minimap.minimapToWorld m wx wy) <= H).
Proof.
  intros HW HH Hsize Hsx Hsy.
  assert (HkW : 0 < 200 / W) by (apply Rdiv_lt_0_compat; lra).
  assert (HkH : 0 < 200 / H) by (apply Rdiv_lt_0_compat; lra).
  assert (EW : W * (200 / W) = 200) by (field; lra).
  assert (EH : H * (200 / H) = 200) by (field; lra).
  unfold Minimap.isPointInMinimap, Minimap.worldToMinimap, Minimap.minimapToWorld.
  simpl. rewrite Hsize, Hsx, Hsy. split.
  - intros Hx Hy. apply Rleb_and4. repeat split; nra.
  - intros Hin. apply Rleb_and4 in Hin. destruct Hin as (H1 & H2 & H3 & H4).
    replace ((wx - mm_x m) / (200 / W)) with ((wx - mm_x m) * W / 200)
      by (field; lra).
    replace ((wy - mm_y m) / (200 / H)) with ((wy - mm_y m) * H / 200)
      by (field; lra).
    split; split.
    + apply Rmult_le_pos; [nra|lra].
    + apply (Rmult_le_reg_r 200); [lra|]. unfold Rdiv.
      rewrite Rmult_assoc, Rinv_l by lra. nra.
    + apply Rmult_le_pos; [nra|lra].
    + apply (Rmult_le_reg_r 200); [lra|]. unfold Rdiv.
      rewrite Rmult_assoc, Rinv_l by lra. nra.
Qed.

(** X15.  The minimap shows the world and nothing but the world.  For a
    world of positive width and height, after the constructor and after any
    [updatePosition]: every point of the world is drawn inside the minimap
    square, and every point of the square stands for a point of the world.
    [updatePosition] puts the square 20 from the right and bottom edges of
    the canvas without rescaling it, and with the size the canvas had it
    gives back the minimap of the constructor. *)
Theorem minimap_shows_the_world
  (c : Canvas) (W H cw ch x y : R) :
  0 < W -> 0 < H ->
  let m := Minimap.updatePosition cw ch (Minimap.new c W H) in
  (0 <= x <= W -> 0 <= y <= H ->
   Minimap.isPointInMinimap m (px (Minimap.worldToMinimap m x y))
                              (py (Minimap.worldToMinimap m x y)) = true) /\
  (Minimap.isPointInMinimap m x y = true ->
   0 <= px (Minimap.minimapToWorld m x y) <= W /\
   0 <= py (Minimap.minimapToWorld m x y) <= H) /\
  mm_x m + mm_size m + 20 = cw /\ mm_y m + mm_size m + 20 = ch /\
  Minimap.updatePosition (canvas_width c) (canvas_height c) (Minimap.new c W H)
  = Minimap.new c W H.
Proof.
  intros HW HH m.
  destruct (scaled_minimap_contains m W H x y HW HH eq_refl eq_refl eq_refl)
    as [H1 H2].
  split; [exact H1|]. split; [exact H2|].
  unfold m, Minimap.updatePosition, Minimap.new; simpl.
  split; [lra|]. split; [lra|reflexivity].
Qed.

Lemma minimap_shows_the_world_witness :
  0 < 800 /\ 0 < 600 /\ 0 <= 400 <= 800 /\ 0 <= 300 <= 600 /\
  Minimap.isPointInMinimap minimap800
    (px (Minimap.worldToMinimap minimap800 400 300))
    (py (Minimap.worldToMinimap minimap800 400 300)) = true.
Proof.
  assert (HW : 0 < 800) by lra. assert (HH : 0 < 600) by lra.
  assert (Hx : 0 <= 400 <= 800) by lra. assert (Hy : 0 <= 300 <= 600) by lra.
  split; [exact HW|]. split; [exact HH|]. split; [exact Hx|]. split; [exact Hy|].
  destruct (minimap_shows_the_world canvas800 800 600
              (canvas_width canvas800) (canvas_height canvas800) 400 300 HW HH)
    as (H1 & _ & _ & _ & E).
  cbv zeta in H1. rewrite E in H1. exact (H1 Hx Hy).
Defined.

(** X16.  A click on the canvas gives feedback only on the minimap: the
    list of effects is extended, by one effect of radius 5 at the mouse
    position, exactly when the minimap is clickable, the mouse is inside its
    square and the game state has an effects list; in every other case the
    effects are left as they are.  No click removes or changes an effect. *)
Theorem click_feedback_only_on_the_minimap
  (m : Minimap) (clickable : bool) (clientX clientY rectLeft rectTop : R)
  (effects : option (list Effect)) :
  let mouseX := clientX - rectLeft in
  let mouseY := clientY - rectTop in
  let after := Minimap.onClick m clickable clientX clientY rectLeft rectTop effects in
  (after = effects \/
   exists l, effects = Some l /\
             after = Some (l ++ [mkEffect mouseX mouseY 5 1 500])) /\
  (after <> effects <->
   clickable = true /\ Minimap.isPointInMinimap m mouseX mouseY = true /\
   effects <> None) /\
  Minimap.onMouseMove m clientX clientY rectLeft rectTop =
  Minimap.isPointInMinimap m mouseX mouseY.
Proof.
  cbv zeta. unfold Minimap.onClick, Minimap.handleMinimapClick,
    Minimap.showClickFeedback, Minimap.onMouseMove.
  destruct clickable; simpl.
  - destruct (Minimap.isPointInMinimap m _ _); simpl.
    + destruct effects as [l|]; simpl.
      * split; [right; eauto|]. split; [|reflexivity]. split.
        -- intros _. repeat split; discriminate.
        -- intros _ E. injection E as E.
           apply (f_equal (@List.length Effect)) in E.
           rewrite length_app in E. simpl in E. lia.
      * split; [left; reflexivity|]. split; [|reflexivity].
        split; [intros E; contradiction|intros (_ & _ & E); contradiction].
    + split; [left; reflexivity|]. split; [|reflexivity].
      split; [intros E; contradiction|intros (_ & E & _); discriminate].
  - split; [left; reflexivity|]. split; [|reflexivity].
    split; [intros E; contradiction|intros (E & _); discriminate].
Qed.

(** ** The queries of the UI manager *)

(** X17.  [calculateAccuracy] never divides by zero: with no shot fired, or
    no shot count in the game state, the accuracy is 0.  With hits between
    0 and the number of shots it is a percentage between 0 and 100, and 100
    exactly when every shot hit. *)
Theorem accuracy_is_a_percentage (fired hit : option R) :
  (or_zero fired = 0 -> UIManagerQueries.calculateAccuracy fired hit = 0) /\
  (0 <= or_zero hit <= or_zero fired ->
   0 <= UIManagerQueries.calculateAccuracy fired hit <= 100) /\
  (0 < or_zero fired ->
   (UIManagerQueries.calculateAccuracy fired hit = 100 <->
    or_zero hit = or_zero fired)).
Proof.
  unfold UIManagerQueries.calculateAccuracy.
  destruct (Req_dec_T (or_zero fired) 0) as [E|N].
  - split; [reflexivity|]. split; [lra|]. intros H; lra.
  - split; [intros H; contradiction|]. split.
    + intros [H0 H1]. assert (Hf : 0 < or_zero fired) by lra.
      split.
      * apply Rmult_le_pos; [|lra]. apply Rmult_le_pos; [lra|].
        apply Rlt_le, Rinv_0_lt_compat, Hf.
      * apply (Rmult_le_reg_r (or_zero fired)); [exact Hf|].
        replace (or_zero hit / or_zero fired * 100 * or_zero fired)
          with (or_zero hit * 100) by (field; lra).
        nra.
    + intros Hf. split.
      * intros E.
        assert (E' : or_zero hit / or_zero fired * 100 * or_zero fired
                     = 100 * or_zero fired) by (rewrite E; reflexivity).
        replace (or_zero hit / or_zero fired * 100 * or_zero fired)
          with (or_zero hit * 100) in E' by (field; lra).
        lra.
      * intros ->. field. lra.
Qed.

Lemma accuracy_is_a_percentage_witness :
  0 <= or_zero (Some 3) <= or_zero (Some 4) /\
  0 <= UIManagerQueries.calculateAccuracy (Some 4) (Some 3) <= 100 /\
  UIManagerQueries.calculateAccuracy None (Some 3) = 0.
Proof.
  assert (H : 0 <= or_zero (Some 3) <= or_zero (Some 4)) by (simpl; lra).
  split; [exact H|]. split.
  - exact (proj1 (proj2 (accuracy_is_a_percentage (Some 4) (Some 3))) H).
  - exact (proj1 (accuracy_is_a_percentage None (Some 3)) eq_refl).
Defined.

(** X18.  [getUIElementAtPoint] agrees with the minimap's own hit test: it
    answers with the minimap's bounds exactly for the points that
    [isPointInMinimap] accepts, so the minimap wins where it overlaps the
    HUD; otherwise it answers with the HUD's bounds for the points of the
    rectangle from (0, 0) to (250, 140), and with [null] for all others. *)
Theorem ui_element_at_point_agrees_with_minimap (m : Minimap) (x y : R) :
  let minimapBound := mkUIBound "minimap" (mm_x m) (mm_y m) (mm_size m) (mm_size m) in
  let hudBound := mkUIBound "hud" 0 0 250 140 in
  (UIManagerQueries.getUIElementAtPoint m x y = Some minimapBound <->
   Minimap.isPointInMinimap m x y = true) /\
  (UIManagerQueries.getUIElementAtPoint m x y = Some hudBound <->
   Minimap.isPointInMinimap m x y = false /\ 0 <= x <= 250 /\ 0 <= y <= 140) /\
  (UIManagerQueries.getUIElementAtPoint m x y = None <->
   Minimap.isPointInMinimap m x y = false /\ ~ (0 <= x <= 250 /\ 0 <= y <= 140)).
Proof.
  cbv zeta. unfold UIManagerQueries.getUIElementAtPoint,
    UIManagerQueries.getUIBounds, UIManagerQueries.firstBoundAt. simpl.
  change (Rleb (mm_x m) x && Rleb x (mm_x m + mm_size m) &&
          Rleb (mm_y m) y && Rleb y (mm_y m + mm_size m))
    with (Minimap.isPointInMinimap m x y).
  destruct (Minimap.isPointInMinimap m x y).
  - split; [tauto|]. split; split; try discriminate; intros [E _]; discriminate.
  - destruct (Rleb 0 x && Rleb x (0 + 250) && Rleb 0 y && Rleb y (0 + 140)) eqn:Hh.
    + apply Rleb_and4 in Hh.
      split; [split; discriminate|]. split.
      * split; [intros _; split; [reflexivity|lra]|reflexivity].
      * split; [discriminate|]. intros [_ N]. exfalso. apply N. lra.
    + assert (N : ~ (0 <= x <= 250 /\ 0 <= y <= 140)).
      { intros [Hx Hy]. apply Bool.not_true_iff_false in Hh. apply Hh.
        apply Rleb_and4. lra. }
      split; [split; discriminate|]. split.
      * split; [discriminate|]. intros (_ & Hx & Hy). exfalso. apply N. tauto.
      * split; auto.
Qed.

(** ** The density grid of the minimap *)

Lemma update_nth_length {A : Type} (i : nat) (f : A -> A) (l : list A) :
  List.length (update_nth i f l) = List.length l.
Proof.
  revert i. induction l as [|x l IH]; intros [|i]; simpl; auto.
Qed.

Lemma nth_update_nth {A : Type} (i j : nat) (f : A -> A) (l : list A) (d : A) :
  (i < List.length l)%nat ->
  nth j (update_nth i f l) d = if Nat.eqb j i then f (nth i l d) else nth j l d.
Proof.
  revert i j. induction l as [|x l IH]; intros i j Hi; simpl in Hi; [lia|].
  destruct i as [|i], j as [|j]; simpl; auto.
  apply IH. lia.
Qed.

Lemma rectangular_nth (cols : nat) (grid : list (list Z)) (gy : nat) :
  rectangular cols grid -> (gy < List.length grid)%nat ->
  List.length (nth gy grid []) = cols.
Proof.
  intros Hr Hgy. apply (proj1 (Forall_forall _ _) Hr). apply nth_In. exact Hgy.
Qed.

Lemma rectangular_update (cols gy gx : nat) (grid : list (list Z)) :
  rectangular cols grid ->
  rectangular cols (update_nth gy (update_nth gx Z.succ) grid).
Proof.
  intros Hr. revert gy. induction Hr as [|row grid Hrow Hr IH]; intros [|gy]; simpl.
  - constructor.
  - constructor.
  - constructor; [rewrite update_nth_length; exact Hrow|exact Hr].
  - constructor; [exact Hrow|apply IH].
Qed.

Lemma countAsteroid_spec (size : R) (cols : nat) (grid : list (list Z))
  (a : GSAsteroid) :
  rectangular cols grid -> grid <> [] ->
  exists grid',
    Minimap.countAsteroid size grid a = Some grid' /\
    List.length grid' = List.length grid /\ rectangular cols grid' /\
    forall gy gx, (gy < List.length grid)%nat -> (gx < cols)%nat ->
      grid_cell grid' gy gx =
      (grid_cell grid gy gx + if in_cell size gy gx a then 1 else 0)%Z.
Proof.
  intros Hr Hne. unfold Minimap.countAsteroid, in_cell.
  set (X := Math_floor (gs_x a / size)). set (Y := Math_floor (gs_y a / size)).
  assert (Hsame : forall gy gx : nat,
            (if ((X =? Z.of_nat gx) && (Y =? Z.of_nat gy))%Z then 1 else 0)%Z = 0%Z ->
            grid_cell grid gy gx =
            (grid_cell grid gy gx +
             if ((X =? Z.of_nat gx) && (Y =? Z.of_nat gy))%Z then 1 else 0)%Z)
    by (intros gy gx ->; lia).
  destruct (Z.leb_spec 0 X) as [HX|HX].
  - destruct grid as [|row0 rest] eqn:Hg; [contradiction|]. rewrite <- Hg in *.
    assert (Hrow0 : List.length row0 = cols).
    { rewrite Hg in Hr. inversion Hr; assumption. }
    rewrite Hrow0.
    destruct (Z.ltb_spec X (Z.of_nat cols)) as [HXc|HXc]; simpl.
    + destruct (Z.leb_spec 0 Y) as [HY|HY]; simpl.
      * destruct (Z.ltb_spec Y (Z.of_nat (List.length grid))) as [HYr|HYr]; simpl.
        -- eexists. split; [reflexivity|].
           split; [apply update_nth_length|].
           split; [apply rectangular_update; exact Hr|].
           intros gy gx Hgy Hgx. unfold grid_cell.
           rewrite (nth_update_nth (Z.to_nat Y) gy) by lia.
           destruct (Nat.eqb_spec gy (Z.to_nat Y)) as [->|Hny].
           ++ rewrite (nth_update_nth (Z.to_nat X) gx)
                by (rewrite (rectangular_nth cols) by (assumption || lia); lia).
              destruct (Nat.eqb_spec gx (Z.to_nat X)) as [->|Hnx].
              ** rewrite !Z2Nat.id, !Z.eqb_refl by lia. simpl. lia.
              ** destruct (Z.eqb_spec X (Z.of_nat gx)); [lia|]. simpl. lia.
           ++ destruct (Z.eqb_spec Y (Z.of_nat gy)); [lia|].
              rewrite Bool.andb_false_r. lia.
        -- exists grid. repeat split; auto. intros gy gx Hgy Hgx. apply Hsame.
           destruct (Z.eqb_spec Y (Z.of_nat gy)); [lia|].
           rewrite Bool.andb_false_r. reflexivity.
      * exists grid. repeat split; auto. intros gy gx Hgy Hgx. apply Hsame.
        destruct (Z.eqb_spec Y (Z.of_nat gy)); [lia|].
        rewrite Bool.andb_false_r. reflexivity.
    + exists grid. repeat split; auto. intros gy gx Hgy Hgx. apply Hsame.
      destruct (Z.eqb_spec X (Z.of_nat gx)); [lia|]. reflexivity.
  - exists grid. repeat split; auto. intros gy gx Hgy Hgx. apply Hsame.
    destruct (Z.eqb_spec X (Z.of_nat gx)); [lia|]. reflexivity.
Qed.

Lemma countAsteroids_spec (size : R) (cols : nat) (asteroids : list GSAsteroid)
  (grid : list (list Z)) :
  rectangular cols grid -> grid <> [] ->
  exists grid',
    Minimap.countAsteroids size grid asteroids = Some grid' /\
    List.length grid' = List.length grid /\ rectangular cols grid' /\
    forall gy gx, (gy < List.length grid)%nat -> (gx < cols)%nat ->
      grid_cell grid' gy gx =
      (grid_cell grid gy gx +
       Z.of_nat (List.length (filter (in_cell size gy gx) asteroids)))%Z.
Proof.
  revert grid. induction asteroids as [|a l IH]; intros grid Hr Hne; simpl.
  - exists grid. repeat split; auto. intros; lia.
  - destruct (countAsteroid_spec size cols grid a Hr Hne)
      as (g1 & -> & Hl1 & Hr1 & Hc1).
    assert (Hne1 : g1 <> []).
    { intros ->. destruct grid; [contradiction|discriminate]. }
    destruct (IH g1 Hr1 Hne1) as (g2 & -> & Hl2 & Hr2 & Hc2).
    exists g2. split; [reflexivity|]. split; [congruence|]. split; [exact Hr2|].
    intros gy gx Hgy Hgx.
    rewrite Hc2, Hc1 by (congruence || lia || assumption).
    destruct (in_cell size gy gx a); simpl; lia.
Qed.

Lemma countAsteroids_no_rows (size : R) (asteroids : list GSAsteroid) :
  Minimap.countAsteroids size [] asteroids =
  if existsb (fun a => (0 <=? Math_floor (gs_x a / size))%Z) asteroids
  then None else Some [].
Proof.
  induction asteroids as [|a l IH]; simpl; [reflexivity|].
  unfold Minimap.countAsteroid.
  destruct (0 <=? Math_floor (gs_x a / size))%Z; simpl; [reflexivity|exact IH].
Qed.

(** The rows of a grid all have the length of the first: the constructor
    builds it so. *)
Lemma grid_stays_rectangular (W H size : R) (grid : list (list Z)) :
  Minimap.initializeDensityGrid W H size = Some grid ->
  exists cols, rectangular cols grid.
Proof.
  unfold Minimap.initializeDensityGrid.
  destruct (Minimap.Array_of_length (Math_ceil (H / size))) as [[|rows]|];
    [| |discriminate].
  - intros E. injection E as <-. exists 0%nat. constructor.
  - destruct (Minimap.Array_of_length (Math_ceil (W / size))) as [cols|];
      [|discriminate].
    intros E. injection E as <-. exists cols.
    apply Forall_forall. intros row Hin.
    apply (repeat_spec (S rows) (repeat 0%Z cols) row) in Hin.
    rewrite Hin. apply repeat_length.
Qed.

Lemma grid_cell_zeros (grid : list (list Z)) (gy gx : nat) :
  grid_cell (map (map (fun _ : Z => 0%Z)) grid) gy gx = 0%Z.
Proof.
  unfold grid_cell.
  assert (Hrow : forall (row : list Z) (i : nat),
            nth i (map (fun _ : Z => 0%Z) row) 0%Z = 0%Z).
  { induction row as [|x row IH]; intros [|i]; simpl; auto. }
  revert gy. induction grid as [|row grid IH]; intros [|gy]; simpl.
  - destruct gx; reflexivity.
  - destruct gx; reflexivity.
  - apply Hrow.
  - apply IH.
Qed.

(** X19.  [updateDensityGrid] counts the asteroids cell by cell.  On a grid
    with rows, all of [cols] cells, it keeps the shape of the grid and
    leaves in the cell of row [gy] and column [gx] the number of asteroids
    whose position falls in that cell, whatever the cells held before;
    asteroids outside the grid are not counted anywhere.  On a grid
    without rows it fails as soon as there is an asteroid with [x >= 0]
    (it reads the length of a first row that is not there) and is harmless
    otherwise. *)
Theorem density_grid_counts_asteroids
  (size : R) (cols : nat) (grid : list (list Z)) (asteroids : list GSAsteroid) :
  (rectangular cols grid -> grid <> [] ->
   exists grid',
     Minimap.updateDensityGrid size grid asteroids = Some grid' /\
     List.length grid' = List.length grid /\ rectangular cols grid' /\
     forall gy gx, (gy < List.length grid)%nat -> (gx < cols)%nat ->
       grid_cell grid' gy gx =
       Z.of_nat (List.length (filter (in_cell size gy gx) asteroids))) /\
  (Minimap.updateDensityGrid size [] asteroids =
   if existsb (fun a => (0 <=? Math_floor (gs_x a / size))%Z) asteroids
   then None else Some []).
Proof.
  split; [|apply countAsteroids_no_rows].
  intros Hr Hne. unfold Minimap.updateDensityGrid.
  set (zeros := map (map (fun _ : Z => 0%Z)) grid).
  assert (Hrz : rectangular cols zeros).
  { unfold zeros, rectangular. apply Forall_map.
    eapply Forall_impl; [|exact Hr]. intros row Hrow. simpl.
    rewrite length_map. exact Hrow. }
  assert (Hlz : List.length zeros = List.length grid)
    by (unfold zeros; apply length_map).
  assert (Hnz : zeros <> []).
  { unfold zeros. destruct grid; [contradiction|discriminate]. }
  destruct (countAsteroids_spec size cols asteroids zeros Hrz Hnz)
    as (g' & Hg & Hl & Hr' & Hc).
  exists g'. split; [exact Hg|]. split; [congruence|]. split; [exact Hr'|].
  intros gy gx Hgy Hgx. rewrite Hc by (congruence || lia || assumption).
  assert (Hz : grid_cell zeros gy gx = 0%Z) by apply grid_cell_zeros.
  rewrite Hz. lia.
Qed.

Lemma Math_floor_is (x : R) (k : Z) :
  IZR k <= x < IZR k + 1 -> Math_floor x = k.
Proof.
  intros [Hlo Hhi]. unfold Math_floor.
  destruct (base_Int_part x) as [H1 H2].
  assert (A : IZR (Int_part x) < IZR (k + 1)) by (rewrite plus_IZR; lra).
  assert (B : IZR (k - 1) < IZR (Int_part x)) by (rewrite minus_IZR; lra).
  apply lt_IZR in A. apply lt_IZR in B. lia.
Qed.

Lemma Math_ceil_is (x : R) (k : Z) :
  IZR k - 1 < x <= IZR k -> Math_ceil x = k.
Proof.
  intros [Hlo Hhi]. unfold Math_ceil.
  change (Int_part (- x)) with (Math_floor (- x)).
  rewrite (Math_floor_is (- x) (- k)); [lia|]. rewrite opp_IZR. lra.
Qed.

Lemma density_grid_counts_asteroids_witness :
  let asteroids :=
    [mkGSAsteroid 5 5 40; mkGSAsteroid 15 5 25; mkGSAsteroid 3 7 15;
     mkGSAsteroid 50 50 15] in
  rectangular 2 [[5; 5]; [5; 5]]%Z /\ [[5; 5]; [5; 5]]%Z <> [] /\
  exists grid',
    Minimap.updateDensityGrid 10 [[5; 5]; [5; 5]]%Z asteroids = Some grid' /\
    grid_cell grid' 0 0 = 2%Z /\ grid_cell grid' 0 1 = 1%Z /\
    grid_cell grid' 1 0 = 0%Z /\ grid_cell grid' 1 1 = 0%Z.
Proof.
  intros asteroids.
  assert (Hr : rectangular 2 [[5; 5]; [5; 5]]%Z) by (repeat constructor).
  assert (Hn : [[5; 5]; [5; 5]]%Z <> []) by discriminate.
  split; [exact Hr|]. split; [exact Hn|].
  destruct (proj1 (density_grid_counts_asteroids 10 2 [[5; 5]; [5; 5]]%Z asteroids)
              Hr Hn) as (g' & Hg & _ & _ & Hc).
  exists g'. split; [exact Hg|].
  assert (F5 : Math_floor (5 / 10) = 0%Z) by (apply Math_floor_is; simpl; lra).
  assert (F15 : Math_floor (15 / 10) = 1%Z) by (apply Math_floor_is; simpl; lra).
  assert (F3 : Math_floor (3 / 10) = 0%Z) by (apply Math_floor_is; simpl; lra).
  assert (F7 : Math_floor (7 / 10) = 0%Z) by (apply Math_floor_is; simpl; lra).
  assert (F50 : Math_floor (50 / 10) = 5%Z) by (apply Math_floor_is; simpl; lra).
  repeat split; (rewrite Hc by (simpl; lia));
    unfold asteroids, in_cell; cbn [filter gs_x gs_y];
    rewrite F5, F15, F3, F7, F50; reflexivity.
Defined.

Lemma Math_floor_bounds (x : R) :
  IZR (Math_floor x) <= x < IZR (Math_floor x) + 1.
Proof. unfold Math_floor. destruct (base_Int_part x). lra. Qed.

Lemma Math_ceil_bounds (x : R) : x <= IZR (Math_ceil x).
Proof.
  unfold Math_ceil. rewrite opp_IZR. destruct (base_Int_part (- x)). lra.
Qed.

Lemma floor_below_ceil (x w s : R) :
  0 < s -> 0 <= x < w ->
  (0 <= Math_floor (x / s) < Math_ceil (w / s))%Z.
Proof.
  intros Hs [H0 Hw].
  pose proof (Math_floor_bounds (x / s)) as [Hlo Hhi].
  pose proof (Math_ceil_bounds (w / s)) as Hc.
  assert (Hq : 0 <= x / s) by (apply Rmult_le_pos; [lra|apply Rlt_le, Rinv_0_lt_compat, Hs]).
  assert (Hlt : x / s < w / s).
  { unfold Rdiv. apply Rmult_lt_compat_r; [apply Rinv_0_lt_compat, Hs|exact Hw]. }
  split.
  - assert (H : IZR (-1) < IZR (Math_floor (x / s))) by (simpl; lra).
    apply lt_IZR in H. lia.
  - apply lt_IZR. lra.
Qed.

(** X20.  The density grid covers the world.  When [initializeDensityGrid]
    returns a grid, for cells of positive size, the grid has
    ceil(height / size) rows of ceil(width / size) cells, all zero, and
    every point of the world, [0 <= x < width] and [0 <= y < height], falls
    in one of its cells. *)
Theorem density_grid_covers_the_world (W H size : R) (grid : list (list Z)) :
  0 < size ->
  Minimap.initializeDensityGrid W H size = Some grid ->
  List.length grid = Z.to_nat (Math_ceil (H / size)) /\
  (grid <> [] -> rectangular (Z.to_nat (Math_ceil (W / size))) grid) /\
  (forall gy gx, grid_cell grid gy gx = 0%Z) /\
  (forall x y, 0 <= x < W -> 0 <= y < H ->
     (Z.to_nat (Math_floor (y / size)) < List.length grid)%nat /\
     (Z.to_nat (Math_floor (x / size)) < Z.to_nat (Math_ceil (W / size)))%nat /\
     in_cell size (Z.to_nat (Math_floor (y / size)))
                  (Z.to_nat (Math_floor (x / size))) (mkGSAsteroid x y 0) = true).
Proof.
  intros Hs.
  assert (Hcover : forall x y, 0 <= x < W -> 0 <= y < H ->
            (Z.to_nat (Math_floor (y / size)) < Z.to_nat (Math_ceil (H / size)))%nat /\
            (Z.to_nat (Math_floor (x / size)) < Z.to_nat (Math_ceil (W / size)))%nat /\
            in_cell size (Z.to_nat (Math_floor (y / size)))
                         (Z.to_nat (Math_floor (x / size))) (mkGSAsteroid x y 0) = true).
  { intros x y Hx Hy.
    pose proof (floor_below_ceil x W size Hs Hx).
    pose proof (floor_below_ceil y H size Hs Hy).
    unfold in_cell; simpl.
    rewrite !Z2Nat.id, !Z.eqb_refl by lia. split; [lia|]. split; [lia|reflexivity]. }
  unfold Minimap.initializeDensityGrid, Minimap.Array_of_length.
  set (rows := Math_ceil (H / size)) in *. set (cols := Math_ceil (W / size)) in *.
  destruct ((0 <=? rows)%Z && (rows <=? max_array_length)%Z) eqn:Hrows;
    [|discriminate].
  destruct (Z.to_nat rows) as [|n] eqn:Hn.
  - intros E. injection E as <-. simpl.
    split; [reflexivity|]. split; [intros F; contradiction|].
    split; [intros [|gy] [|gx]; reflexivity|].
    intros x y Hx Hy. destruct (Hcover x y Hx Hy) as [F _]. lia.
  - destruct ((0 <=? cols)%Z && (cols <=? max_array_length)%Z); [|discriminate].
    intros E. injection E as <-.
    try change (repeat 0%Z (Z.to_nat cols) :: repeat (repeat 0%Z (Z.to_nat cols)) n)
      with (repeat (repeat 0%Z (Z.to_nat cols)) (S n)).
    split; [apply repeat_length|]. split.
    + intros _. apply Forall_forall. intros row Hin.
      apply (repeat_spec (S n) (repeat 0%Z (Z.to_nat cols)) row) in Hin.
      rewrite Hin. apply repeat_length.
    + split.
      * intros gy gx. unfold grid_cell.
        assert (Hrow : forall k i, nth i (repeat 0%Z k) 0%Z = 0%Z).
        { induction k as [|k IH]; intros [|i]; simpl; auto. }
        assert (Hg : forall k j, nth j (repeat (repeat 0%Z (Z.to_nat cols)) k) [] = []
                                 \/ nth j (repeat (repeat 0%Z (Z.to_nat cols)) k) []
                                    = repeat 0%Z (Z.to_nat cols)).
        { induction k as [|k IH]; intros [|j]; simpl; auto. }
        destruct (Hg (S n) gy) as [->| ->]; [destruct gx; reflexivity|apply Hrow].
      * intros x y Hx Hy. rewrite repeat_length. apply Hcover; assumption.
Qed.

Lemma density_grid_covers_the_world_witness :
  0 < 10 /\
  exists grid,
    Minimap.initializeDensityGrid 800 600 10 = Some grid /\
    List.length grid = 60%nat /\
    rectangular 80 grid /\
    grid_cell grid 30 40 = 0%Z /\
    Math_floor (300 / 10) = 30%Z /\ Math_floor (400 / 10) = 40%Z /\
    in_cell 10 30 40 (mkGSAsteroid 400 300 0) = true.
Proof.
  assert (Hs : 0 < 10) by lra.
  split; [exact Hs|].
  assert (Hw : Math_ceil (800 / 10) = 80%Z) by (apply Math_ceil_is; simpl; lra).
  assert (Hh : Math_ceil (600 / 10) = 60%Z) by (apply Math_ceil_is; simpl; lra).
  assert (Fy : Math_floor (300 / 10) = 30%Z) by (apply Math_floor_is; simpl; lra).
  assert (Fx : Math_floor (400 / 10) = 40%Z) by (apply Math_floor_is; simpl; lra).
  assert (Hi : Minimap.initializeDensityGrid 800 600 10
               = Some (repeat (repeat 0%Z 80) 60)).
  { unfold Minimap.initializeDensityGrid. rewrite Hw, Hh. reflexivity. }
  exists (repeat (repeat 0%Z 80) 60). split; [exact Hi|].
  destruct (density_grid_covers_the_world 800 600 10 _ Hs Hi)
    as (Hlen & Hrect & Hzero & Hcover).
  rewrite Hh in Hlen. rewrite Hw in Hrect.
  split; [exact Hlen|].
  split; [apply Hrect; discriminate|].
  split; [apply Hzero|].
  split; [exact Fy|]. split; [exact Fx|].
  destruct (Hcover 400 300) as (_ & _ & Hin); [lra|lra|].
  rewrite Fy, Fx in Hin. exact Hin.
Defined.

(** ** The history of the messages *)

Lemma subsequence_refl {A : Type} (l : list A) : subsequence l l.
Proof. induction l; constructor; assumption. Qed.

Lemma subsequence_trans {A : Type} (l1 l2 l3 : list A) :
  subsequence l1 l2 -> subsequence l2 l3 -> subsequence l1 l3.
Proof.
  intros H12 H23. revert l1 H12.
  induction H23 as [|x l2 l3 _ IH|x l2 l3 _ IH]; intros l1 H12.
  - exact H12.
  - apply subsequence_skip, IH, H12.
  - inversion H12 as [|y k1 k2 Hk|y k1 k2 Hk]; subst.
    + apply subsequence_skip, IH, Hk.
    + apply subsequence_keep, IH, Hk.
Qed.

Lemma subsequence_app_last {A : Type} (l1 l2 : list A) (x y : A) :
  x = y -> subsequence l1 l2 -> subsequence (l1 ++ [x]) (l2 ++ [y]).
Proof.
  intros <- H. induction H; simpl.
  - apply subsequence_keep, subsequence_nil.
  - apply subsequence_skip; assumption.
  - apply subsequence_keep; assumption.
Qed.

Lemma subsequence_tl {A : Type} (l : list A) : subsequence (List.tl l) l.
Proof.
  destruct l as [|x l]; simpl.
  - apply subsequence_nil.
  - apply subsequence_skip, subsequence_refl.
Qed.

(** [updateMessages] changes the [timeLeft] of a message and nothing else of
    it, and keeps the messages it keeps in their order. *)
Lemma updateMessages_subsequence (dt : R) (ui : UIManager) :
  subsequence (map message_id (messages (UIManager.updateMessages dt ui)))
              (map message_id (messages ui)).
Proof.
  unfold UIManager.updateMessages. cbn [messages].
  induction (messages ui) as [|m l IH]; simpl.
  - apply subsequence_nil.
  - destruct (Rgtb (timeLeft m - dt) 0); simpl.
    + apply subsequence_keep, IH.
    + apply subsequence_skip, IH.
Qed.

Lemma updateMessages_history (dt : R) (ui : UIManager) :
  messageHistory (UIManager.updateMessages dt ui) = messageHistory ui.
Proof. reflexivity. Qed.

Lemma showMessage_history (now : R) (txt : string) (dur : R) (type : string)
  (ui : UIManager) :
  messageHistory (UIManager.showMessage now txt dur type ui)
  = messageHistory ui ++ [mkHistoryEntry (mkMessage txt dur type now) dur].
Proof. reflexivity. Qed.

(** X21.  The history keeps what the queue forgets.  In every state the
    message system can reach, the messages on the queue are messages of
    [messageHistory], in the order they have there (a message is told by
    its text, its type and its time stamp), and every entry of the history
    still has the [timeLeft] it was shown with, its [duration]: the
    countdown of [updateMessages] works on the queue and not on the copy in
    the history. *)
Theorem queue_is_part_of_the_history (ui : UIManager) :
  ui_reachable ui ->
  subsequence (map message_id (messages ui))
              (map (fun h => message_id (hist_message h)) (messageHistory ui)) /\
  Forall (fun h => timeLeft (hist_message h) = duration h) (messageHistory ui) /\
  (List.length (messages ui) <= List.length (messageHistory ui))%nat.
Proof.
  intros Hr.
  assert (H : subsequence (map message_id (messages ui))
                (map (fun h => message_id (hist_message h)) (messageHistory ui)) /\
              Forall (fun h => timeLeft (hist_message h) = duration h)
                     (messageHistory ui)).
  { induction Hr as [gs|dt ui _ [IH1 IH2]|now txt dur type ui _ [IH1 IH2]|ui _ _].
    - split; [apply subsequence_nil|apply Forall_nil].
    - rewrite updateMessages_history. split; [|exact IH2].
      eapply subsequence_trans; [apply updateMessages_subsequence|exact IH1].
    - rewrite showMessage_history, showMessage_messages. split.
      + rewrite map_app.
        assert (Happ : subsequence
                         (map message_id (messages ui ++ [mkMessage txt dur type now]))
                         (map (fun h => message_id (hist_message h)) (messageHistory ui)
                          ++ map (fun h => message_id (hist_message h))
                               [mkHistoryEntry (mkMessage txt dur type now) dur])).
        { rewrite map_app. simpl. apply subsequence_app_last; [reflexivity|exact IH1]. }
        destruct (_ <? _)%nat; [|exact Happ].
        eapply subsequence_trans; [|exact Happ].
        replace (map message_id (List.tl (messages ui ++ [mkMessage txt dur type now])))
          with (List.tl (map message_id (messages ui ++ [mkMessage txt dur type now])))
          by (destruct (messages ui ++ [mkMessage txt dur type now]); reflexivity).
        apply subsequence_tl.
      + apply Forall_app. split; [exact IH2|].
        apply Forall_cons; [reflexivity|apply Forall_nil].
    - split; [apply subsequence_nil|apply Forall_nil]. }
  destruct H as [H1 H2]. split; [exact H1|]. split; [exact H2|].
  assert (Hlen : forall (A : Type) (l1 l2 : list A),
            subsequence l1 l2 -> (List.length l1 <= List.length l2)%nat).
  { intros A l1 l2 Hs. induction Hs; simpl; lia. }
  apply Hlen in H1. rewrite !length_map in H1. exact H1.
Qed.

Lemma queue_is_part_of_the_history_witness :
  ui_reachable (UIManager.showMessage 0 "WAVE 2" 3000 "info" (UIManager.new None)) /\
  Forall (fun h => timeLeft (hist_message h) = duration h)
         (messageHistory
            (UIManager.showMessage 0 "WAVE 2" 3000 "info" (UIManager.new None))).
Proof.
  assert (H : ui_reachable
                (UIManager.showMessage 0 "WAVE 2" 3000 "info" (UIManager.new None)))
    by apply ui_showMessage, ui_new.
  split; [exact H|].
  exact (proj1 (proj2 (queue_is_part_of_the_history _ H))).
Defined.

(** ** The time on the game-over screen *)



(** ** The nearest asteroids of the HUD *)

Lemma insert_permutation (x : Ranked) (l : list Ranked) :
  Permutation (HUD.insert x l) (x :: l).
Proof.
  induction l as [|y l IH]; simpl.
  - apply Permutation_refl.
  - destruct (Rleb _ _).
    + apply Permutation_refl.
    + eapply Permutation_trans; [apply perm_skip, IH|apply perm_swap].
Qed.

Lemma sort_permutation (l : list Ranked) : Permutation (HUD.sort l) l.
Proof.
  induction l as [|x l IH]; simpl.
  - apply Permutation_refl.
  - eapply Permutation_trans; [apply insert_permutation|apply perm_skip, IH].
Qed.

Lemma insert_sorted (x : Ranked) (l : list Ranked) :
  StronglySorted nearer l -> StronglySorted nearer (HUD.insert x l).
Proof.
  induction l as [|y l IH]; intros Hs; simpl.
  - apply SSorted_cons; [apply SSorted_nil|apply Forall_nil].
  - inversion Hs as [|y' l' Hl Hy]; subst.
    destruct (Rleb (ranked_distance x) (ranked_distance y)) eqn:E.
    + apply Rleb_true_iff in E.
      apply SSorted_cons; [exact Hs|].
      apply Forall_cons; [exact E|].
      eapply Forall_impl; [|exact Hy].
      intros a Ha. unfold nearer in *. lra.
    + apply Rleb_false_iff in E.
      apply SSorted_cons; [apply IH, Hl|].
      apply Forall_forall. intros a Ha.
      apply (Permutation_in _ (insert_permutation x l)) in Ha.
      destruct Ha as [<-|Ha].
      * unfold nearer. lra.
      * rewrite Forall_forall in Hy. apply Hy, Ha.
Qed.

Lemma sort_sorted (l : list Ranked) : StronglySorted nearer (HUD.sort l).
Proof.
  induction l as [|x l IH]; simpl.
  - apply SSorted_nil.
  - apply insert_sorted, IH.
Qed.

Lemma sorted_app (l1 l2 : list Ranked) :
  StronglySorted nearer (l1 ++ l2) ->
  StronglySorted nearer l1 /\
  forall a b, In a l1 -> In b l2 -> nearer a b.
Proof.
  induction l1 as [|x l1 IH]; simpl; intros Hs.
  - split; [apply SSorted_nil|intros a b []].
  - inversion Hs as [|x' l' Hl Hx]; subst.
    destruct (IH Hl) as [IH1 IH2].
    apply Forall_app in Hx. destruct Hx as [Hx1 Hx2].
    split.
    + apply SSorted_cons; assumption.
    + intros a b [<-|Ha] Hb.
      * rewrite Forall_forall in Hx2. apply Hx2, Hb.
      * apply IH2; assumption.
Qed.

(** X23.  [findNearestAsteroids(count)] returns the nearest asteroids,
    nearest first.  With a player it returns [count] asteroids, or all of
    them if there are fewer, each with its distance to the player and in
    order of distance; the asteroids it leaves out are the others of
    [gameState.asteroids], and none of them is nearer than one it returns.
    Without a player it returns the empty list. *)
Theorem findNearestAsteroids_returns_the_nearest
  (p : Point) (asteroids : list GSAsteroid) (count : nat) :
  let found := HUD.findNearestAsteroids (Some p) asteroids count in
  List.length found = Nat.min count (List.length asteroids) /\
  StronglySorted nearer found /\
  (exists rest,
     Permutation (found ++ rest) (map (ranked_from p) asteroids) /\
     forall a b, In a found -> In b rest -> nearer a b) /\
  HUD.findNearestAsteroids None asteroids count = [].
Proof.
  intros found.
  set (sorted := HUD.sort (map (ranked_from p) asteroids)).
  assert (Hf : found = firstn count sorted) by reflexivity.
  assert (Hperm : Permutation sorted (map (ranked_from p) asteroids))
    by apply sort_permutation.
  assert (Hsplit : found ++ skipn count sorted = sorted)
    by (rewrite Hf; apply firstn_skipn).
  assert (Hs : StronglySorted nearer (found ++ skipn count sorted))
    by (rewrite Hsplit; apply sort_sorted).
  destruct (sorted_app _ _ Hs) as [Hs1 Hs2].
  split.
  - rewrite Hf, length_firstn, (Permutation_length Hperm), length_map.
    reflexivity.
  - split; [exact Hs1|]. split; [|reflexivity].
    exists (skipn count sorted). split; [rewrite Hsplit; exact Hperm|exact Hs2].
Qed.

(** ** The game-over screen and the restart key *)

Lemma document_keydown_cases (key : string) (s : GameOverScreen) :
  (GameOverScreen.document_keydown key s = (GameOverScreen.hide s, true) /\
   keydown_listening s = true /\ isVisible s = true /\
   toLowerCase key = "r"%string) \/
  GameOverScreen.document_keydown key s = (s, false).
Proof.
  unfold GameOverScreen.document_keydown, GameOverScreen.handleKeyPress,
    GameOverScreen.restart.
  destruct (keydown_listening s); [|right; reflexivity].
  destruct (String.eqb_spec (toLowerCase key) "r") as [Hk|Hk];
    [|right; reflexivity].
  destruct (isVisible s); [|right; reflexivity].
  left. repeat split; assumption.
Qed.

Lemma screen_invariant (s : GameOverScreen) :
  screen_reachable s ->
  keydown_listening s = isVisible s /\ 0 <= showTime s /\ fadeInDuration s = 1000.
Proof.
  induction 1 as [|s _ (IH1 & IH2 & IH3)|s _ (IH1 & IH2 & IH3)
                  |dt s Hdt _ (IH1 & IH2 & IH3)|key s _ (IH1 & IH2 & IH3)].
  - simpl. repeat split; lra.
  - simpl. repeat split; [lra|exact IH3].
  - simpl. repeat split; assumption.
  - unfold GameOverScreen.update. destruct (isVisible s) eqn:E; simpl.
    + repeat split; [exact IH1|lra|exact IH3].
    + rewrite E. repeat split; assumption.
  - destruct (document_keydown_cases key s) as [(-> & _)| ->]; simpl.
    + repeat split; assumption.
    + repeat split; assumption.
Qed.

(** X24.  The restart key works while the game-over screen is shown, and
    only then.  In every state the screen can reach, the key handler is a
    listener of the document exactly while the screen is visible; the time
    shown is not negative and the fade-in value of [render] lies between 0
    and 1; and a key press restarts the game only if the screen is visible
    and the key is r or R, and then the screen is hidden and listens no
    more, while every other key press leaves the screen as it is. *)
Theorem restart_key_works_only_on_the_visible_screen (s : GameOverScreen) :
  screen_reachable s ->
  keydown_listening s = isVisible s /\
  0 <= showTime s /\
  0 <= GameOverScreen.fadeAlpha s <= 1 /\
  forall key,
    let r := GameOverScreen.document_keydown key s in
    (snd r = true ->
     isVisible s = true /\ toLowerCase key = "r"%string /\
     isVisible (fst r) = false /\ keydown_listening (fst r) = false) /\
    (snd r = false -> fst r = s) /\
    (isVisible s = true -> toLowerCase key = "r"%string -> snd r = true).
Proof.
  intros Hr. destruct (screen_invariant s Hr) as (H1 & H2 & H3).
  split; [exact H1|]. split; [exact H2|]. split.
  - unfold GameOverScreen.fadeAlpha. rewrite H3.
    assert (Hq : 0 <= showTime s / 1000) by lra.
    split; [apply Rmin_glb; lra|apply Rmin_l].
  - intros key r. unfold r.
    destruct (document_keydown_cases key s) as [(-> & _ & Hv & Hk)|Hsame].
    + simpl. repeat split; auto. discriminate.
    + rewrite Hsame. simpl. split; [discriminate|]. split; [reflexivity|].
      intros Hv Hk. exfalso.
      unfold GameOverScreen.document_keydown, GameOverScreen.handleKeyPress,
        GameOverScreen.restart in Hsame.
      rewrite H1, Hv, Hk in Hsame. simpl in Hsame. discriminate.
Qed.

Lemma restart_key_works_only_on_the_visible_screen_witness :
  screen_reachable (GameOverScreen.show GameOverScreen.new) /\
  keydown_listening (GameOverScreen.show GameOverScreen.new)
  = isVisible (GameOverScreen.show GameOverScreen.new).
Proof.
  assert (H : screen_reachable (GameOverScreen.show GameOverScreen.new))
    by apply screen_show, screen_new.
  split; [exact H|].
  exact (proj1 (restart_key_works_only_on_the_visible_screen _ H)).
Defined.
